(** * gaia-archtree: worktree pool, mutation registry and NSGA-II selector

    A shallow embedding of the evolution core of the repository:

    - [MultiObjectiveOptimizer] (MultiObjectiveOptimizer.js): the
      registered objectives, evaluation, fast non-dominated sort, crowding
      distance, selection, the offspring (tournament, crossover, mutation),
      the optimisation loop and the hypervolume;
    - [WorktreeManager] (WorktreeManager.js): the bounded worktree registry
      and the functions that walk it;
    - [MutationBrancher] (MutationBrancher.js): the mutation branch registry
      and the functions that walk it;
    - [NeuralEvolutionEngine] (NeuralEvolutionEngine.js): random
      architectures, crossover, diversity and the best network;
    - [EvolutionBirther] (EvolutionBirther.js): the birth of a lineage.

    JavaScript objects that are mutated in place live in an explicit heap
    (location -> object); arrays passed by reference are lists of
    locations.  External collaborators (git, the file system, the clock,
    Math.random, the pluggable evaluators) are parameters of the functions
    that call them. *)

From Stdlib Require Import QArith Qabs Qminmax Qround Lqa Lia ZArith Permutation Sorted.
From stdpp Require Import gmap strings list fin_maps pretty.

Local Open Scope Z_scope.

(** ** JavaScript numbers

    A JavaScript number is NaN, an infinity, or a finite binary64 value.
    Finite values are modelled by the rational they denote: the order and
    the sign of a difference are those of binary64, rounding of products
    and quotients is not modelled, and the two zeros are identified. *)

Module JSNum.

Inductive num : Type :=
| NaN
| NegInf
| Fin (q : Q)
| PosInf.

Definition zero : num := Fin 0.
Definition of_Z (z : Z) : num := Fin (inject_Z z).

Definition Qltb (x y : Q) : bool := negb (Qle_bool y x).

(** [a < b] *)
Definition ltb (a b : num) : bool :=
  match a, b with
  | NaN, _ | _, NaN => false
  | NegInf, NegInf => false
  | NegInf, _ => true
  | Fin _, NegInf => false
  | Fin x, Fin y => Qltb x y
  | Fin _, PosInf => true
  | PosInf, _ => false
  end.

(** [a > b] *)
Definition gtb (a b : num) : bool := ltb b a.

(** [a === b] on numbers *)
Definition eqb (a b : num) : bool :=
  match a, b with
  | NegInf, NegInf | PosInf, PosInf => true
  | Fin x, Fin y => Qeq_bool x y
  | _, _ => false
  end.

Definition neg (a : num) : num :=
  match a with
  | NaN => NaN
  | NegInf => PosInf
  | Fin x => Fin (- x)
  | PosInf => NegInf
  end.

Definition add (a b : num) : num :=
  match a, b with
  | NaN, _ | _, NaN => NaN
  | PosInf, NegInf | NegInf, PosInf => NaN
  | PosInf, _ | _, PosInf => PosInf
  | NegInf, _ | _, NegInf => NegInf
  | Fin x, Fin y => Fin (x + y)
  end.

Definition sub (a b : num) : num := add a (neg b).

Definition abs (a : num) : num :=
  match a with
  | NaN => NaN
  | NegInf | PosInf => PosInf
  | Fin x => Fin (Qabs x)
  end.

Definition mul (a b : num) : num :=
  match a, b with
  | NaN, _ | _, NaN => NaN
  | Fin x, Fin y => Fin (x * y)
  | Fin x, i | i, Fin x =>
      if Qeq_bool x 0 then NaN
      else if Qltb 0 x then i else neg i
  | PosInf, PosInf | NegInf, NegInf => PosInf
  | PosInf, NegInf | NegInf, PosInf => NegInf
  end.

Definition div (a b : num) : num :=
  match a, b with
  | NaN, _ | _, NaN => NaN
  | Fin x, Fin y =>
      if Qeq_bool y 0 then
        (if Qeq_bool x 0 then NaN else if Qltb 0 x then PosInf else NegInf)
      else Fin (x / y)
  | Fin _, _ => Fin 0
  | i, Fin y => if Qltb y 0 then neg i else i
  | _, _ => NaN
  end.

(** [Math.min(a, b)] *)
Definition min (a b : num) : num :=
  match a, b with
  | NaN, _ | _, NaN => NaN
  | _, _ => if ltb b a then b else a
  end.

(** Truthiness of a number: [0] and [NaN] are falsy. *)
Definition truthy (a : num) : bool :=
  match a with
  | NaN => false
  | Fin x => negb (Qeq_bool x 0)
  | _ => true
  end.

Definition is_finite (a : num) : Prop := exists q, a = Fin q.

End JSNum.

Import JSNum.

(** Stable sort by a comparator, as [Array.prototype.sort] with a
    consistent comparator: [cmp a b] tells that [a] has to come after [b]
    (the JavaScript comparator returned a value [> 0]); elements that the
    comparator does not order keep their relative order. *)

Section StableSort.
Context {A : Type} (after : A -> A -> bool).

Fixpoint sort_insert (x : A) (l : list A) : list A :=
  match l with
  | [] => [x]
  | y :: l' => if after x y then y :: sort_insert x l' else x :: y :: l'
  end.

Definition sort (l : list A) : list A := foldr sort_insert [] l.
End StableSort.

(** [Math.max(a, b)], besides [JSNum.min]. *)
Module JSMath.

Definition max (a b : num) : num :=
  match a, b with
  | NaN, _ | _, NaN => NaN
  | _, _ => if ltb a b then b else a
  end.

End JSMath.

(** ** MultiObjectiveOptimizer.js *)

Module MultiObjectiveOptimizer.

(** Objects are referred to by their location in the heap. *)
Definition loc := nat.

(** [solution.evaluation]; [dominatedSolutions] is a [Set] of ids, kept
    in insertion order. *)
Record Evaluation : Type := {
  objectives : gmap string num;
  dominationCount : Z;
  dominatedSolutions : list string;
  rank : nat;
  crowdingDistance : num
}.

(** A member of a population.  [properties] is [None] when the object has
    no [properties] field.  The sorter and the selector only run on
    solutions that went through [evaluateSolution], hence the
    [evaluation] field is always there. *)
Record solution : Type := {
  id : string;
  properties : option (list (string * num));
  evaluation : Evaluation
}.

(** A settled promise of an evaluation function. *)
Inductive outcome : Type :=
| Resolved (value : num)
| Rejected (message : string).

(** An entry of [this.objectives] (the fields [name], [weight],
    [description], [divine_patron] and [constraints] play no part in the
    functions below). *)
Record objective : Type := {
  obj_id : string;
  maximize : bool;
  evaluationFunction : solution -> string -> outcome;
  history : list (string * num)
}.

Record optimizer : Type := {
  this_objectives : list objective;       (* Map, in insertion order *)
  solutions : gmap string loc;
  paretoFronts : list (list loc);
  generations : nat;
  heap : gmap loc solution
}.

Definition blank_evaluation : Evaluation :=
  {| objectives := ∅; dominationCount := 0; dominatedSolutions := [];
     rank := 0; crowdingDistance := zero |}.

#[export] Instance solution_inhabited : Inhabited solution :=
  populate {| id := ""; properties := None; evaluation := blank_evaluation |}.

(** *** Field updates *)

Definition with_evaluation (f : Evaluation -> Evaluation) (s : solution) : solution :=
  {| id := id s; properties := properties s; evaluation := f (evaluation s) |}.

Definition update (f : Evaluation -> Evaluation) (l : loc)
    (h : gmap loc solution) : gmap loc solution :=
  alter (with_evaluation f) l h.

Definition set_dominationCount (c : Z) (e : Evaluation) : Evaluation :=
  {| objectives := objectives e; dominationCount := c;
     dominatedSolutions := dominatedSolutions e; rank := rank e;
     crowdingDistance := crowdingDistance e |}.

Definition set_dominatedSolutions (d : list string) (e : Evaluation) : Evaluation :=
  {| objectives := objectives e; dominationCount := dominationCount e;
     dominatedSolutions := d; rank := rank e;
     crowdingDistance := crowdingDistance e |}.

Definition set_rank (r : nat) (e : Evaluation) : Evaluation :=
  {| objectives := objectives e; dominationCount := dominationCount e;
     dominatedSolutions := dominatedSolutions e; rank := r;
     crowdingDistance := crowdingDistance e |}.

Definition set_crowdingDistance (d : num) (e : Evaluation) : Evaluation :=
  {| objectives := objectives e; dominationCount := dominationCount e;
     dominatedSolutions := dominatedSolutions e; rank := rank e;
     crowdingDistance := d |}.

(** [Set.prototype.add] *)
Definition set_add (x : string) (s : list string) : list string :=
  if decide (x ∈ s) then s else s ++ [x].

(** [solution.evaluation.objectives[objectiveId]]; a missing entry is
    [undefined], which compares and computes as [NaN]. *)
Definition objective_value (s : solution) (objectiveId : string) : num :=
  default NaN (objectives (evaluation s) !! objectiveId).

(** *** dominates *)

Fixpoint dominates_loop (objs : list objective) (solution1 solution2 : solution)
    (atLeastOneObjectiveBetter : bool) : bool :=
  match objs with
  | [] => atLeastOneObjectiveBetter
  | objective :: rest =>
      let value1 := objective_value solution1 (obj_id objective) in
      let value2 := objective_value solution2 (obj_id objective) in
      if maximize objective then
        if ltb value1 value2 then false
        else dominates_loop rest solution1 solution2
               (if gtb value1 value2 then true else atLeastOneObjectiveBetter)
      else
        if gtb value1 value2 then false
        else dominates_loop rest solution1 solution2
               (if ltb value1 value2 then true else atLeastOneObjectiveBetter)
  end.

Definition dominates (objs : list objective) (solution1 solution2 : solution) : bool :=
  dominates_loop objs solution1 solution2 false.

(** *** fastNonDominatedSort *)

(** Body of the inner loop of the first phase, for [solution] against
    [otherSolution]. *)
Definition compare_with (objs : list objective) (s : loc)
    (h : gmap loc solution) (other : loc) : gmap loc solution :=
  if String.eqb (id (h !!! s)) (id (h !!! other)) then h
  else if dominates objs (h !!! s) (h !!! other) then
    update (fun e => set_dominatedSolutions
                       (set_add (id (h !!! other)) (dominatedSolutions e)) e) s h
  else if dominates objs (h !!! other) (h !!! s) then
    update (fun e => set_dominationCount (dominationCount e + 1) e) s h
  else h.

(** Body of the outer loop of the first phase. *)
Definition init_solution (objs : list objective) (population : list loc)
    (acc : list loc * gmap loc solution) (s : loc) : list loc * gmap loc solution :=
  let '(front0, h) := acc in
  let h1 := update (set_dominationCount 0) s h in
  let h2 := update (set_dominatedSolutions []) s h1 in
  let h3 := fold_left (compare_with objs s) population h2 in
  if dominationCount (evaluation (h3 !!! s)) =? 0
  then (front0 ++ [s], update (set_rank 0) s h3)
  else (front0, h3).

(** [population.find(s => s.id === dominatedId)] *)
Definition find_by_id (h : gmap loc solution) (population : list loc)
    (dominatedId : string) : option loc :=
  List.find (fun s => String.eqb (id (h !!! s)) dominatedId) population.

(** Body of the loop over [solution.evaluation.dominatedSolutions]. *)
Definition release (population : list loc) (frontIndex : nat)
    (acc : list loc * gmap loc solution) (dominatedId : string)
    : list loc * gmap loc solution :=
  let '(nextFront, h) := acc in
  match find_by_id h population dominatedId with
  | Some d =>
      let h1 := update (fun e => set_dominationCount (dominationCount e - 1) e) d h in
      if dominationCount (evaluation (h1 !!! d)) =? 0
      then (nextFront ++ [d], update (set_rank (frontIndex + 1)) d h1)
      else (nextFront, h1)
  | None => acc
  end.

(** The loop over the members of [fronts[frontIndex]]. *)
Definition process_front (population : list loc) (frontIndex : nat)
    (front : list loc) (h : gmap loc solution) : list loc * gmap loc solution :=
  fold_left
    (fun acc s =>
       fold_left (release population frontIndex)
         (dominatedSolutions (evaluation (snd acc !!! s))) acc)
    front ([], h).

(** The [while] loop that builds the later fronts.  [None]: the loop did
    not finish within [fuel] iterations, or [fronts[frontIndex]] is
    undefined. *)
Fixpoint build_fronts (fuel : nat) (population : list loc)
    (fronts : list (list loc)) (frontIndex : nat) (h : gmap loc solution)
    : option (list (list loc) * gmap loc solution) :=
  match fuel with
  | O => None
  | S fuel' =>
      match fronts !! frontIndex with
      | None => None
      | Some front =>
          if (0 <? length front)%nat then
            let '(nextFront, h') := process_front population frontIndex front h in
            if (0 <? length nextFront)%nat
            then build_fronts fuel' population (fronts ++ [nextFront]) (S frontIndex) h'
            else Some (fronts, h')
          else Some (fronts, h)
      end
  end.

Definition set_sorted (fronts : list (list loc)) (h : gmap loc solution)
    (st : optimizer) : optimizer :=
  {| this_objectives := this_objectives st; solutions := solutions st;
     paretoFronts := fronts; generations := generations st; heap := h |}.

Definition fastNonDominatedSort (st : optimizer) (population : list loc)
    : option (list (list loc) * optimizer) :=
  let '(front0, h1) :=
    fold_left (init_solution (this_objectives st) population) population
      ([], heap st) in
  match build_fronts (S (length population)) population [front0] 0 h1 with
  | Some (fronts, h2) => Some (fronts, set_sorted fronts h2 st)
  | None => None
  end.

(** *** calculateCrowdingDistance *)

(** The comparator of the sort by one objective returned a value [> 0]
    for [(a, b)]. *)
Definition by_objective (h : gmap loc solution) (objective : objective)
    (a b : loc) : bool :=
  let valueA := objective_value (h !!! a) (obj_id objective) in
  let valueB := objective_value (h !!! b) (obj_id objective) in
  gtb (if maximize objective then sub valueB valueA else sub valueA valueB) zero.

(** Body of the loop over the interior indices [1 .. frontSize - 2]. *)
Definition add_distance (objective : objective) (front : list loc) (range : num)
    (h : gmap loc solution) (i : nat) : gmap loc solution :=
  let distance :=
    div (abs (sub (objective_value (h !!! (front !!! (i + 1)%nat)) (obj_id objective))
                  (objective_value (h !!! (front !!! (i - 1)%nat)) (obj_id objective))))
        range in
  update (fun e => set_crowdingDistance (add (crowdingDistance e) distance) e)
    (front !!! i) h.

(** Body of the loop over the objectives; the front is sorted in place. *)
Definition crowding_objective (frontSize : nat)
    (acc : list loc * gmap loc solution) (objective : objective)
    : list loc * gmap loc solution :=
  let '(front, h) := acc in
  let front := sort (by_objective h objective) front in
  let h := update (set_crowdingDistance PosInf) (front !!! 0%nat) h in
  let h := update (set_crowdingDistance PosInf) (front !!! (frontSize - 1)%nat) h in
  let maxValue := objective_value (h !!! (front !!! 0%nat)) (obj_id objective) in
  let minValue :=
    objective_value (h !!! (front !!! (frontSize - 1)%nat)) (obj_id objective) in
  let range := sub maxValue minValue in
  if eqb range zero then (front, h)
  else (front,
        fold_left (add_distance objective front range)
          (seq 1 (frontSize - 2)) h).

(** Returns the front as it is left in the array, and the heap. *)
Definition calculateCrowdingDistance (objs : list objective) (front : list loc)
    (h : gmap loc solution) : list loc * gmap loc solution :=
  let frontSize := length front in
  let h := fold_left (fun h s => update (set_crowdingDistance zero) s h) front h in
  if (frontSize <=? 2)%nat then
    (front, fold_left (fun h s => update (set_crowdingDistance PosInf) s h) front h)
  else fold_left (crowding_objective frontSize) objs (front, h).

(** *** selection *)

(** The comparator [(a, b) => b.crowdingDistance - a.crowdingDistance]
    returned a value [> 0]. *)
Definition by_crowding (h : gmap loc solution) (a b : loc) : bool :=
  gtb (sub (crowdingDistance (evaluation (h !!! b)))
           (crowdingDistance (evaluation (h !!! a)))) zero.

(** [this.paretoFronts[i]] was sorted in place, the heap changed. *)
Definition set_front (i : nat) (front : list loc) (h : gmap loc solution)
    (st : optimizer) : optimizer :=
  {| this_objectives := this_objectives st; solutions := solutions st;
     paretoFronts := <[i := front]> (paretoFronts st);
     generations := generations st; heap := h |}.

(** The [while] loop that takes whole fronts.  [None]: out of fuel, or
    [this.paretoFronts[frontIndex]] is undefined (a TypeError). *)
Fixpoint selection_loop (fuel : nat) (st : optimizer) (newPopulationSize : nat)
    (newPopulation : list loc) (frontIndex : nat)
    : option (list loc * nat * optimizer) :=
  match fuel with
  | O => None
  | S fuel' =>
      match paretoFronts st !! frontIndex with
      | None => None
      | Some front =>
          if (length newPopulation + length front <=? newPopulationSize)%nat then
            let '(front', h) :=
              calculateCrowdingDistance (this_objectives st) front (heap st) in
            let st' := set_front frontIndex front' h st in
            let newPopulation' := newPopulation ++ front' in
            let frontIndex' := S frontIndex in
            if (length (paretoFronts st') <=? frontIndex')%nat
            then Some (newPopulation', frontIndex', st')
            else selection_loop fuel' st' newPopulationSize newPopulation' frontIndex'
          else Some (newPopulation, frontIndex, st)
      end
  end.

(** [population] is only used for a log line. *)
Definition selection (st : optimizer) (population : list loc)
    (newPopulationSize : nat) : option (list loc * optimizer) :=
  match selection_loop (length (paretoFronts st)) st newPopulationSize [] 0 with
  | None => None
  | Some (newPopulation, frontIndex, st1) =>
      if (length newPopulation <? newPopulationSize)%nat
         && (frontIndex <? length (paretoFronts st1))%nat
      then
        let remainingSlots := (newPopulationSize - length newPopulation)%nat in
        match paretoFronts st1 !! frontIndex with
        | None => None
        | Some lastFront =>
            let '(lastFront, h) :=
              calculateCrowdingDistance (this_objectives st1) lastFront (heap st1) in
            let lastFront := sort (by_crowding h) lastFront in
            Some (newPopulation ++ take remainingSlots lastFront,
                  set_front frontIndex lastFront h st1)
        end
      else Some (newPopulation, st1)
  end.

(** *** evaluateSolution *)

(** One registered objective: its evaluation function is called, the
    resolved value is stored and logged in the history; a rejection is
    caught and stores [0]. *)
Definition evaluate_objective (s : solution)
    (acc : gmap string num * list objective) (o : objective)
    : gmap string num * list objective :=
  let '(objectiveValues, objs) := acc in
  match evaluationFunction o s (obj_id o) with
  | Resolved value =>
      (<[obj_id o := value]> objectiveValues,
       objs ++ [{| obj_id := obj_id o; maximize := maximize o;
                   evaluationFunction := evaluationFunction o;
                   history := history o ++ [(id s, value)] |}])
  | Rejected _ =>
      (<[obj_id o := zero]> objectiveValues, objs ++ [o])
  end.

(** [getDivineBlessing] is an external call whose failure is caught; the
    blessing is not kept in the model. *)
Definition evaluateSolution (st : optimizer) (l : loc) : Evaluation * optimizer :=
  let s := heap st !!! l in
  let '(objectiveValues, objs) :=
    fold_left (evaluate_objective s) (this_objectives st) (∅, []) in
  let evaluation :=
    {| objectives := objectiveValues; dominationCount := 0;
       dominatedSolutions := []; rank := 0; crowdingDistance := zero |} in
  (evaluation,
   {| this_objectives := objs;
      solutions := <[id s := l]> (solutions st);
      paretoFronts := paretoFronts st;
      generations := generations st;
      heap := alter (with_evaluation (fun _ => evaluation)) l (heap st) |}).

(** *** crossover

    [Math.random] is a sequence of draws in [[0, 1)]; a function that
    draws takes the sequence and the position of the next draw, and
    returns the new position. *)

Definition rng : Type := nat -> Q.

(** A child made by [crossover]: it has no [evaluation] yet. *)
Record offspring : Type := {
  child_id : string;
  child_parents : string * string;
  child_generation : nat;
  child_properties : list (string * num)
}.

(** [Object.keys(parent.properties || {})] *)
Definition keys (s : solution) : list string :=
  match properties s with
  | Some ps => map fst ps
  | None => []
  end.

(** [parent.properties?.[key] || 0] *)
Definition property (s : solution) (key : string) : num :=
  match properties s with
  | Some ps =>
      match List.find (fun kv => String.eqb (fst kv) key) ps with
      | Some (_, v) => if truthy v then v else zero
      | None => zero
      end
  | None => zero
  end.

(** [new Set([...keys1, ...keys2])], in insertion order *)
Definition allKeys (parent1 parent2 : solution) : list string :=
  fold_left (fun acc k => set_add k acc) (keys parent1 ++ keys parent2) [].

Definition blend (value1 value2 weight : num) : num :=
  add (mul value1 weight) (mul value2 (sub (Fin 1) weight)).

Definition blend_key (parent1 parent2 : solution) (random : rng)
    (acc : list (string * num) * nat) (key : string) : list (string * num) * nat :=
  let '(props, n) := acc in
  let value1 := property parent1 key in
  let value2 := property parent2 key in
  let weight := Fin (random n) in
  (props ++ [(key, blend value1 value2 weight)], S n).

Definition blendProperties (parent1 parent2 : solution) (random : rng) (n : nat)
    : list (string * num) * nat :=
  fold_left (blend_key parent1 parent2 random) (allKeys parent1 parent2) ([], n).

(** [crossover(parent1, parent2)]; [name now r] renders the id
    [child_${Date.now()}_${r.toString(36).substr(2, 9)}]. *)
Definition crossover (name : Z -> Q -> string) (now : Z) (st : optimizer)
    (parent1 parent2 : solution) (random : rng) (n : nat)
    : (offspring * offspring) * nat :=
  let id1 := name now (random n) in
  let '(props1, n1) := blendProperties parent1 parent2 random (S n) in
  let child1 :=
    {| child_id := id1; child_parents := (id parent1, id parent2);
       child_generation := S (generations st); child_properties := props1 |} in
  let id2 := name now (random n1) in
  let '(props2, n2) := blendProperties parent2 parent1 random (S n1) in
  let child2 :=
    {| child_id := id2; child_parents := (id parent1, id parent2);
       child_generation := S (generations st); child_properties := props2 |} in
  ((child1, child2), n2).

(** *** addObjective, removeObjective, initializeObjectives *)

(** [Map.prototype.set] on the objectives: an id that is already there
    keeps its place, a new one goes last. *)
Fixpoint map_set (objectiveConfig : objective) (objs : list objective)
    : list objective :=
  match objs with
  | [] => [objectiveConfig]
  | o :: rest =>
      if String.eqb (obj_id o) (obj_id objectiveConfig)
      then objectiveConfig :: rest
      else o :: map_set objectiveConfig rest
  end.

(** [Map.prototype.delete] *)
Definition map_delete (id : string) (objs : list objective) : list objective :=
  filter (fun o => obj_id o <> id) objs.

(** What a caller hands to [addObjective]: [arg_name] is [objective.name],
    [arg_maximize] is [objective.maximize] when its type is boolean,
    [arg_evaluationFunction] the evaluator if one is given. *)
Record objective_arg : Type := {
  arg_name : option string;
  arg_maximize : option bool;
  arg_evaluationFunction : option (solution -> string -> outcome)
}.

Definition with_objectives (objs : list objective) (st : optimizer) : optimizer :=
  {| this_objectives := objs; solutions := solutions st;
     paretoFronts := paretoFronts st; generations := generations st;
     heap := heap st |}.

(** [addObjective(id, objective)]; [None]: it throws, the objective has
    no name or no boolean [maximize].  [defaultEvaluationFunction] is the
    evaluator used when none is given. *)
Definition addObjective (defaultEvaluationFunction : solution -> string -> outcome)
    (st : optimizer) (id : string) (objective : objective_arg) : option optimizer :=
  match arg_name objective, arg_maximize objective with
  | Some name, Some maximize =>
      if String.eqb name "" then None
      else
        let objectiveConfig :=
          {| obj_id := id; maximize := maximize;
             evaluationFunction :=
               default defaultEvaluationFunction (arg_evaluationFunction objective);
             history := [] |} in
        Some (with_objectives (map_set objectiveConfig (this_objectives st)) st)
  | _, _ => None
  end.

(** [removeObjective(id)] *)
Definition removeObjective (st : optimizer) (id : string) : bool * optimizer :=
  if decide (id ∈ obj_id <$> this_objectives st)
  then (true, with_objectives (map_delete id (this_objectives st)) st)
  else (false, st).




(** *** tournamentSelection *)

(** [population[Math.floor(r * population.length)]], for a draw [r] of
    [Math.random]. *)
Definition pick (population : list loc) (r : Q) : option loc :=
  population !! Z.to_nat (Qfloor (r * inject_Z (Z.of_nat (length population)))).

(** The loop that fills the tournament; an index outside the population
    yields [undefined]. *)
Fixpoint draw_tournament (population : list loc) (tournamentSize : nat)
    (random : rng) (n : nat) : list (option loc) * nat :=
  match tournamentSize with
  | O => ([], n)
  | S k =>
      let candidate := pick population (random n) in
      let '(rest, n') := draw_tournament population k random (S n) in
      (candidate :: rest, n')
  end.

(** The comparator of the tournament returned a value [> 0] for
    [(a, b)]. *)
Definition by_rank_then_crowding (h : gmap loc solution) (a b : loc) : bool :=
  let ea := evaluation (h !!! a) in
  let eb := evaluation (h !!! b) in
  if negb (rank ea =? rank eb)%nat then (rank eb <? rank ea)%nat
  else gtb (sub (crowdingDistance eb) (crowdingDistance ea)) zero.

(** [tournamentSelection(population, tournamentSize)]: [sort] moves the
    [undefined] entries to the end without comparing them, so that the
    result is [undefined] only when every entry is. *)
Definition tournamentSelection (h : gmap loc solution) (population : list loc)
    (tournamentSize : nat) (random : rng) (n : nat) : option loc * nat :=
  let '(tournament, n') := draw_tournament population tournamentSize random n in
  (head (sort (by_rank_then_crowding h) (omap (fun c => c) tournament)), n').

(** *** mutate *)

(** One turn of the loop over [Object.entries(solution.properties)]: a
    draw decides whether the property mutates, a second one by how
    much. *)
Definition mutate_entry (random : rng) (acc : list (string * num) * nat)
    (entry : string * num) : list (string * num) * nat :=
  let '(props, n) := acc in
  let '(key, value) := entry in
  if Qltb (random n) (3 # 10) then
    let mutationStrength := Fin (1 # 10) in
    let mutation :=
      mul (mul (sub (Fin (random (S n))) (Fin (1 # 2))) mutationStrength) value in
    (props ++ [(key, JSMath.max zero (add value mutation))], S (S n))
  else (props ++ [(key, value)], S n).

Definition with_properties (props : list (string * num)) (child : offspring)
    : offspring :=
  {| child_id := child_id child; child_parents := child_parents child;
     child_generation := child_generation child; child_properties := props |}.

(** [mutate(solution, mutationRate)] on a child; [blessed] tells whether
    the god invoked for the mutation answers, otherwise [mutate] throws
    ([None]). *)
Definition mutate (blessed : string -> bool) (child : offspring) (mutationRate : Q)
    (random : rng) (n : nat) : option offspring * nat :=
  if Qltb mutationRate (random n) then (Some child, S n)
  else
    let '(props, n') :=
      fold_left (mutate_entry random) (child_properties child) ([], S n) in
    if blessed (child_id child) then (Some (with_properties props child), n')
    else (None, n').

(** *** generateOffspring *)

(** The [for] loop of [generateOffspring], with [iterations] turns left
    and [brood] the offspring made so far; [None]: a parent is
    [undefined], or [mutate] throws. *)
Fixpoint offspring_loop (iterations : nat) (name : Z -> Q -> string) (now : Z)
    (blessed : string -> bool) (st : optimizer) (population : list loc)
    (offspringSize : nat) (brood : list offspring) (random : rng) (n : nat)
    : option (list offspring) * nat :=
  match iterations with
  | O => (Some brood, n)
  | S iterations' =>
      let '(parent1, n1) := tournamentSelection (heap st) population 3 random n in
      let '(parent2, n2) := tournamentSelection (heap st) population 3 random n1 in
      match parent1, parent2 with
      | Some parent1, Some parent2 =>
          let '((child1, child2), n3) :=
            crossover name now st (heap st !!! parent1) (heap st !!! parent2)
              random n2 in
          match mutate blessed child1 (1 # 10) random n3 with
          | (None, n4) => (None, n4)
          | (Some child1, n4) =>
              let brood := brood ++ [child1] in
              if (offspringSize <=? length brood)%nat then (Some brood, n4)
              else
                match mutate blessed child2 (1 # 10) random n4 with
                | (None, n5) => (None, n5)
                | (Some child2, n5) =>
                    let brood := brood ++ [child2] in
                    if (offspringSize <=? length brood)%nat
                    then (Some brood, n5)
                    else
                      offspring_loop iterations' name now blessed st population
                        offspringSize brood random n5
                end
          end
      | _, _ => (None, n2)
      end
  end.

(** [generateOffspring(population)]; [populationSize] is
    [this.populationSize]. *)
Definition generateOffspring (name : Z -> Q -> string) (now : Z)
    (blessed : string -> bool) (st : optimizer) (populationSize : nat)
    (population : list loc) (random : rng) (n : nat)
    : option (list offspring) * nat :=
  let offspringSize := (populationSize / 2)%nat in
  offspring_loop offspringSize name now blessed st population offspringSize []
    random n.

(** *** calculateHypervolume *)

Definition normalizedValue (o : objective) (value : num) : num :=
  if maximize o then div value (Fin 100) else div (sub (Fin 100) value) (Fin 100).

Definition solutionVolume (objs : list objective) (s : solution) : num :=
  fold_left
    (fun solutionVolume o =>
       mul solutionVolume
         (JSMath.max zero (normalizedValue o (objective_value s (obj_id o)))))
    objs (Fin 1).

Definition calculateHypervolume (objs : list objective) (h : gmap loc solution)
    (paretoFront : list loc) : num :=
  if (length paretoFront =? 0)%nat then zero
  else
    div (fold_left (fun volume l => add volume (solutionVolume objs (h !!! l)))
           paretoFront zero)
        (of_Z (Z.of_nat (length paretoFront))).

(** *** optimize *)

(** [hasConverged(population)]: the constructor does not set
    [evolutionHistory], which is read once five generations have run;
    [None]: that read throws a TypeError. *)
Definition hasConverged (st : optimizer) (population : list loc) : option bool :=
  if (generations st <? 5)%nat then Some false else None.

Definition with_generations (g : nat) (st : optimizer) : optimizer :=
  {| this_objectives := this_objectives st; solutions := solutions st;
     paretoFronts := paretoFronts st; generations := g; heap := heap st |}.

(** A child joins the population: the object gets a location. *)
Definition allocate_child (st : optimizer) (child : offspring) : loc * optimizer :=
  let l := fresh (dom (heap st)) in
  (l,
   {| this_objectives := this_objectives st; solutions := solutions st;
      paretoFronts := paretoFronts st; generations := generations st;
      heap := <[l := {| id := child_id child;
                        properties := Some (child_properties child);
                        evaluation := blank_evaluation |}]> (heap st) |}).

Definition allocate_children (st : optimizer) (children : list offspring)
    : list loc * optimizer :=
  fold_left
    (fun acc child =>
       let '(l, st') := allocate_child (snd acc) child in (fst acc ++ [l], st'))
    children ([], st).

(** [Promise.all(population.map(solution => this.evaluateSolution(solution)))],
    the evaluations taken one after the other. *)
Definition evaluate_all (st : optimizer) (population : list loc) : optimizer :=
  fold_left (fun st l => snd (evaluateSolution st l)) population st.

(** [reportGenerationProgress(population)] only prints; [None]: there is
    no first front to read, and it throws. *)
Definition reportGenerationProgress (st : optimizer) (population : list loc)
    : option unit :=
  match paretoFronts st !! 0%nat with
  | None => None
  | Some _ => Some tt
  end.

(** One turn of the loop over the generations, up to the update of the
    generation counter. *)
Definition generation_step (name : Z -> Q -> string) (now : Z)
    (blessed : string -> bool) (populationSize : nat) (gen : nat)
    (st : optimizer) (population : list loc) (random : rng) (n : nat)
    : option (list loc * optimizer * nat) :=
  match fastNonDominatedSort st population with
  | None => None
  | Some (_, st) =>
      match generateOffspring name now blessed st populationSize population
              random n with
      | (None, _) => None
      | (Some brood, n') =>
          let '(brood, st) := allocate_children st brood in
          let combinedPopulation := population ++ brood in
          let st := evaluate_all st brood in
          match fastNonDominatedSort st combinedPopulation with
          | None => None
          | Some (_, st) =>
              match selection st combinedPopulation populationSize with
              | None => None
              | Some (population, st) =>
                  Some (population, with_generations (S gen) st, n')
              end
          end
      end
  end.

(** The loop over the generations, with [remaining] turns left; the
    outcome says how the loop ended. *)
Fixpoint generations_loop (remaining : nat) (name : Z -> Q -> string) (now : Z)
    (blessed : string -> bool) (populationSize : nat) (gen : nat)
    (st : optimizer) (population : list loc) (random : rng) (n : nat)
    : option (list loc * optimizer * nat) :=
  match remaining with
  | O => Some (population, st, n)
  | S remaining' =>
      match generation_step name now blessed populationSize gen st population
              random n with
      | None => None
      | Some (population, st, n') =>
          match reportGenerationProgress st population with
          | None => None
          | Some _ =>
              match hasConverged st population with
              | None => None
              | Some true => Some (population, st, n')
              | Some false =>
                  generations_loop remaining' name now blessed populationSize
                    (S gen) st population random n'
              end
          end
      end
  end.

(** The part of the analysis that [optimize] returns which needs no
    square root. *)
Record analysis : Type := {
  paretoFront : list loc;
  paretoFrontSize : nat;
  totalFronts : nat;
  analysis_generations : nat;
  hypervolume : num;
  solutions_total : nat;
  solutions_evaluated : nat
}.

Definition analyzeResults (st : optimizer) (population : list loc) : option analysis :=
  match paretoFronts st !! 0%nat with
  | None => None
  | Some paretoFront =>
      Some {| paretoFront := paretoFront;
              paretoFrontSize := length paretoFront;
              totalFronts := length (paretoFronts st);
              analysis_generations := generations st;
              hypervolume :=
                calculateHypervolume (this_objectives st) (heap st) paretoFront;
              solutions_total := length population;
              solutions_evaluated := size (solutions st) |}
  end.

(** [optimize(initialPopulation, generations)]; [None]: it throws. *)
Definition optimize (name : Z -> Q -> string) (now : Z)
    (blessed : string -> bool) (populationSize : nat) (st : optimizer)
    (initialPopulation : list loc) (generations : nat) (random : rng) (n : nat)
    : option (analysis * optimizer) :=
  let population := initialPopulation in
  let st := evaluate_all st population in
  match generations_loop generations name now blessed populationSize 0 st
          population random n with
  | None => None
  | Some (population, st, _) =>
      match fastNonDominatedSort st population with
      | None => None
      | Some (_, st) =>
          match analyzeResults st population with
          | None => None
          | Some results => Some (results, st)
          end
      end
  end.

End MultiObjectiveOptimizer.

(** ** External collaborators of the registries

    Every call that leaves the process (git through simple-git, the file
    system, the god-invocation service, the tree coordinator) is recorded
    in a log, in the order in which it is issued.  Whether a call
    succeeds, and the hash a commit returns, are decided by the
    environment, which may look at everything issued so far. *)

Module External.

Inductive call : Type :=
| invokeGod (god message : string)
| checkoutLocalBranch (branch : string)
| checkout (branch : string)
| worktreeAdd (path branch : string)
| worktreeRemove (path : string)
| deleteLocalBranch (branch : string) (force : bool)
| mergeFromTo (from to : string)
| gitAdd (cwd : string)
| gitCommit (cwd message : string)
| writeMutationFile (path : string)
| balanceForces (light shadow : Z).

Record world : Type := {
  succeeds : list call -> call -> bool;
  commit_hash : list call -> string
}.

(** The errors thrown by the registries, by message. *)
Inductive error : Type :=
| MaximumWorktreesReached (max : nat)
| WorktreeNotFound (worktreeId : string)
| MaximumConcurrentMutationsReached (max : nat)
| MutationNotFound (mutationId : string)
| MutationNotActive (mutationId : string)
| CallFailed (c : call).

Inductive result (A : Type) : Type :=
| Ok (a : A)
| Throw (e : error).
Arguments Ok {A} a.
Arguments Throw {A} e.

(** The taxonomy of the specification. *)
Inductive kind : Type :=
| CapacityExceeded | NotFound | InvalidState | VcsOperationFailure.

Definition classify (e : error) : kind :=
  match e with
  | MaximumWorktreesReached _ | MaximumConcurrentMutationsReached _ => CapacityExceeded
  | WorktreeNotFound _ | MutationNotFound _ => NotFound
  | MutationNotActive _ => InvalidState
  | CallFailed _ => VcsOperationFailure
  end.

(** Issue the calls one after the other; stop at the first that fails.
    Returns the failed call, if any, and the log. *)
Fixpoint run (w : world) (cs : list call) (log : list call)
    : option call * list call :=
  match cs with
  | [] => (None, log)
  | c :: cs' =>
      if succeeds w log c then run w cs' (log ++ [c])
      else (Some c, log ++ [c])
  end.

End External.

(** ** WorktreeManager.js *)

Module WorktreeManager.
Import External.

Inductive status : Type := active | merged | merge_failed | cleaned.

#[export] Instance status_eq_dec : EqDecision status.
Proof. solve_decision. Defined.

Record commit_entry : Type := {
  hash : string;
  message : string;
  mutation : string;
  timestamp : Z
}.

Record worktree : Type := {
  id : string;
  evolutionId : string;
  path : string;
  branchName : string;
  baseBranch : string;
  god : string;
  created : Z;                 (* milliseconds since the epoch *)
  wt_status : status;
  commits : list commit_entry;
  mutations : nat;
  fitness : Q;
  mergedAt : option Z;
  mergedTo : option string;
  error : option call;
  cleanedAt : option Z
}.

Record manager : Type := {
  repoPath : string;
  worktrees : gmap string worktree;
  worktreeDir : string;
  maxWorktrees : nat;
  log : list call
}.

(** The mutation handed to [applyMutation]. *)
Record mutation_arg : Type := {
  mutation_id : string;
  mutation_type : string;
  description : option string
}.

Definition new_manager (repoPath : string) : manager :=
  {| repoPath := repoPath; worktrees := ∅;
     worktreeDir := repoPath +:+ "/.gaia-worktrees";
     maxWorktrees := 10; log := [] |}.

Definition with_log (lg : list call) (m : manager) : manager :=
  {| repoPath := repoPath m; worktrees := worktrees m;
     worktreeDir := worktreeDir m; maxWorktrees := maxWorktrees m; log := lg |}.

Definition with_worktrees (ws : gmap string worktree) (m : manager) : manager :=
  {| repoPath := repoPath m; worktrees := ws;
     worktreeDir := worktreeDir m; maxWorktrees := maxWorktrees m; log := log m |}.

(** [createEvolutionWorktree(evolutionId, baseBranch, godName)] at time
    [now]. *)
Definition createEvolutionWorktree (w : world) (now : Z) (m : manager)
    (evolutionId baseBranch godName : string) : result worktree * manager :=
  if (maxWorktrees m <=? size (worktrees m))%nat then
    (Throw (MaximumWorktreesReached (maxWorktrees m)), m)
  else
    let worktreeId := "evolution_" +:+ evolutionId +:+ "_" +:+ pretty now in
    let branchName := "evolution/" +:+ evolutionId in
    let worktreePath := worktreeDir m +:+ "/" +:+ worktreeId in
    match run w [invokeGod godName ("Creating evolution worktree: " +:+ worktreeId);
                 checkoutLocalBranch branchName;
                 checkout baseBranch;
                 worktreeAdd worktreePath branchName] (log m) with
    | (Some failed, lg) => (Throw (CallFailed failed), with_log lg m)
    | (None, lg) =>
        let worktree :=
          {| id := worktreeId; evolutionId := evolutionId; path := worktreePath;
             branchName := branchName; baseBranch := baseBranch; god := godName;
             created := now; wt_status := active; commits := []; mutations := 0;
             fitness := 0; mergedAt := None; mergedTo := None; error := None;
             cleanedAt := None |} in
        (Ok worktree,
         with_worktrees (<[worktreeId := worktree]> (worktrees m)) (with_log lg m))
    end.

(** The table [godBonuses]; a god that is not listed gets 10. *)
Definition godBonuses (god : string) : option Q :=
  if String.eqb god "Brahma" then Some 20%Q
  else if String.eqb god "Vishnu" then Some 15%Q
  else if String.eqb god "Shiva" then Some 25%Q
  else if String.eqb god "Saraswati" then Some 18%Q
  else if String.eqb god "Lakshmi" then Some 12%Q
  else if String.eqb god "Kali" then Some 22%Q
  else if String.eqb god "Durga" then Some 16%Q
  else None.

(** [calculateWorktreeFitness(worktree)] at time [now]; [stats] is the
    file count found by [getWorktreeStats], [None] when reading the
    worktree failed (the count is then 0). *)
Definition calculateWorktreeFitness (now : Z) (stats : option nat)
    (wt : worktree) : Q :=
  let fitness := 0%Q in
  let fitness := (fitness + inject_Z (Z.of_nat (length (commits wt))) * 10)%Q in
  let fitness := (fitness + inject_Z (Z.of_nat (mutations wt)) * 5)%Q in
  let fitness := (fitness + default 10%Q (godBonuses (god wt)))%Q in
  let ageInHours := (inject_Z (now - created wt) / inject_Z (1000 * 60 * 60))%Q in
  let timeFactor := Qmax (1 # 2) (1 - ageInHours / 24)%Q in
  let fitness := (fitness * timeFactor)%Q in
  let fileCount := default 0%nat stats in
  let fitness := (fitness + inject_Z (Z.of_nat fileCount) * 2)%Q in
  Qmax 0 (Qmin 100 fitness).

Definition after_commit (entry : commit_entry) (f : Q) (wt : worktree) : worktree :=
  {| id := id wt; evolutionId := evolutionId wt; path := path wt;
     branchName := branchName wt; baseBranch := baseBranch wt; god := god wt;
     created := created wt; wt_status := wt_status wt;
     commits := commits wt ++ [entry]; mutations := S (mutations wt);
     fitness := f; mergedAt := mergedAt wt; mergedTo := mergedTo wt;
     error := error wt; cleanedAt := cleanedAt wt |}.

(** [applyMutation(worktreeId, mutation, commitMessage)] *)
Definition applyMutation (w : world) (now : Z) (stats : option nat) (m : manager)
    (worktreeId : string) (mutation : mutation_arg) (commitMessage : string)
    : result worktree * manager :=
  match worktrees m !! worktreeId with
  | None => (Throw (WorktreeNotFound worktreeId), m)
  | Some wt =>
      let full_message :=
        commitMessage +:+ "\n\nMutation: " +:+ mutation_id mutation
                      +:+ "\nGod: " +:+ god wt in
      match run w [writeMutationFile
                     (path wt +:+ "/.gaia-mutations/" +:+ mutation_id mutation +:+ ".json");
                   gitAdd (path wt);
                   gitCommit (path wt) full_message] (log m) with
      | (Some failed, lg) => (Throw (CallFailed failed), with_log lg m)
      | (None, lg) =>
          let entry :=
            {| hash := commit_hash w lg; message := commitMessage;
               mutation := mutation_id mutation; timestamp := now |} in
          let pushed := after_commit entry (fitness wt) wt in
          let wt' := after_commit entry (calculateWorktreeFitness now stats pushed) wt in
          (Ok wt', with_worktrees (<[worktreeId := wt']> (worktrees m)) (with_log lg m))
      end
  end.

Definition with_status (s : status) (at_ : option Z) (to : option string)
    (err : option call) (wt : worktree) : worktree :=
  {| id := id wt; evolutionId := evolutionId wt; path := path wt;
     branchName := branchName wt; baseBranch := baseBranch wt; god := god wt;
     created := created wt; wt_status := s; commits := commits wt;
     mutations := mutations wt; fitness := fitness wt;
     mergedAt := at_; mergedTo := to; error := err; cleanedAt := cleanedAt wt |}.

(** [mergeEvolution(worktreeId, targetBranch, fitnessThreshold)] *)
Definition mergeEvolution (w : world) (now : Z) (m : manager)
    (worktreeId targetBranch : string) (fitnessThreshold : Q)
    : result bool * manager :=
  match worktrees m !! worktreeId with
  | None => (Throw (WorktreeNotFound worktreeId), m)
  | Some wt =>
      if Qltb (fitness wt) fitnessThreshold then (Ok false, m)
      else
        match run w [checkout targetBranch;
                     mergeFromTo (branchName wt) targetBranch] (log m) with
        | (None, lg) =>
            let wt' := with_status merged (Some now) (Some targetBranch) (error wt) wt in
            (Ok true, with_worktrees (<[worktreeId := wt']> (worktrees m)) (with_log lg m))
        | (Some failed, lg) =>
            let wt' :=
              with_status merge_failed (mergedAt wt) (mergedTo wt) (Some failed) wt in
            (Throw (CallFailed failed),
             with_worktrees (<[worktreeId := wt']> (worktrees m)) (with_log lg m))
        end
  end.

(** [cleanupWorktree(worktreeId)]; a failure to delete the branch is
    caught and logged.  The worktree object is marked [cleaned] and
    leaves the registry. *)
Definition cleanupWorktree (w : world) (now : Z) (m : manager)
    (worktreeId : string) : result unit * manager :=
  match worktrees m !! worktreeId with
  | None => (Throw (WorktreeNotFound worktreeId), m)
  | Some wt =>
      let remove := worktreeRemove (path wt) in
      if succeeds w (log m) remove then
        let lg := log m ++ [remove] in
        let lg := lg ++ [deleteLocalBranch (branchName wt) true] in
        (Ok tt, with_worktrees (delete worktreeId (worktrees m)) (with_log lg m))
      else (Throw (CallFailed remove), with_log (log m ++ [remove]) m)
  end.

(** [getWorktreesStatus().active] *)
Definition active_count (m : manager) : nat :=
  size (filter (fun kv => wt_status (snd kv) = active) (worktrees m)).

(** [getWorktree(worktreeId)] *)
Definition getWorktree (m : manager) (worktreeId : string) : option worktree :=
  worktrees m !! worktreeId.

(** *** Walking the registry

    [Array.from(this.worktrees.values())] lists the tracked worktrees in
    the order in which they were registered.  The registry of the model
    does not keep that order: the functions that walk it take the
    listing, [values]. *)

(** The filter of [pruneLowFitnessWorktrees]. *)
Definition low_fitness (fitnessThreshold : Q) (wt : worktree) : bool :=
  bool_decide (wt_status wt = active) && Qltb (fitness wt) fitnessThreshold.

(** One turn of its loop: a failed cleanup is caught and logged. *)
Definition prune_step (w : world) (now : Z) (m : manager) (wt : worktree)
    : manager :=
  snd (cleanupWorktree w now m (id wt)).

(** [pruneLowFitnessWorktrees(fitnessThreshold)] *)
Definition pruneLowFitnessWorktrees (w : world) (now : Z) (values : list worktree)
    (m : manager) (fitnessThreshold : Q) : nat * manager :=
  let lowFitnessWorktrees := List.filter (low_fitness fitnessThreshold) values in
  (length lowFitnessWorktrees, fold_left (prune_step w now) lowFitnessWorktrees m).

(** The answer of [getWorktreesStatus()]. *)
Record worktrees_status : Type := {
  status_total : nat;
  status_active : nat;
  status_merged : nat;
  status_failed : nat;
  status_averageFitness : Q;
  status_totalMutations : nat;
  status_totalCommits : nat
}.

Definition with_status_count (s : status) (values : list worktree) : nat :=
  length (List.filter (fun wt => bool_decide (wt_status wt = s)) values).

(** [getWorktreesStatus()] *)
Definition getWorktreesStatus (values : list worktree) : worktrees_status :=
  {| status_total := length values;
     status_active := with_status_count active values;
     status_merged := with_status_count merged values;
     status_failed := with_status_count merge_failed values;
     status_averageFitness :=
       if (0 <? length values)%nat
       then (fold_left (fun sum wt => sum + fitness wt) values 0
             / inject_Z (Z.of_nat (length values)))%Q
       else 0%Q;
     status_totalMutations :=
       fold_left (fun sum wt => sum + mutations wt)%nat values 0%nat;
     status_totalCommits :=
       fold_left (fun sum wt => sum + length (commits wt))%nat values 0%nat |}.

End WorktreeManager.

(** ** MutationBrancher.js *)

Module MutationBrancher.
Import External.

Inductive status : Type := active | merged | merge_failed | abandoned | error.

#[export] Instance status_eq_dec : EqDecision status.
Proof. solve_decision. Defined.

Record commit_entry : Type := {
  hash : string;
  message : string;
  timestamp : Z;
  commit_changes : nat
}.

(** [realm] is [divineGuidance?.realm]; [realmBalance] is
    [metadata.realmBalance], read from the tree coordinator at creation. *)
Record mutation : Type := {
  id : string;
  type : string;
  branchName : string;
  baseBranch : string;
  god : string;
  created : Z;
  mut_status : status;
  commits : list commit_entry;
  changes : list string;
  fitness : Q;
  realm : option string;
  realmBalance : Q;
  lastModified : option Z;
  mergedAt : option Z;
  mergedTo : option string;
  abandonedAt : option Z;
  abandonReason : option string;
  mut_error : option call
}.

(** [branchHistory] holds references to the objects of
    [mutationBranches], which never loses an entry: a reference is the
    key of the object. *)
Record brancher : Type := {
  mutationBranches : gmap string mutation;
  branchHistory : list string;
  activeMutations : gset string;
  maxConcurrentMutations : nat;
  log : list call
}.

Definition new_brancher : brancher :=
  {| mutationBranches := ∅; branchHistory := []; activeMutations := ∅;
     maxConcurrentMutations := 8; log := [] |}.

Definition with_log (lg : list call) (b : brancher) : brancher :=
  {| mutationBranches := mutationBranches b; branchHistory := branchHistory b;
     activeMutations := activeMutations b;
     maxConcurrentMutations := maxConcurrentMutations b; log := lg |}.

Definition with_mutation (mutationId : string) (mu : mutation) (b : brancher)
    : brancher :=
  {| mutationBranches := <[mutationId := mu]> (mutationBranches b);
     branchHistory := branchHistory b; activeMutations := activeMutations b;
     maxConcurrentMutations := maxConcurrentMutations b; log := log b |}.

(** [activeMutations.delete(id); branchHistory.push(mutation)] *)
Definition retire (mutationId : string) (b : brancher) : brancher :=
  {| mutationBranches := mutationBranches b;
     branchHistory := branchHistory b ++ [mutationId];
     activeMutations := activeMutations b ∖ {[mutationId]};
     maxConcurrentMutations := maxConcurrentMutations b; log := log b |}.

Definition selectGodForMutation (mutationType : string) : string :=
  if String.eqb mutationType "refactor" then "modi"
  else if String.eqb mutationType "optimize" then "freyr"
  else if String.eqb mutationType "debug" then "thor"
  else if String.eqb mutationType "security" then "heimdall"
  else if String.eqb mutationType "cleanup" then "vidar"
  else if String.eqb mutationType "ui" then "baldr"
  else if String.eqb mutationType "docs" then "bragi"
  else if String.eqb mutationType "breaking" then "shiva"
  else if String.eqb mutationType "removal" then "kali"
  else if String.eqb mutationType "deprecate" then "yama"
  else if String.eqb mutationType "legacy" then "jyestha"
  else if String.eqb mutationType "architecture" then "odin"
  else if String.eqb mutationType "performance" then "thor"
  else if String.eqb mutationType "testing" then "thor"
  else if String.eqb mutationType "api" then "hermes"
  else if String.eqb mutationType "evolution" then "brahma"
  else "odin".

(** [createMutationBranch(mutationType, baseBranch, godName)]; [random]
    is the hexadecimal suffix drawn for the id, [guidance_realm] and
    [balance] are what the god and the tree coordinator answer. *)
Definition createMutationBranch (w : world) (now : Z) (random : string)
    (guidance_realm : option string) (balance : Q) (b : brancher)
    (mutationType baseBranch : string) (godName : option string)
    : result mutation * brancher :=
  if (maxConcurrentMutations b <=? size (activeMutations b))%nat then
    (Throw (MaximumConcurrentMutationsReached (maxConcurrentMutations b)), b)
  else
    let mutationId := mutationType +:+ "_" +:+ pretty now +:+ "_" +:+ random in
    let branchName := "mutation/" +:+ mutationType +:+ "/" +:+ mutationId in
    let godName :=
      match godName with
      | Some g => if String.eqb g "" then selectGodForMutation mutationType else g
      | None => selectGodForMutation mutationType
      end in
    match run w [invokeGod godName
                   ("Creating mutation branch for " +:+ mutationType +:+ ": " +:+ mutationId);
                 checkout baseBranch;
                 checkoutLocalBranch branchName] (log b) with
    | (Some failed, lg) => (Throw (CallFailed failed), with_log lg b)
    | (None, lg) =>
        let mu :=
          {| id := mutationId; type := mutationType; branchName := branchName;
             baseBranch := baseBranch; god := godName; created := now;
             mut_status := active; commits := []; changes := []; fitness := 0;
             realm := guidance_realm; realmBalance := balance;
             lastModified := None; mergedAt := None; mergedTo := None;
             abandonedAt := None; abandonReason := None; mut_error := None |} in
        (Ok mu,
         {| mutationBranches := <[mutationId := mu]> (mutationBranches b);
            branchHistory := branchHistory b;
            activeMutations := {[mutationId]} ∪ activeMutations b;
            maxConcurrentMutations := maxConcurrentMutations b; log := lg |})
    end.

Definition godFitnessMap (god : string) : option Q :=
  if String.eqb god "odin" then Some 25%Q
  else if String.eqb god "thor" then Some 20%Q
  else if String.eqb god "freyr" then Some 18%Q
  else if String.eqb god "baldr" then Some 15%Q
  else if String.eqb god "heimdall" then Some 22%Q
  else if String.eqb god "bragi" then Some 12%Q
  else if String.eqb god "modi" then Some 20%Q
  else if String.eqb god "vidar" then Some 16%Q
  else if String.eqb god "shiva" then Some 30%Q
  else if String.eqb god "kali" then Some 25%Q
  else if String.eqb god "durga" then Some 20%Q
  else if String.eqb god "yama" then Some 18%Q
  else if String.eqb god "mahakala" then Some 22%Q
  else if String.eqb god "bhairava" then Some 24%Q
  else if String.eqb god "jyestha" then Some 16%Q
  else if String.eqb god "mara" then Some 14%Q
  else None.

Definition typeBonuses (mutationType : string) : option Q :=
  if String.eqb mutationType "breaking" then Some (15 # 10)
  else if String.eqb mutationType "security" then Some (14 # 10)
  else if String.eqb mutationType "performance" then Some (13 # 10)
  else if String.eqb mutationType "refactor" then Some (12 # 10)
  else if String.eqb mutationType "cleanup" then Some (11 # 10)
  else if String.eqb mutationType "docs" then Some 1%Q
  else if String.eqb mutationType "ui" then Some (11 # 10)
  else None.

(** [calculateMutationFitness(mutation)] at time [now] *)
Definition calculateMutationFitness (now : Z) (mu : mutation) : Q :=
  let fitness := 0%Q in
  let fitness := (fitness + inject_Z (Z.of_nat (length (commits mu))) * 15)%Q in
  let fitness := (fitness + inject_Z (Z.of_nat (length (changes mu))) * 5)%Q in
  let fitness := (fitness + default 10%Q (godFitnessMap (god mu)))%Q in
  let fitness := (fitness * default 1%Q (typeBonuses (type mu)))%Q in
  let balance := realmBalance mu in
  let balanceFactor := (1 + Qabs balance / 200)%Q in
  let fitness := (fitness * balanceFactor)%Q in
  let ageInHours := (inject_Z (now - created mu) / inject_Z (1000 * 60 * 60))%Q in
  let timeFactor := Qmax (7 # 10) (1 - ageInHours / 48)%Q in
  let fitness := (fitness * timeFactor)%Q in
  Qmax 0 (Qmin 100 fitness).

Definition set_status (s : status) (err : option call) (mu : mutation) : mutation :=
  {| id := id mu; type := type mu; branchName := branchName mu;
     baseBranch := baseBranch mu; god := god mu; created := created mu;
     mut_status := s; commits := commits mu; changes := changes mu;
     fitness := fitness mu; realm := realm mu; realmBalance := realmBalance mu;
     lastModified := lastModified mu; mergedAt := mergedAt mu;
     mergedTo := mergedTo mu; abandonedAt := abandonedAt mu;
     abandonReason := abandonReason mu; mut_error := err |}.

Definition after_commit (entry : commit_entry) (new_changes : list string)
    (now : Z) (f : Q) (mu : mutation) : mutation :=
  {| id := id mu; type := type mu; branchName := branchName mu;
     baseBranch := baseBranch mu; god := god mu; created := created mu;
     mut_status := mut_status mu; commits := commits mu ++ [entry];
     changes := changes mu ++ new_changes;
     fitness := f; realm := realm mu; realmBalance := realmBalance mu;
     lastModified := Some now; mergedAt := mergedAt mu;
     mergedTo := mergedTo mu; abandonedAt := abandonedAt mu;
     abandonReason := abandonReason mu; mut_error := mut_error mu |}.

(** [applyMutationChanges(mutationId, changes, commitMessage)]; the
    commit is made with the message decorated by the brancher, of which
    only [commitMessage] is kept here. *)
Definition applyMutationChanges (w : world) (now : Z) (b : brancher)
    (mutationId : string) (new_changes : list string) (commitMessage : string)
    : result mutation * brancher :=
  match mutationBranches b !! mutationId with
  | None => (Throw (MutationNotFound mutationId), b)
  | Some mu =>
      if decide (mut_status mu = active) then
        match run w [checkout (branchName mu); gitAdd "."; gitCommit "." commitMessage]
                (log b) with
        | (None, lg) =>
            let entry :=
              {| hash := commit_hash w lg; message := commitMessage;
                 timestamp := now; commit_changes := length new_changes |} in
            let pushed := after_commit entry new_changes now (fitness mu) mu in
            let mu' :=
              after_commit entry new_changes now
                (calculateMutationFitness now pushed) mu in
            (Ok mu', with_mutation mutationId mu' (with_log lg b))
        | (Some failed, lg) =>
            (Throw (CallFailed failed),
             with_mutation mutationId (set_status error (Some failed) mu) (with_log lg b))
        end
      else (Throw (MutationNotActive mutationId), b)
  end.

Definition set_merged (now : Z) (targetBranch : string) (mu : mutation) : mutation :=
  {| id := id mu; type := type mu; branchName := branchName mu;
     baseBranch := baseBranch mu; god := god mu; created := created mu;
     mut_status := merged; commits := commits mu; changes := changes mu;
     fitness := fitness mu; realm := realm mu; realmBalance := realmBalance mu;
     lastModified := lastModified mu; mergedAt := Some now;
     mergedTo := Some targetBranch; abandonedAt := abandonedAt mu;
     abandonReason := abandonReason mu; mut_error := mut_error mu |}.

(** [mergeMutation(mutationId, targetBranch, fitnessThreshold)] *)
Definition mergeMutation (w : world) (now : Z) (b : brancher)
    (mutationId targetBranch : string) (fitnessThreshold : Q)
    : result bool * brancher :=
  match mutationBranches b !! mutationId with
  | None => (Throw (MutationNotFound mutationId), b)
  | Some mu =>
      if Qltb (fitness mu) fitnessThreshold then (Ok false, b)
      else
        match run w [checkout targetBranch;
                     mergeFromTo (branchName mu) targetBranch] (log b) with
        | (None, lg) =>
            let mu' := set_merged now targetBranch mu in
            let b' := retire mutationId (with_mutation mutationId mu' (with_log lg b)) in
            let balance :=
              balanceForces
                (if decide (realm mu = Some "light") then 10 else 0)
                (if decide (realm mu = Some "shadow") then 10 else 0) in
            if succeeds w lg balance then (Ok true, with_log (lg ++ [balance]) b')
            else
              (Throw (CallFailed balance),
               with_mutation mutationId (set_status merge_failed (Some balance) mu')
                 (with_log (lg ++ [balance]) b'))
        | (Some failed, lg) =>
            (Throw (CallFailed failed),
             with_mutation mutationId (set_status merge_failed (Some failed) mu) (with_log lg b))
        end
  end.

Definition set_abandoned (now : Z) (reason : string) (mu : mutation) : mutation :=
  {| id := id mu; type := type mu; branchName := branchName mu;
     baseBranch := baseBranch mu; god := god mu; created := created mu;
     mut_status := abandoned; commits := commits mu; changes := changes mu;
     fitness := fitness mu; realm := realm mu; realmBalance := realmBalance mu;
     lastModified := lastModified mu; mergedAt := mergedAt mu;
     mergedTo := mergedTo mu; abandonedAt := Some now;
     abandonReason := Some reason; mut_error := mut_error mu |}.

(** [abandonMutation(mutationId, reason)] *)
Definition abandonMutation (w : world) (now : Z) (b : brancher)
    (mutationId reason : string) : result unit * brancher :=
  match mutationBranches b !! mutationId with
  | None => (Throw (MutationNotFound mutationId), b)
  | Some mu =>
      match run w [checkout (baseBranch mu);
                   deleteLocalBranch (branchName mu) true] (log b) with
      | (None, lg) =>
          (Ok tt,
           retire mutationId
             (with_mutation mutationId (set_abandoned now reason mu) (with_log lg b)))
      | (Some failed, lg) => (Throw (CallFailed failed), with_log lg b)
      end
  end.

(** *** Walking the registry

    [Array.from(this.mutationBranches.values())] lists the mutations in
    the order in which they were created; the functions that walk the
    registry take that listing, [values]. *)

(** The filter of [pruneLowFitnessMutations]. *)
Definition low_fitness (fitnessThreshold : Q) (mu : mutation) : bool :=
  bool_decide (mut_status mu = active) && Qltb (fitness mu) fitnessThreshold.

(** One turn of its loop; [toFixed] renders the fitness with two
    decimals. *)
Definition prune_step (w : world) (now : Z) (toFixed : Q -> string)
    (acc : nat * brancher) (mu : mutation) : nat * brancher :=
  let '(prunedCount, b) := acc in
  match abandonMutation w now b (id mu) ("Low fitness: " +:+ toFixed (fitness mu)) with
  | (Ok _, b') => (S prunedCount, b')
  | (Throw _, b') => (prunedCount, b')
  end.


(** [getGodDistribution(mutations)], for gods whose name is not a
    property of [Object.prototype]. *)
Definition getGodDistribution (mutations : list mutation) : gmap string nat :=
  fold_left
    (fun distribution m =>
       <[god m := (default 0 (distribution !! god m) + 1)%nat]> distribution)
    mutations ∅.




End MutationBrancher.

(** ** NeuralEvolutionEngine.js: crossover *)

Module NeuralEvolutionEngine.

Definition rng : Type := nat -> Q.

(** Computations that draw from [Math.random]. *)
Definition Rand (A : Type) : Type := rng -> nat -> A * nat.

Definition ret {A} (a : A) : Rand A := fun _ n => (a, n).
Definition bind {A B} (c : Rand A) (k : A -> Rand B) : Rand B :=
  fun random n => let '(a, n') := c random n in k a random n'.
Definition draw : Rand Q := fun random n => (random n, S n).

Notation "x <- c1 ;; c2" := (bind c1 (fun x => c2))
  (at level 100, c1 at next level, right associativity).

Record layer : Type := {
  neurons : num;
  activation : string;
  dropout : num
}.

(** [{...undefined}]: an object without fields. *)
Definition no_layer : layer :=
  {| neurons := NaN; activation := ""; dropout := NaN |}.

Record metrics : Type := {
  accuracy : num;
  speed : num;
  complexity : num;
  divineAlignment : num
}.

(** What [invokeGod] resolved to: [energy] is [blessing?.god?.energy]. *)
Record blessing : Type := { energy : option num }.

Record network : Type := {
  id : string;
  inputSize : nat;
  outputSize : nat;
  hiddenLayers : list layer;
  learningRate : num;
  optimizer : string;
  created : Z;
  generation : nat;
  fitness : num;
  net_metrics : metrics;
  divineBlessing : option blessing
}.

Record engine : Type := {
  generationCount : nat;
  crossoverRate : Q
}.

Definition new_engine : engine :=
  {| generationCount := 0; crossoverRate := 7 # 10 |}.

(** [randomChoice(array)]: [array[Math.floor(Math.random() * array.length)]] *)
Definition randomChoice {A} (array : list A) (undefined : A) : Rand A :=
  r <- draw ;;
  ret (nth (Z.to_nat (Qfloor (r * inject_Z (Z.of_nat (length array))))) array undefined).

Definition space_hiddenLayers : list nat := [1; 2; 3; 4; 5]%nat.
Definition space_neuronsPerLayer : list num :=
  [Fin 8; Fin 16; Fin 32; Fin 64; Fin 128].
Definition space_activationFunctions : list string :=
  ["relu"; "tanh"; "sigmoid"; "leakyRelu"].
Definition space_learningRates : list num :=
  [Fin (1 # 1000); Fin (1 # 100); Fin (1 # 10); Fin (2 # 10)].
Definition space_dropoutRates : list num :=
  [Fin 0; Fin (1 # 10); Fin (2 # 10); Fin (3 # 10); Fin (5 # 10)].

Definition random_layer : Rand layer :=
  n <- randomChoice space_neuronsPerLayer NaN ;;
  a <- randomChoice space_activationFunctions "" ;;
  d <- randomChoice space_dropoutRates NaN ;;
  ret {| neurons := n; activation := a; dropout := d |}.

Fixpoint random_layers (numLayers : nat) : Rand (list layer) :=
  match numLayers with
  | O => ret []
  | S k =>
      l <- random_layer ;;
      ls <- random_layers k ;;
      ret (l :: ls)
  end.

(** [calculateComplexity(layers)] *)
Definition calculateComplexity (layers : list layer) : num :=
  div (fold_left (fun total l => add total (neurons l)) layers (Fin 0)) (Fin 100).

(** [generateRandomArchitecture()]; [networkId] is the fresh id made by
    [generateNetworkId]. *)
Definition generateRandomArchitecture (e : engine) (now : Z) (networkId : string)
    : Rand network :=
  numLayers <- randomChoice space_hiddenLayers 0%nat ;;
  layers <- random_layers numLayers ;;
  lr <- randomChoice space_learningRates NaN ;;
  ret {| id := networkId; inputSize := 32; outputSize := 8;
         hiddenLayers := layers; learningRate := lr; optimizer := "adam";
         created := now; generation := generationCount e; fitness := Fin 0;
         net_metrics := {| accuracy := Fin 0; speed := Fin 0;
                           complexity := calculateComplexity layers;
                           divineAlignment := Fin 0 |};
         divineBlessing := None |}.

Definition activationBonus (a : string) : num :=
  if String.eqb a "relu" then Fin 15
  else if String.eqb a "tanh" then Fin 10
  else if String.eqb a "sigmoid" then Fin 8
  else if String.eqb a "leakyRelu" then Fin 12
  else Fin 5.

(** [calculateDivineAlignment(network, blessing)] *)
Definition calculateDivineAlignment (layers : list layer) (lr : num)
    (b : blessing) : num :=
  let alignment := Fin 0 in
  let base := match energy b with
              | Some v => if truthy v then v else Fin 50
              | None => Fin 50
              end in
  let alignment := add alignment base in
  let layerCount := length layers in
  let alignment := if (3 <=? layerCount)%nat then add alignment (Fin 20) else alignment in
  let alignment := if (layerCount <=? 2)%nat then add alignment (Fin 10) else alignment in
  let alignment := if eqb lr (Fin (1 # 100)) then add alignment (Fin 15) else alignment in
  let alignment :=
    fold_left (fun al l => add al (activationBonus (activation l))) layers alignment in
  min (Fin 100) (div alignment (of_Z (Z.of_nat layerCount))).

Definition with_mix (layers : list layer) (lr : num) (b : blessing) (n : network)
    : network :=
  {| id := id n; inputSize := inputSize n; outputSize := outputSize n;
     hiddenLayers := layers; learningRate := lr; optimizer := optimizer n;
     created := created n; generation := generation n; fitness := fitness n;
     net_metrics :=
       {| accuracy := accuracy (net_metrics n); speed := speed (net_metrics n);
          complexity := complexity (net_metrics n);
          divineAlignment := calculateDivineAlignment layers lr b |};
     divineBlessing := Some b |}.

(** [parent.hiddenLayers[i] || parent.hiddenLayers[0]], then spread *)
Definition layer_at (parent : network) (i : nat) : layer :=
  match nth_error (hiddenLayers parent) i with
  | Some l => l
  | None => nth 0 (hiddenLayers parent) no_layer
  end.

(** The loop over the layer positions: one draw per position decides
    which child gets which parent's layer. *)
Fixpoint mix_layers (parent1 parent2 : network) (positions : list nat)
    (acc : list layer * list layer) : Rand (list layer * list layer) :=
  match positions with
  | [] => ret acc
  | i :: rest =>
      r <- draw ;;
      let layer1 := layer_at parent1 i in
      let layer2 := layer_at parent2 i in
      if Qltb r (1 # 2)
      then mix_layers parent1 parent2 rest (fst acc ++ [layer1], snd acc ++ [layer2])
      else mix_layers parent1 parent2 rest (fst acc ++ [layer2], snd acc ++ [layer1])
  end.

(** [crossover(parent1, parent2)]; [id1], [id2] are the ids generated
    for the children, [blessing1], [blessing2] what [invokeGod] answers
    for them ([None]: the call throws, and so does [crossover]). *)
Definition crossover (e : engine) (now : Z) (id1 id2 : string)
    (blessing1 blessing2 : option blessing) (parent1 parent2 : network)
    : Rand (option (network * network)) :=
  r <- draw ;;
  if Qltb (crossoverRate e) r then ret (Some (parent1, parent2))
  else
    child1 <- generateRandomArchitecture e now id1 ;;
    child2 <- generateRandomArchitecture e now id2 ;;
    let maxLayers :=
      Nat.max (length (hiddenLayers parent1)) (length (hiddenLayers parent2)) in
    layers <- mix_layers parent1 parent2 (seq 0 maxLayers) ([], []) ;;
    r1 <- draw ;;
    let lr1 := if Qltb r1 (1 # 2) then learningRate parent1 else learningRate parent2 in
    r2 <- draw ;;
    let lr2 := if Qltb r2 (1 # 2) then learningRate parent2 else learningRate parent1 in
    match blessing1, blessing2 with
    | Some b1, Some b2 =>
        ret (Some (with_mix (fst layers) lr1 b1 child1,
                   with_mix (snd layers) lr2 b2 child2))
    | _, _ => ret None
    end.

(** What [calculatePopulationDiversity] serialises of a network: the
    number of hidden layers, their neurons and their activations. *)
Definition architecture (n : network) : nat * list num * list string :=
  (length (hiddenLayers n), neurons <$> hiddenLayers n,
   activation <$> hiddenLayers n).

(** [calculatePopulationDiversity(population)]; [stringify] is
    [JSON.stringify] on the serialised architectures. *)
Definition calculatePopulationDiversity
    (stringify : nat * list num * list string -> string)
    (population : list network) : num :=
  let architectures := (fun n => stringify (architecture n)) <$> population in
  let uniqueArchitectures : gset string := list_to_set architectures in
  div (of_Z (Z.of_nat (size uniqueArchitectures)))
      (of_Z (Z.of_nat (length population))).

(** [hasConverged(population)] *)
Definition hasConverged (stringify : nat * list num * list string -> string)
    (population : list network) : bool :=
  let diversity := calculatePopulationDiversity stringify population in
  ltb diversity (Fin (1 # 10)).

(** One turn of the loop of [getBestNetwork]. *)
Definition better (best : option network * num) (candidate : network)
    : option network * num :=
  if gtb (fitness candidate) (snd best) then (Some candidate, fitness candidate)
  else best.

(** [getBestNetwork()]; [values] lists [this.neuralNetworks.values()],
    in the order of insertion. *)
Definition getBestNetwork (values : list network) : option network :=
  fst (fold_left better values (None, Fin (-1))).

End NeuralEvolutionEngine.

(** ** EvolutionBirther.js: the birth of a lineage *)

Module EvolutionBirther.
Import External.

(** The errors thrown by the birther, by message; [DualGodsFailed] is
    whatever [treeCoordinator.invokeDualGods] throws. *)
Inductive birther_error : Type :=
| MaximumActiveLineagesReached (max : nat)
| LineageNotFound (lineageId : string)
| DualGodsFailed.

Inductive outcome (A : Type) : Type :=
| Returns (a : A)
| Throws (e : birther_error).
Arguments Returns {A} a.
Arguments Throws {A} e.

(** A god pair; [None] is a field that is [undefined]. *)
Record god_pair : Type := {
  light : option string;
  shadow : option string
}.

Definition pair_of (l s : string) : god_pair :=
  {| light := Some l; shadow := Some s |}.

(** [selectOptimalGodPair(species)], for a species whose name is not a
    property of [Object.prototype]. *)
Definition selectOptimalGodPair (species : string) : god_pair :=
  if String.eqb species "performance" then pair_of "thor" "mahakala"
  else if String.eqb species "security" then pair_of "heimdall" "durga"
  else if String.eqb species "architecture" then pair_of "odin" "avidya"
  else if String.eqb species "optimization" then pair_of "freyr" "kali"
  else if String.eqb species "transformation" then pair_of "modi" "shiva"
  else if String.eqb species "beauty" then pair_of "baldr" "nirrti"
  else if String.eqb species "testing" then pair_of "thor" "mara"
  else if String.eqb species "documentation" then pair_of "bragi" "yama"
  else if String.eqb species "hybrid" then pair_of "odin" "shiva"
  else if String.eqb species "experimental" then pair_of "vili" "tamas"
  else pair_of "odin" "shiva".

(** [selectMutationTypes(species)], with the same proviso. *)
Definition selectMutationTypes (species : string) : list string :=
  if String.eqb species "performance" then ["optimize"; "refactor"; "cleanup"]
  else if String.eqb species "security" then ["security"; "testing"; "validation"]
  else if String.eqb species "architecture" then ["refactor"; "architecture"; "docs"]
  else if String.eqb species "optimization" then ["optimize"; "performance"; "cleanup"]
  else if String.eqb species "transformation" then ["breaking"; "refactor"; "architecture"]
  else if String.eqb species "beauty" then ["ui"; "docs"; "cleanup"]
  else if String.eqb species "testing" then ["testing"; "debug"; "validation"]
  else if String.eqb species "documentation" then ["docs"; "cleanup"; "refactor"]
  else if String.eqb species "hybrid" then ["optimize"; "refactor"; "testing"]
  else if String.eqb species "experimental" then ["breaking"; "experimental"; "optimize"]
  else ["optimize"; "refactor"; "testing"].

Inductive lineage_status : Type :=
  birthing | lineage_active | birth_failed | terminated.

Inductive generation_status : Type :=
  generation_active | generation_failed | evolution_failed.

(** A birth record; of the blessing the model keeps that there is one. *)
Record lineage : Type := {
  id : string;
  species : string;
  parentLineage : string;
  lightGod : option string;
  shadowGod : option string;
  birthed : Z;
  status : lineage_status;
  lineage_generations : list string;
  totalFitness : Q;
  activeWorktrees : nat;
  activeMutations : nat;
  divineBlessing : bool
}.

Record generation : Type := {
  generation_id : string;
  lineageId : string;
  number : nat;
  type : string;
  created : Z;
  generation_state : generation_status;
  mutations : list string;
  worktrees : list string;
  fitness : Q;
  parentGeneration : option string
}.

(** [birthHistory] is only pushed to by the functions below: it is kept
    as the list of the records pushed. *)
Record birther : Type := {
  lineages : gmap string lineage;
  generations : gmap string generation;
  birthHistory : list lineage;
  maxActiveLineages : nat;
  worktreeManager : WorktreeManager.manager;
  mutationBrancher : MutationBrancher.brancher
}.

Definition new_birther (repoPath : string) : birther :=
  {| lineages := ∅; generations := ∅; birthHistory := [];
     maxActiveLineages := 5;
     worktreeManager := WorktreeManager.new_manager repoPath;
     mutationBrancher := MutationBrancher.new_brancher |}.

(** What the environment answers while a generation is created: the
    clock read for the generation id and, for the call of the sub-system
    at each position of the two loops, the clock, the random suffix of
    the mutation id, and the realm and balance that the gods and the
    tree coordinator answer. *)
Record environment : Type := {
  generation_now : Z;
  mutation_now : nat -> Z;
  mutation_suffix : nat -> string;
  mutation_realm : nat -> option string;
  mutation_balance : nat -> Q;
  worktree_now : nat -> Z
}.

(** The loop of [createInitialMutations(generation, lineage)] from
    position [i] on; the fields [lineageId] and [generationId] that it
    adds to the mutations are not kept in the model. *)
Fixpoint initial_mutations (w : world) (x : environment) (lineage : lineage)
    (i : nat) (mutationTypes : list string)
    (acc : list MutationBrancher.mutation * MutationBrancher.brancher)
    : list MutationBrancher.mutation * MutationBrancher.brancher :=
  match mutationTypes with
  | [] => acc
  | mutationType :: rest =>
      let god :=
        if (length (fst acc) mod 2 =? 0)%nat then lightGod lineage
        else shadowGod lineage in
      match MutationBrancher.createMutationBranch w (mutation_now x i)
              (mutation_suffix x i) (mutation_realm x i) (mutation_balance x i)
              (snd acc) mutationType (parentLineage lineage) god with
      | (Ok mutation, brancher) =>
          initial_mutations w x lineage (S i) rest (fst acc ++ [mutation], brancher)
      | (Throw _, brancher) =>
          initial_mutations w x lineage (S i) rest (fst acc, brancher)
      end
  end.

Definition createInitialMutations (w : world) (x : environment)
    (lineage : lineage) (brancher : MutationBrancher.brancher)
    : list MutationBrancher.mutation * MutationBrancher.brancher :=
  initial_mutations w x lineage 0 (selectMutationTypes (species lineage))
    ([], brancher).

(** One turn of the loop of [createGenerationWorktrees]; a god that is
    [undefined] leaves the default of [createEvolutionWorktree]. *)
Definition generation_worktree (w : world) (x : environment)
    (generationId : string) (lineage : lineage)
    (acc : list WorktreeManager.worktree * WorktreeManager.manager) (i : nat)
    : list WorktreeManager.worktree * WorktreeManager.manager :=
  let evolutionId := generationId +:+ "_wt_" +:+ pretty i in
  let god := if (i mod 2 =? 0)%nat then lightGod lineage else shadowGod lineage in
  match WorktreeManager.createEvolutionWorktree w (worktree_now x i) (snd acc)
          evolutionId (parentLineage lineage) (default "Brahma" god) with
  | (Ok worktree, manager) => (fst acc ++ [worktree], manager)
  | (Throw _, manager) => (fst acc, manager)
  end.

(** [createGenerationWorktrees(generation, lineage)] *)
Definition createGenerationWorktrees (w : world) (x : environment)
    (generation : generation) (lineage : lineage)
    (manager : WorktreeManager.manager)
    : list WorktreeManager.worktree * WorktreeManager.manager :=
  let worktreeCount := Nat.min 3 (length (mutations generation)) in
  fold_left (generation_worktree w x (generation_id generation) lineage)
    (seq 0 worktreeCount) ([], manager).

(** [createGeneration(lineageId, generationNumber, generationType)];
    [wb] and [wm] are the environments of the two sub-systems. *)
Definition createGeneration (wb wm : world) (x : environment) (b : birther)
    (lineageId : string) (generationNumber : nat) (generationType : string)
    : outcome generation * birther :=
  match lineages b !! lineageId with
  | None => (Throws (LineageNotFound lineageId), b)
  | Some lineage =>
      let generationId :=
        "gen_" +:+ pretty generationNumber +:+ "_" +:+ lineageId +:+ "_"
               +:+ pretty (generation_now x) in
      let parent :=
        if (0 <? generationNumber)%nat
        then lineage_generations lineage !! (generationNumber - 1)%nat
        else None in
      let initialMutations :=
        createInitialMutations wb x lineage (mutationBrancher b) in
      let generation :=
        {| generation_id := generationId; lineageId := lineageId;
           number := generationNumber; type := generationType;
           created := generation_now x;
           generation_state := generation_active;
           mutations := MutationBrancher.id <$> fst initialMutations;
           worktrees := []; fitness := 0; parentGeneration := parent |} in
      let worktrees :=
        createGenerationWorktrees wm x generation lineage (worktreeManager b) in
      let generation :=
        {| generation_id := generationId; lineageId := lineageId;
           number := generationNumber; type := generationType;
           created := generation_now x;
           generation_state := generation_active;
           mutations := mutations generation;
           worktrees := WorktreeManager.id <$> fst worktrees;
           fitness := 0; parentGeneration := parent |} in
      (Returns generation,
       {| lineages := lineages b;
          generations := <[generationId := generation]> (generations b);
          birthHistory := birthHistory b;
          maxActiveLineages := maxActiveLineages b;
          worktreeManager := snd worktrees;
          mutationBrancher := snd initialMutations |})
  end.

(** [birthNewLineage(parentLineage, godPair, species)] at time [now];
    [random] is the hexadecimal suffix drawn for the id, [dual] tells
    whether [invokeDualGods] answers. *)
Definition birthNewLineage (wb wm : world) (now : Z) (random : string)
    (dual : bool) (x : environment) (b : birther)
    (parentLineage : string) (godPair : option god_pair) (species : string)
    : outcome lineage * birther :=
  if (maxActiveLineages b <=? size (lineages b))%nat then
    (Throws (MaximumActiveLineagesReached (maxActiveLineages b)), b)
  else
    let lineageId := species +:+ "_lineage_" +:+ pretty now +:+ "_" +:+ random in
    let godPair := default (selectOptimalGodPair species) godPair in
    if dual then
      match createGeneration wb wm x b lineageId 0 "genesis" with
      | (Returns firstGeneration, b') =>
          let birthRecord :=
            {| id := lineageId; species := species;
               parentLineage := parentLineage;
               lightGod := light godPair; shadowGod := shadow godPair;
               birthed := now; status := lineage_active;
               lineage_generations := [generation_id firstGeneration];
               totalFitness := 0; activeWorktrees := 0; activeMutations := 0;
               divineBlessing := true |} in
          (Returns birthRecord,
           {| lineages := <[lineageId := birthRecord]> (lineages b');
              generations := generations b';
              birthHistory := birthHistory b' ++ [birthRecord];
              maxActiveLineages := maxActiveLineages b';
              worktreeManager := worktreeManager b';
              mutationBrancher := mutationBrancher b' |})
      | (Throws e, b') => (Throws e, b')
      end
    else (Throws DualGodsFailed, b).

End EvolutionBirther.

Import MultiObjectiveOptimizer External.

(** * Vocabulary of the statements *)

(** ** Dominance *)

(** [s1] is worse than [s2] on objective [o], in the direction of [o]. *)
Definition worse (o : objective) (s1 s2 : solution) : bool :=
  if maximize o
  then ltb (objective_value s1 (obj_id o)) (objective_value s2 (obj_id o))
  else gtb (objective_value s1 (obj_id o)) (objective_value s2 (obj_id o)).

(** Every objective value of [s] is a number. *)
Definition comparable (objs : list objective) (s : solution) : Prop :=
  forall o, o ∈ objs -> objective_value s (obj_id o) <> NaN.

(** ** The heap during a sort *)

Definition cnt (h : gmap loc solution) (l : loc) : Z :=
  dominationCount (evaluation (h !!! l)).

Definition ds (h : gmap loc solution) (l : loc) : list string :=
  dominatedSolutions (evaluation (h !!! l)).

Definition cd (h : gmap loc solution) (l : loc) : num :=
  crowdingDistance (evaluation (h !!! l)).

(** A crowding distance that is a number: [Infinity] or finite. *)
Definition proper (x : num) : Prop := x = PosInf \/ is_finite x.

(** Occurrences of a location in a list. *)
Definition occ (x : loc) (T : list loc) : nat := length (filter (λ y, y = x) T).

(** [p] lists, without repetition, the locations whose counter [c]
    reaches zero while it is decremented once per occurrence in [T]. *)
Definition Pushed (c : loc -> Z) (T p : list loc) : Prop :=
  NoDup p /\ forall x, x ∈ p <-> 0 < c x <= Z.of_nat (occ x T).

(** The id of the object at [l], and dominance between the objects at
    two locations, in the heap [h0] in which a sort starts. *)
Definition ident (h0 : gmap loc solution) (l : loc) : string := id (h0 !!! l).

Definition dominates_at (objs : list objective) (h0 : gmap loc solution)
    (a b : loc) : bool :=
  dominates objs (h0 !!! a) (h0 !!! b).

(** The heap [h] has the objects of [h0], with their ids and objective
    values. *)
Definition static (h0 h : gmap loc solution) : Prop :=
  (forall l, is_Some (h !! l) <-> is_Some (h0 !! l)) /\
  (forall l, id (h !!! l) = ident h0 l /\
     objectives (evaluation (h !!! l)) = objectives (evaluation (h0 !!! l))).

(** The number of members of [P] that dominate [s]. *)
Definition ndom (objs : list objective) (h0 : gmap loc solution) (P : list loc)
    (s : loc) : nat :=
  length (filter (λ o, dominates_at objs h0 o s = true) P).

(** The set of dominated ids of [s] is in place. *)
Definition ds_ok (objs : list objective) (h0 : gmap loc solution) (P : list loc)
    (h : gmap loc solution) (s : loc) : Prop :=
  ds h s = ident h0 <$> filter (λ o, dominates_at objs h0 s o = true) P.

(** Going from [h] to [h'], the counters were decremented once per
    occurrence in [T], and [p] lists those that reached zero. *)
Definition Rel (h0 h h' : gmap loc solution) (T p : list loc) : Prop :=
  static h0 h' /\
  (forall l, ds h' l = ds h l) /\
  (forall l, cnt h' l = cnt h l - Z.of_nat (occ l T)) /\
  Pushed (cnt h) T p.

(** Dominators of [s] that are not yet in a processed front. *)
Definition ndom_out (objs : list objective) (h0 : gmap loc solution)
    (P done : list loc) (s : loc) : nat :=
  length (filter (λ o, dominates_at objs h0 o s = true /\ o ∉ done) P).

(** Invariant of the [while] loop of the sort: [pre] are the fronts
    already processed, [cur] is [fronts[frontIndex]]. *)
Record Inv (objs : list objective) (h0 : gmap loc solution) (P : list loc)
    (pre : list (list loc)) (cur : list loc) (h : gmap loc solution) : Prop := {
  inv_static : static h0 h;
  inv_ds : forall s, s ∈ P -> ds_ok objs h0 P h s;
  inv_nodup : NoDup (concat pre ++ cur);
  inv_sub : concat pre ++ cur ⊆ P;
  inv_cnt : forall s, s ∈ P -> cnt h s = Z.of_nat (ndom_out objs h0 P (concat pre) s);
  inv_mem : forall s, s ∈ P ->
    s ∈ concat pre ++ cur <-> ndom_out objs h0 P (concat pre) s = 0%nat
}.

(** ** Evaluation and crossover *)


(** The blend of two parents, key by key, with the weights drawn from
    position [start] on. *)
Definition blend_all (parent1 parent2 : solution) (random : rng) (start : nat)
    : list (string * num) :=
  imap (fun i key =>
          (key, blend (property parent1 key) (property parent2 key)
                  (Fin (random (start + i)%nat))))
       (allKeys parent1 parent2).

(** ** The registries *)

(** An error of the capacity kind. *)
Definition capacity_error {A} (r : result A) : Prop :=
  exists e, r = Throw e /\ classify e = CapacityExceeded.

(** The closed form of the worktree fitness. *)
Definition policyBonus (god : string) : Q :=
  default 10%Q (WorktreeManager.godBonuses god).
Definition timeDecay (ageInHours : Q) : Q := Qmax (1 # 2) (1 - ageInHours / 24).
Definition hours (ms : Z) : Q := inject_Z ms / inject_Z 3600000.
Definition count (n : nat) : Q := inject_Z (Z.of_nat n).
Definition clamp (lo hi x : Q) : Q := Qmax lo (Qmin hi x).

(** * Example inputs *)

(** A world in which every external call succeeds. *)
Definition calm : world :=
  {| succeeds := fun _ _ => true; commit_hash := fun _ => "c0ffee" |}.

(** Registries reached through the operations themselves. *)
Definition allocate (m : WorktreeManager.manager) (evolutionId : string)
    : WorktreeManager.manager :=
  snd (WorktreeManager.createEvolutionWorktree calm 0 m evolutionId "main" "Brahma").

Definition one_worktree : WorktreeManager.manager :=
  allocate (WorktreeManager.new_manager ".") "e0".

(** The same, with the policy tag Shiva. *)
Definition shiva_worktree : WorktreeManager.manager :=
  snd (WorktreeManager.createEvolutionWorktree calm 0
         (WorktreeManager.new_manager ".") "e0" "main" "Shiva").

Definition ten_worktrees : WorktreeManager.manager :=
  fold_left allocate
    ["e0"; "e1"; "e2"; "e3"; "e4"; "e5"; "e6"; "e7"; "e8"; "e9"]
    (WorktreeManager.new_manager ".").

(** One of the ten has been merged: it is still tracked. *)
Definition nine_active : WorktreeManager.manager :=
  snd (WorktreeManager.mergeEvolution calm 1 ten_worktrees "evolution_e0_0" "main" 0).

Definition a_mutation : WorktreeManager.mutation_arg :=
  {| WorktreeManager.mutation_id := "m1";
     WorktreeManager.mutation_type := "optimize";
     WorktreeManager.description := None |}.

Definition one_mutation : MutationBrancher.brancher :=
  snd (MutationBrancher.createMutationBranch calm 0 "ab" (Some "light") 0
         MutationBrancher.new_brancher "docs" "main" None).

Definition merged_mutation : MutationBrancher.brancher :=
  snd (MutationBrancher.mergeMutation calm 1 one_mutation "docs_0_ab" "main" 0).

Definition constant_objective (i : string) (m : bool) (r : outcome) : objective :=
  {| obj_id := i; maximize := m; evaluationFunction := fun _ _ => r; history := [] |}.

Definition evaluated (i : string) (values : list (string * num)) : solution :=
  {| id := i; properties := None;
     evaluation := {| objectives := list_to_map values; dominationCount := 0;
                      dominatedSolutions := []; rank := 0;
                      crowdingDistance := zero |} |}.

Definition optimizer_of (objs : list objective) (sols : list solution) : optimizer :=
  {| this_objectives := objs; solutions := ∅; paretoFronts := []; generations := 0;
     heap := list_to_map (zip (seq 0 (length sols)) sols) |}.

(** Three solutions on one objective to minimise, with values 1, 2, 3. *)
Definition complexity_only : optimizer :=
  optimizer_of [constant_objective "complexity" false (Resolved zero)]
    [evaluated "a" [("complexity", Fin 1)];
     evaluated "b" [("complexity", Fin 2)];
     evaluated "c" [("complexity", Fin 3)]].

(** Five solutions on performance (to maximise) and complexity (to
    minimise): four that do not dominate one another, and one that the
    others dominate. *)
Definition five_solutions : optimizer :=
  optimizer_of
    [constant_objective "performance" true (Resolved zero);
     constant_objective "complexity" false (Resolved zero)]
    [evaluated "a" [("performance", Fin 3); ("complexity", Fin 3)];
     evaluated "b" [("performance", Fin 2); ("complexity", Fin 2)];
     evaluated "c" [("performance", Fin 1); ("complexity", Fin 1)];
     evaluated "d" [("performance", Fin 5); ("complexity", Fin 5)];
     evaluated "e" [("performance", Fin 0); ("complexity", Fin 5)]].

Definition five_locations : list loc := [0; 1; 2; 3; 4]%nat.


(** Two parents with one property. *)
Definition parent_x (i : string) (x : Q) : solution :=
  {| id := i; properties := Some [("x", Fin x)]; evaluation := blank_evaluation |}.

Definition a_network (i : string) : NeuralEvolutionEngine.network :=
  {| NeuralEvolutionEngine.id := i;
     NeuralEvolutionEngine.inputSize := 32;
     NeuralEvolutionEngine.outputSize := 8;
     NeuralEvolutionEngine.hiddenLayers :=
       [{| NeuralEvolutionEngine.neurons := Fin 8;
           NeuralEvolutionEngine.activation := "relu";
           NeuralEvolutionEngine.dropout := Fin 0 |}];
     NeuralEvolutionEngine.learningRate := Fin (1 # 100);
     NeuralEvolutionEngine.optimizer := "adam";
     NeuralEvolutionEngine.created := 0;
     NeuralEvolutionEngine.generation := 0;
     NeuralEvolutionEngine.fitness := Fin 0;
     NeuralEvolutionEngine.net_metrics :=
       {| NeuralEvolutionEngine.accuracy := Fin 0;
          NeuralEvolutionEngine.speed := Fin 0;
          NeuralEvolutionEngine.complexity := Fin (8 # 100);
          NeuralEvolutionEngine.divineAlignment := Fin 0 |};
     NeuralEvolutionEngine.divineBlessing := None |}.

(** * Further example inputs *)

(** Performance is to maximise, complexity to minimise. *)
Definition two_objectives : list objective :=
  [constant_objective "performance" true (Resolved zero);
   constant_objective "complexity" false (Resolved zero)].

Definition scored (i : string) (performance complexity : Q) : solution :=
  evaluated i [("performance", Fin performance); ("complexity", Fin complexity)].

(** * Further vocabulary *)

(** ** Layers of a sorted population *)

(** The rank stored in the object at [l]. *)
Definition rk (h : gmap loc solution) (l : loc) : nat := rank (evaluation (h !!! l)).

(** In [fronts], every dominator of a member of front [k] sits in an
    earlier front, and a member of a front after the first has a
    dominator in the front just before. *)
Definition layered (objs : list objective) (h0 : gmap loc solution)
    (P : list loc) (fronts : list (list loc)) : Prop :=
  forall k F s, fronts !! k = Some F -> s ∈ F ->
    (forall o, o ∈ P -> dominates_at objs h0 o s = true ->
       o ∈ concat (take k fronts)) /\
    (forall k', k = S k' ->
       exists G o, fronts !! k' = Some G /\ o ∈ G /\ dominates_at objs h0 o s = true).

(** The rank of every member of [fronts] is the index of its front. *)
Definition ranked (h : gmap loc solution) (fronts : list (list loc)) : Prop :=
  forall k F s, fronts !! k = Some F -> s ∈ F -> rk h s = k.

(** ** Sign of a crowding distance *)




(** ** Mutation of a child *)


(** Every draw is [1/4]. *)
Definition quarter : rng := fun _ => 1 # 4.


(** Five solutions that have properties, on the objectives of
    [five_solutions]. *)
Definition with_property (s : solution) (x : Q) : solution :=
  {| id := id s; properties := Some [("x", Fin x)]; evaluation := evaluation s |}.

Definition five_parents : optimizer :=
  optimizer_of two_objectives
    [with_property (scored "a" 3 3) 1; with_property (scored "b" 2 2) 2;
     with_property (scored "c" 1 1) 3; with_property (scored "d" 5 5) 4;
     with_property (scored "e" 0 5) 5].

(** ** Registries built by the operations *)

(** The managers that the constructor and the operations of
    [WorktreeManager] can produce, whatever the environment answers. *)
Inductive manager_reachable : WorktreeManager.manager -> Prop :=
| reach_new_manager repoPath :
    manager_reachable (WorktreeManager.new_manager repoPath)
| reach_createEvolutionWorktree w now m evolutionId baseBranch godName :
    manager_reachable m ->
    manager_reachable
      (snd (WorktreeManager.createEvolutionWorktree w now m evolutionId baseBranch
              godName))
| reach_applyMutation w now stats m worktreeId mutation commitMessage :
    manager_reachable m ->
    manager_reachable
      (snd (WorktreeManager.applyMutation w now stats m worktreeId mutation
              commitMessage))
| reach_mergeEvolution w now m worktreeId targetBranch fitnessThreshold :
    manager_reachable m ->
    manager_reachable
      (snd (WorktreeManager.mergeEvolution w now m worktreeId targetBranch
              fitnessThreshold))
| reach_cleanupWorktree w now m worktreeId :
    manager_reachable m ->
    manager_reachable (snd (WorktreeManager.cleanupWorktree w now m worktreeId)).

(** [values] lists the tracked worktrees, in some order. *)
Definition lists_worktrees (m : WorktreeManager.manager)
    (values : list WorktreeManager.worktree) : Prop :=
  values ≡ₚ (map_to_list (WorktreeManager.worktrees m)).*2.

(** What holds of a worktree tracked under the key [k]. *)
Definition worktree_ok (k : string) (wt : WorktreeManager.worktree) : Prop :=
  WorktreeManager.id wt = k /\
  WorktreeManager.wt_status wt <> WorktreeManager.cleaned /\
  (0 <= WorktreeManager.fitness wt)%Q /\ (WorktreeManager.fitness wt <= 100)%Q /\
  WorktreeManager.mutations wt = length (WorktreeManager.commits wt).

Definition manager_ok (m : WorktreeManager.manager) : Prop :=
  WorktreeManager.maxWorktrees m = 10%nat /\
  (size (WorktreeManager.worktrees m) <= 10)%nat /\
  map_Forall worktree_ok (WorktreeManager.worktrees m).



(** A mutation that holds one of the slots of [activeMutations], and one
    that was retired to [branchHistory]. *)
Definition holds_slot (mu : MutationBrancher.mutation) : Prop :=
  MutationBrancher.mut_status mu = MutationBrancher.active \/
  MutationBrancher.mut_status mu = MutationBrancher.error.

Definition retired (mu : MutationBrancher.mutation) : Prop :=
  MutationBrancher.mut_status mu = MutationBrancher.merged \/
  MutationBrancher.mut_status mu = MutationBrancher.abandoned.

(** What holds of a mutation tracked under the key [k]. *)
Definition mutation_ok (b : MutationBrancher.brancher) (k : string)
    (mu : MutationBrancher.mutation) : Prop :=
  MutationBrancher.id mu = k /\
  (0 <= MutationBrancher.fitness mu)%Q /\ (MutationBrancher.fitness mu <= 100)%Q /\
  (holds_slot mu -> k ∈ MutationBrancher.activeMutations b) /\
  (retired mu -> k ∈ MutationBrancher.branchHistory b).

Definition brancher_ok (b : MutationBrancher.brancher) : Prop :=
  MutationBrancher.maxConcurrentMutations b = 8%nat /\
  (size (MutationBrancher.activeMutations b) <= 8)%nat /\
  (forall k, k ∈ MutationBrancher.activeMutations b ->
     is_Some (MutationBrancher.mutationBranches b !! k) /\
     k ∉ MutationBrancher.branchHistory b) /\
  (forall k, k ∈ MutationBrancher.branchHistory b ->
     is_Some (MutationBrancher.mutationBranches b !! k)) /\
  map_Forall (mutation_ok b) (MutationBrancher.mutationBranches b).

(** A world in which every commit fails and every other call succeeds. *)
Definition no_commit : world :=
  {| succeeds := fun _ c => match c with gitCommit _ _ => false | _ => true end;
     commit_hash := fun _ => "" |}.


(** An environment that answers the same at every position. *)
Definition still : EvolutionBirther.environment :=
  {| EvolutionBirther.generation_now := 0;
     EvolutionBirther.mutation_now := fun _ => 0;
     EvolutionBirther.mutation_suffix := fun _ => "ab";
     EvolutionBirther.mutation_realm := fun _ => None;
     EvolutionBirther.mutation_balance := fun _ => 0%Q;
     EvolutionBirther.worktree_now := fun _ => 0 |}.

(** A layer drawn from the search space. *)
Definition in_space (l : NeuralEvolutionEngine.layer) : Prop :=
  NeuralEvolutionEngine.neurons l ∈ NeuralEvolutionEngine.space_neuronsPerLayer /\
  NeuralEvolutionEngine.activation l
    ∈ NeuralEvolutionEngine.space_activationFunctions /\
  NeuralEvolutionEngine.dropout l ∈ NeuralEvolutionEngine.space_dropoutRates.

(** * Proofs *)

(** ** Order facts about JavaScript numbers *)

Lemma Qltb_lt x y : Qltb x y = true <-> (x < y)%Q.
Proof.
  unfold Qltb. rewrite negb_true_iff, <- not_true_iff_false, Qle_bool_iff.
  split; [apply Qnot_le_lt | apply Qlt_not_le].
Qed.

Lemma Qltb_ge x y : Qltb x y = false <-> (y <= x)%Q.
Proof.
  unfold Qltb. rewrite negb_false_iff, Qle_bool_iff. reflexivity.
Qed.

Lemma ltb_irrefl a : ltb a a = false.
Proof. destruct a; simpl; try reflexivity. apply Qltb_ge, Qle_refl. Qed.

Lemma ltb_asym a b : ltb a b = true -> ltb b a = false.
Proof.
  destruct a, b; simpl; try congruence.
  rewrite Qltb_lt, Qltb_ge. apply Qlt_le_weak.
Qed.

Lemma ltb_le_trans a b c :
  b <> NaN -> c <> NaN ->
  ltb a b = true -> ltb c b = false -> ltb a c = true.
Proof.
  destruct a, b, c; simpl; try congruence; intros _ _.
  rewrite !Qltb_lt, Qltb_ge. apply Qlt_le_trans.
Qed.

Lemma le_ltb_trans a b c :
  a <> NaN -> b <> NaN ->
  ltb b a = false -> ltb b c = true -> ltb a c = true.
Proof.
  destruct a, b, c; simpl; try congruence; intros _ _.
  rewrite !Qltb_lt, Qltb_ge. apply Qle_lt_trans.
Qed.

Lemma ltb_neg_trans a b c :
  a <> NaN -> b <> NaN -> c <> NaN ->
  ltb a b = false -> ltb b c = false -> ltb a c = false.
Proof.
  destruct a, b, c; simpl; try congruence; intros _ _ _.
  rewrite !Qltb_ge. intros H1 H2. eapply Qle_trans; eassumption.
Qed.

(** ** Dominance *)

Section Dominance.
Variable objs : list objective.

Local Abbreviation comparable := (comparable objs).

(** Both branches of the loop body do the same, up to the direction. *)
Lemma dominates_loop_cons o l s1 s2 acc :
  dominates_loop (o :: l) s1 s2 acc =
    if worse o s1 s2 then false
    else dominates_loop l s1 s2 (if worse o s2 s1 then true else acc).
Proof. simpl. unfold worse, gtb. by destruct (maximize o). Qed.

Lemma dominates_loop_spec l s1 s2 acc :
  dominates_loop l s1 s2 acc = true <->
  (forall o, o ∈ l -> worse o s1 s2 = false) /\
  (acc = true \/ exists o, o ∈ l /\ worse o s2 s1 = true).
Proof.
  revert acc. induction l as [|o l IH]; intros acc.
  - simpl. split.
    + intros ->. split; [intros o Ho; inversion Ho | by left].
    + intros [_ [H | (o & Ho & _)]]; [done | inversion Ho].
  - rewrite dominates_loop_cons.
    destruct (worse o s1 s2) eqn:W12.
    { split; [done|]. intros [Hw _].
      rewrite (Hw o (list_elem_of_here _ _)) in W12. done. }
    rewrite IH. split; intros [Hw Hb].
    + split.
      * intros o' [->|Ho']%elem_of_cons; [done | by apply Hw].
      * destruct (worse o s2 s1) eqn:W21.
        -- right. exists o. split; [left | done].
        -- destruct Hb as [Hb | (o' & Ho' & Hb)]; [by left|].
           right. exists o'. split; [by right | done].
    + split; [intros o' Ho'; apply Hw; by right|].
      destruct Hb as [Hb | (o' & [->|Ho']%elem_of_cons & Hb)].
      * left. by destruct (worse o s2 s1).
      * left. by rewrite Hb.
      * right. by exists o'.
Qed.

Lemma dominates_spec s1 s2 :
  dominates objs s1 s2 = true <->
  (forall o, o ∈ objs -> worse o s1 s2 = false) /\
  (exists o, o ∈ objs /\ worse o s2 s1 = true).
Proof.
  unfold dominates. rewrite dominates_loop_spec.
  split; intros [H1 H2]; (split; [done|]).
  - by destruct H2.
  - by right.
Qed.

Lemma dominates_asym s1 s2 :
  dominates objs s1 s2 = true -> dominates objs s2 s1 = false.
Proof.
  rewrite dominates_spec. intros [_ (o & Ho & Hb)].
  apply not_true_iff_false. rewrite dominates_spec. intros [Hw _].
  rewrite (Hw o Ho) in Hb. done.
Qed.

Lemma dominates_irrefl s : dominates objs s s = false.
Proof.
  destruct (dominates objs s s) eqn:H; [|done].
  by rewrite (dominates_asym _ _ H) in H.
Qed.

Lemma dominates_trans s1 s2 s3 :
  comparable s1 -> comparable s2 -> comparable s3 ->
  dominates objs s1 s2 = true -> dominates objs s2 s3 = true ->
  dominates objs s1 s3 = true.
Proof.
  intros C1 C2 C3. rewrite !dominates_spec.
  intros [W12 (o & Ho & B12)] [W23 _]. split.
  - intros o' Ho'. specialize (W12 o' Ho'). specialize (W23 o' Ho').
    specialize (C1 o' Ho'). specialize (C2 o' Ho'). specialize (C3 o' Ho').
    unfold worse, gtb in *. destruct (maximize o').
    + eapply ltb_neg_trans; [| | | exact W12 | exact W23]; done.
    + eapply ltb_neg_trans; [| | | exact W23 | exact W12]; done.
  - exists o. split; [done|].
    specialize (W23 o Ho).
    specialize (C1 o Ho). specialize (C2 o Ho). specialize (C3 o Ho).
    unfold worse, gtb in *. destruct (maximize o).
    + eapply le_ltb_trans; [| | exact W23 | exact B12]; done.
    + eapply ltb_le_trans; [| | exact B12 | exact W23]; done.
Qed.

Lemma dominates_ext s1 s1' s2 s2' :
  objectives (evaluation s1) = objectives (evaluation s1') ->
  objectives (evaluation s2) = objectives (evaluation s2') ->
  dominates objs s1 s2 = dominates objs s1' s2'.
Proof.
  intros E1 E2. unfold dominates. generalize false.
  induction objs as [|o l IH]; intros acc; simpl; [done|].
  unfold objective_value. rewrite E1, E2.
  destruct (maximize o); destruct (ltb _ _); try done; destruct (gtb _ _); try done;
    apply IH.
Qed.
End Dominance.

(** ** Heap updates *)

Lemma update_lookup_eq f l (h : gmap loc solution) :
  is_Some (h !! l) -> update f l h !!! l = with_evaluation f (h !!! l).
Proof.
  intros [s Hs]. unfold update. rewrite lookup_total_alter_eq, Hs. simpl.
  by rewrite (lookup_total_correct _ _ _ Hs).
Qed.

Lemma update_lookup_ne f l l' (h : gmap loc solution) :
  l <> l' -> update f l h !!! l' = h !!! l'.
Proof. intros. unfold update. by rewrite lookup_total_alter_ne. Qed.

Lemma update_is_Some f l l' (h : gmap loc solution) :
  is_Some (update f l h !! l') <-> is_Some (h !! l').
Proof.
  unfold update. destruct (decide (l = l')) as [->|Hne].
  - rewrite lookup_alter_eq. by rewrite fmap_is_Some.
  - by rewrite lookup_alter_ne.
Qed.

Lemma occ_app x T1 T2 : occ x (T1 ++ T2) = (occ x T1 + occ x T2)%nat.
Proof. unfold occ. by rewrite filter_app, length_app. Qed.

Lemma occ_pos x T : (0 < occ x T)%nat -> x ∈ T.
Proof.
  unfold occ. intros H. destruct (filter _ T) as [|y t] eqn:E; [simpl in H; lia|].
  assert (Hy : y ∈ filter (λ y, y = x) T) by (rewrite E; left).
  apply list_elem_of_filter in Hy as [-> ?]. done.
Qed.

Lemma occ_NoDup x T : NoDup T -> occ x T = if decide (x ∈ T) then 1%nat else 0%nat.
Proof.
  unfold occ. induction 1 as [|y T Hy HT IH]; [done|].
  rewrite filter_cons. destruct (decide (y = x)) as [->|Hne].
  - simpl. rewrite IH. rewrite decide_False by done.
    rewrite decide_True by left. done.
  - rewrite IH. destruct (decide (x ∈ T)).
    + rewrite decide_True by (by right). done.
    + rewrite decide_False; [done|]. intros [?|?]%elem_of_cons; congruence.
Qed.

Lemma Pushed_app c T1 T2 p1 p2 :
  Pushed c T1 p1 ->
  Pushed (fun x => c x - Z.of_nat (occ x T1)) T2 p2 ->
  Pushed c (T1 ++ T2) (p1 ++ p2).
Proof.
  intros [N1 H1] [N2 H2]. split.
  - apply NoDup_app. split; [done|]. split; [|done].
    intros x Hx1 Hx2. apply H1 in Hx1. apply H2 in Hx2. lia.
  - intros x. rewrite elem_of_app, H1, H2, occ_app. lia.
Qed.

(** ** The fast non-dominated sort *)

Section NonDominatedSort.
Variable objs : list objective.
Variable h0 : gmap loc solution.
Variable P : list loc.

Local Abbreviation ident := (ident h0).
Local Abbreviation D := (dominates_at objs h0).
Local Abbreviation static := (static h0).
Local Abbreviation ndom := (ndom objs h0 P).
Local Abbreviation ds_ok := (ds_ok objs h0 P).
Local Abbreviation Rel := (Rel h0).
Local Abbreviation ndom_out := (ndom_out objs h0 P).
Local Abbreviation Inv := (Inv objs h0 P).

Hypothesis P_alloc : forall l, l ∈ P -> is_Some (h0 !! l).
Hypothesis P_ids : NoDup (ident <$> P).
Hypothesis P_comparable : forall l, l ∈ P -> comparable objs (h0 !!! l).

Lemma static_refl : static h0.
Proof. split; [done|]. intros l. done. Qed.

Lemma static_update f l h :
  (forall e, objectives (f e) = objectives e) ->
  static h -> static (update f l h).
Proof.
  intros Hf [Ha Hs]. split.
  - intros l'. by rewrite update_is_Some.
  - intros l'. destruct (decide (l = l')) as [<-|Hne].
    + destruct (h !! l) as [s|] eqn:E.
      * rewrite update_lookup_eq by (by rewrite E). simpl. rewrite Hf. apply Hs.
      * unfold update. rewrite lookup_total_alter_eq, E. simpl.
        specialize (Hs l). rewrite lookup_total_alt, E in Hs. apply Hs.
    + rewrite update_lookup_ne by done. apply Hs.
Qed.

Lemma static_dominates h a b :
  static h -> dominates objs (h !!! a) (h !!! b) = D a b.
Proof. intros [_ Hs]. apply dominates_ext; apply Hs. Qed.

Lemma static_id h l : static h -> id (h !!! l) = ident l.
Proof. intros [_ Hs]. apply Hs. Qed.

Lemma static_alloc h l : static h -> l ∈ P -> is_Some (h !! l).
Proof. intros [Ha _] Hl. apply Ha, P_alloc, Hl. Qed.

Lemma P_NoDup : NoDup P.
Proof. eapply NoDup_fmap_1, P_ids. Qed.

Lemma ident_inj a b : a ∈ P -> b ∈ P -> ident a = ident b -> a = b.
Proof.
  intros Ha Hb E.
  assert (Hinj := NoDup_fmap_1 ident P P_ids).
  revert Ha Hb. generalize P_ids. clear -E.
  induction P as [|x l IH]; [inversion 2|].
  rewrite fmap_cons, NoDup_cons. intros [Hx Hl].
  rewrite !elem_of_cons. intros [->|Ha] [->|Hb]; try done.
  - exfalso. apply Hx. rewrite E. by apply list_elem_of_fmap_2.
  - exfalso. apply Hx. rewrite <- E. by apply list_elem_of_fmap_2.
  - by apply IH.
Qed.

Lemma D_irrefl a : D a a = false.
Proof. apply dominates_irrefl. Qed.

Lemma D_asym a b : D a b = true -> D b a = false.
Proof. apply dominates_asym. Qed.

Lemma D_trans a b c :
  a ∈ P -> b ∈ P -> c ∈ P -> D a b = true -> D b c = true -> D a c = true.
Proof.
  intros Ha Hb Hc. apply dominates_trans; by apply P_comparable.
Qed.

(** *** First phase *)

Lemma compare_with_step s o h :
  static h -> s ∈ P -> o ∈ P ->
  compare_with objs s h o =
    if decide (s = o) then h
    else if D s o then
      update (fun e => set_dominatedSolutions
                         (set_add (ident o) (dominatedSolutions e)) e) s h
    else if D o s then
      update (fun e => set_dominationCount (dominationCount e + 1) e) s h
    else h.
Proof.
  intros Hst Hs Ho. unfold compare_with.
  rewrite !(static_id h) by done. rewrite !static_dominates by done.
  destruct (String.eqb (ident s) (ident o)) eqn:Eid.
  - apply String.eqb_eq in Eid. apply ident_inj in Eid; [|done..].
    by rewrite decide_True.
  - rewrite decide_False; [done|]. intros ->.
    by rewrite String.eqb_refl in Eid.
Qed.

Lemma compare_with_fold s Q h :
  s ∈ P -> Q ⊆ P -> NoDup Q -> static h ->
  (forall o, o ∈ Q -> ident o ∉ ds h s) ->
  let h' := fold_left (compare_with objs s) Q h in
  static h' /\
  (forall l, l <> s -> h' !!! l = h !!! l) /\
  cnt h' s = cnt h s + Z.of_nat (length (filter (λ o, D o s = true) Q)) /\
  ds h' s = ds h s ++ (ident <$> filter (λ o, D s o = true) Q).
Proof.
  intros Hs. revert h. induction Q as [|o Q IH]; intros h HQ ND Hst Hfresh; simpl.
  - split; [done|]. split; [done|]. split; [lia|]. by rewrite app_nil_r.
  - apply NoDup_cons in ND as [Ho ND].
    assert (HoP : o ∈ P) by (apply HQ; left).
    assert (HQ' : Q ⊆ P) by (intros x Hx; apply HQ; by right).
    rewrite !filter_cons.
    rewrite compare_with_step by done.
    destruct (decide (s = o)) as [<-|Hne].
    { rewrite D_irrefl. rewrite decide_False by done.
      apply IH; try done. intros o Ho'. apply Hfresh. by right. }
    destruct (D s o) eqn:Dso.
    { rewrite (D_asym _ _ Dso). rewrite decide_False by done.
      rewrite decide_True by done.
      set (h1 := update _ s h).
      assert (Hst1 : static h1) by (apply static_update; [done|done]).
      assert (Hds1 : ds h1 s = ds h s ++ [ident o]).
      { unfold ds, h1. rewrite update_lookup_eq by (by apply static_alloc).
        simpl. unfold set_add. rewrite decide_False; [done|].
        apply Hfresh. left. }
      assert (Hc1 : cnt h1 s = cnt h s).
      { unfold cnt, h1. by rewrite update_lookup_eq by (by apply static_alloc). }
      destruct (IH h1) as (A & B & C & E); try done.
      { intros o' Ho'. rewrite Hds1, elem_of_app, list_elem_of_singleton.
        intros [Hin | Heq].
        - revert Hin. apply Hfresh. by right.
        - apply ident_inj in Heq; [congruence| apply HQ'; done | done]. }
      split; [done|]. split.
      { intros l Hl. rewrite B by done. unfold h1. by rewrite update_lookup_ne. }
      split; [by rewrite C, Hc1|].
      rewrite E, Hds1, fmap_cons, <- app_assoc. done. }
    destruct (D o s) eqn:Dos.
    { rewrite decide_True by done. rewrite decide_False by done.
      set (h1 := update _ s h).
      assert (Hst1 : static h1) by (apply static_update; [done|done]).
      assert (Hds1 : ds h1 s = ds h s).
      { unfold ds, h1. by rewrite update_lookup_eq by (by apply static_alloc). }
      assert (Hc1 : cnt h1 s = cnt h s + 1).
      { unfold cnt, h1. by rewrite update_lookup_eq by (by apply static_alloc). }
      destruct (IH h1) as (A & B & C & E); try done.
      { intros o' Ho'. rewrite Hds1. apply Hfresh. by right. }
      split; [done|]. split.
      { intros l Hl. rewrite B by done. unfold h1. by rewrite update_lookup_ne. }
      split; [rewrite C, Hc1; simpl length; lia|].
      by rewrite E, Hds1. }
    rewrite !decide_False by done.
    apply IH; try done. intros o' Ho'. apply Hfresh. by right.
Qed.
Lemma init_solution_step front h s :
  static h -> s ∈ P ->
  exists h',
    init_solution objs P (front, h) s
      = (front ++ (if decide (ndom s = 0%nat) then [s] else []), h') /\
    static h' /\
    (forall l, l <> s -> h' !!! l = h !!! l) /\
    cnt h' s = Z.of_nat (ndom s) /\ ds_ok h' s.
Proof.
  intros Hst HsP. unfold init_solution.
  set (h1 := update (set_dominationCount 0) s h).
  set (h2 := update (set_dominatedSolutions []) s h1).
  assert (Hst1 : static h1) by (by apply static_update).
  assert (Hst2 : static h2) by (by apply static_update).
  assert (Hc2 : cnt h2 s = 0).
  { unfold cnt, h2, h1.
    rewrite !update_lookup_eq; [done| by apply static_alloc | by apply static_alloc]. }
  assert (Hd2 : ds h2 s = []).
  { unfold ds, h2. rewrite update_lookup_eq by (by apply static_alloc). done. }
  destruct (compare_with_fold s P h2) as (Hst3 & Hfr3 & Hc3 & Hd3); try done.
  { apply P_NoDup. }
  { intros o _. rewrite Hd2. apply not_elem_of_nil. }
  set (h3 := fold_left (compare_with objs s) P h2) in *.
  rewrite Hc2, Z.add_0_l in Hc3. rewrite Hd2, app_nil_l in Hd3.
  fold (ndom s) in Hc3. fold (cnt h3 s). rewrite Hc3.
  assert (Hoth : forall l, l <> s -> h3 !!! l = h !!! l).
  { intros l Hl. rewrite Hfr3 by done. unfold h2, h1.
    by rewrite !update_lookup_ne. }
  destruct (ndom s) eqn:En.
  - simpl Z.eqb. cbv iota.
    set (h4 := update (set_rank 0) s h3).
    exists h4. rewrite decide_True by done.
    split; [done|]. split; [by apply static_update|]. split.
    + intros l Hl. unfold h4. rewrite update_lookup_ne by done. by apply Hoth.
    + unfold cnt, ds_ok, ds, h4.
      rewrite update_lookup_eq by (by apply static_alloc). simpl.
      fold (cnt h3 s). fold (ds h3 s). rewrite Hc3. done.
  - replace (Z.of_nat (S n) =? 0) with false by (symmetry; apply Z.eqb_neq; lia).
    exists h3. rewrite decide_False by done. rewrite app_nil_r.
    split; [done|]. split; [done|]. split; [done|]. split; [done|]. done.
Qed.

Lemma init_solution_fold L front h :
  L ⊆ P -> NoDup L -> static h ->
  exists h',
    fold_left (init_solution objs P) L (front, h)
      = (front ++ filter (λ s, ndom s = 0%nat) L, h') /\
    static h' /\
    (forall l, l ∉ L -> h' !!! l = h !!! l) /\
    (forall s, s ∈ L -> cnt h' s = Z.of_nat (ndom s) /\ ds_ok h' s).
Proof.
  revert front h. induction L as [|s L IH]; intros front h HL ND Hst.
  - exists h. simpl. rewrite app_nil_r.
    split; [done|]. split; [done|]. split; [done|].
    intros s Hs; inversion Hs.
  - apply NoDup_cons in ND as [Hs ND].
    assert (HsP : s ∈ P) by (apply HL; left).
    assert (HL' : L ⊆ P) by (intros x Hx; apply HL; by right).
    change (fold_left ?f (s :: L) ?a) with (fold_left f L (f a s)).
    destruct (init_solution_step front h s) as (h3 & E3 & Hst3 & Hfr3 & Hc3 & Hd3);
      try done.
    rewrite E3.
    destruct (IH (front ++ (if decide (ndom s = 0%nat) then [s] else [])) h3)
      as (h' & E & Hst' & Hfr' & Hok'); try done.
    exists h'. rewrite E, filter_cons, <- app_assoc.
    split; [by destruct (decide _)|]. split; [done|]. split.
    + intros l Hl. rewrite Hfr'.
      * apply Hfr3. intros ->. apply Hl. left.
      * intros ?. apply Hl. by right.
    + intros x [->|Hx]%elem_of_cons; [|by apply Hok'].
      unfold cnt, ds_ok, ds. rewrite Hfr' by done. done.
Qed.

(** *** Second phase *)

Lemma find_by_id_ident h d :
  static h -> d ∈ P -> find_by_id h P (ident d) = Some d.
Proof.
  intros Hst Hd. unfold find_by_id.
  destruct (find _ P) as [x|] eqn:E.
  - apply find_some in E as [Hx Ex]. apply list_elem_of_In in Hx.
    rewrite static_id in Ex by done. apply String.eqb_eq in Ex.
    f_equal. by apply ident_inj.
  - apply find_none with (x := d) in E; [|by apply list_elem_of_In].
    rewrite static_id, String.eqb_refl in E by done. done.
Qed.

Lemma Rel_nil h : static h -> Rel h h [] [].
Proof.
  intros Hst. split; [done|]. split; [done|]. split.
  - intros l. unfold occ. simpl. lia.
  - split; [constructor|]. intros x. unfold occ. simpl.
    split; [inversion 1 | lia].
Qed.

Lemma Rel_app h h1 h2 T1 T2 p1 p2 :
  Rel h h1 T1 p1 -> Rel h1 h2 T2 p2 -> Rel h h2 (T1 ++ T2) (p1 ++ p2).
Proof.
  intros (S1 & D1 & C1 & P1) (S2 & D2 & C2 & P2).
  split; [done|]. split; [intros l; by rewrite D2, D1|]. split.
  - intros l. rewrite C2, C1, occ_app. lia.
  - apply Pushed_app; [done|]. destruct P2 as [N2 H2]. split; [done|].
    intros x. rewrite H2, C1. done.
Qed.

Lemma release_Rel k nf h d :
  static h -> d ∈ P ->
  exists p h', release P k (nf, h) (ident d) = (nf ++ p, h') /\ Rel h h' [d] p.
Proof.
  intros Hst Hd. unfold release. rewrite find_by_id_ident by done.
  set (h1 := update _ d h).
  assert (Hst1 : static h1) by (by apply static_update).
  assert (Hc1 : forall l, cnt h1 l = cnt h l - Z.of_nat (occ l [d])).
  { intros l. unfold occ. rewrite filter_cons, filter_nil.
    destruct (decide (d = l)) as [<-|Hne].
    - unfold cnt, h1. rewrite update_lookup_eq by (by apply static_alloc).
      simpl. lia.
    - unfold cnt, h1. rewrite update_lookup_ne by done. simpl. lia. }
  assert (Hd1 : forall l, ds h1 l = ds h l).
  { intros l. unfold ds, h1. destruct (decide (d = l)) as [<-|Hne].
    - by rewrite update_lookup_eq by (by apply static_alloc).
    - by rewrite update_lookup_ne. }
  assert (Hocc : forall x, occ x [d] = if decide (x = d) then 1%nat else 0%nat).
  { intros x. unfold occ. rewrite filter_cons, filter_nil.
    destruct (decide (d = x)) as [->|Hne].
    - by rewrite decide_True.
    - rewrite decide_False; [done|congruence]. }
  fold (cnt h1 d).
  destruct (cnt h1 d =? 0) eqn:E.
  - apply Z.eqb_eq in E. exists [d]. eexists. split; [reflexivity|].
    split; [by apply static_update|]. split; [|split].
    + intros l. rewrite <- Hd1. unfold ds. destruct (decide (d = l)) as [<-|Hne].
      * by rewrite update_lookup_eq by (by apply static_alloc).
      * by rewrite update_lookup_ne.
    + intros l. rewrite <- Hc1. unfold cnt. destruct (decide (d = l)) as [<-|Hne].
      * by rewrite update_lookup_eq by (by apply static_alloc).
      * by rewrite update_lookup_ne.
    + split; [apply NoDup_singleton|]. intros x.
      rewrite list_elem_of_singleton, Hocc. rewrite Hc1, Hocc in E.
      rewrite decide_True in E by done.
      destruct (decide (x = d)) as [->|Hne]; [|lia]. lia.
  - apply Z.eqb_neq in E. exists []. eexists. rewrite app_nil_r.
    split; [reflexivity|].
    split; [done|]. split; [done|]. split; [done|].
    split; [constructor|]. intros x. rewrite Hocc.
    rewrite Hc1, Hocc in E. rewrite decide_True in E by done.
    split; [inversion 1|].
    destruct (decide (x = d)) as [->|Hne]; lia.
Qed.

Lemma release_fold_Rel k T nf h :
  static h -> T ⊆ P ->
  exists p h',
    fold_left (release P k) (ident <$> T) (nf, h) = (nf ++ p, h') /\ Rel h h' T p.
Proof.
  revert nf h. induction T as [|d T IH]; intros nf h Hst HT.
  - exists [], h. simpl. rewrite app_nil_r. split; [done|]. by apply Rel_nil.
  - rewrite fmap_cons.
    change (fold_left ?f (?x :: ?l) ?a) with (fold_left f l (f a x)).
    destruct (release_Rel k nf h d) as (p1 & h1 & E1 & R1);
      [done | apply HT; left |].
    rewrite E1.
    destruct (IH (nf ++ p1) h1) as (p2 & h2 & E2 & R2).
    { apply R1. } { intros x Hx. apply HT. by right. }
    exists (p1 ++ p2), h2. rewrite E2, <- app_assoc. split; [done|].
    change (d :: T) with ([d] ++ T). by eapply Rel_app.
Qed.

Lemma process_front_Rel k F nf h :
  static h -> F ⊆ P -> (forall s, s ∈ P -> ds_ok h s) ->
  exists p h',
    fold_left
      (fun acc s =>
         fold_left (release P k)
           (dominatedSolutions (evaluation (snd acc !!! s))) acc)
      F (nf, h) = (nf ++ p, h') /\
    Rel h h' (F ≫= λ s, filter (λ o, D s o = true) P) p.
Proof.
  revert nf h. induction F as [|s F IH]; intros nf h Hst HF Hds.
  - exists [], h. simpl. rewrite app_nil_r. split; [done|]. by apply Rel_nil.
  - change (fold_left ?f (?x :: ?l) ?a) with (fold_left f l (f a x)).
    cbv beta. simpl snd.
    assert (HsP : s ∈ P) by (apply HF; left).
    fold (ds h s). rewrite (Hds s HsP).
    destruct (release_fold_Rel k (filter (λ o, D s o = true) P) nf h)
      as (p1 & h1 & E1 & R1); [done| |].
    { intros x Hx. by apply list_elem_of_filter in Hx as [_ ?]. }
    rewrite E1.
    destruct (IH (nf ++ p1) h1) as (p2 & h2 & E2 & R2).
    { apply R1. } { intros x Hx. apply HF. by right. }
    { intros x Hx. unfold ds_ok. destruct R1 as (_ & -> & _). by apply Hds. }
    exists (p1 ++ p2), h2. rewrite E2, <- app_assoc. split; [done|].
    rewrite bind_cons. by eapply Rel_app.
Qed.

Lemma ndom_out_nil s : ndom_out [] s = ndom s.
Proof.
  unfold ndom_out, ndom. f_equal. apply list_filter_iff.
  intros x. split; [by intros [? _] | intros ?; split; [done | apply not_elem_of_nil]].
Qed.

Lemma occ_targets x F :
  x ∈ P ->
  occ x (F ≫= λ s, filter (λ o, D s o = true) P)
    = length (filter (λ f, D f x = true) F).
Proof.
  intros Hx. induction F as [|s F IH]; [done|].
  rewrite bind_cons, occ_app, IH, filter_cons.
  rewrite occ_NoDup by (apply NoDup_filter, P_NoDup).
  destruct (decide (D s x = true)) as [Hd|Hd].
  - rewrite decide_True; [done|]. by apply list_elem_of_filter.
  - rewrite decide_False; [done|]. by intros [? _]%list_elem_of_filter.
Qed.

Lemma ndom_out_split done cur s :
  NoDup cur -> cur ⊆ P -> (forall x, x ∈ cur -> x ∉ done) ->
  ndom_out done s
    = (ndom_out (done ++ cur) s + length (filter (λ f, D f s = true) cur))%nat.
Proof.
  intros ND HP Hdis. unfold ndom_out.
  rewrite <- (Permutation_length
    (filter_app_complement (λ o, o ∈ cur)
       (filter (λ o, D o s = true /\ o ∉ done) P))).
  rewrite length_app, Nat.add_comm. f_equal.
  - rewrite list_filter_filter. f_equal. apply list_filter_iff.
    intros x. rewrite elem_of_app. tauto.
  - rewrite list_filter_filter. apply Permutation_length, NoDup_Permutation.
    + apply NoDup_filter, P_NoDup.
    + by apply NoDup_filter.
    + intros x. rewrite !list_elem_of_filter. split.
      * tauto.
      * intros [Hd Hx]. split; [|by apply HP].
        split; [done|]. split; [done|]. by apply Hdis.
Qed.

Lemma ndom_out_zero C s :
  ndom_out C s = 0%nat <-> forall o, o ∈ P -> D o s = true -> o ∈ C.
Proof.
  unfold ndom_out. rewrite length_zero_iff_nil. split.
  - intros E o Ho Hd. destruct (decide (o ∈ C)) as [|Hn]; [done|].
    exfalso. eapply (filter_nil_not_elem_of _ _ o E); [|done]. done.
  - intros H. apply elem_of_nil_inv. intros x [[Hd Hx] HxP]%list_elem_of_filter.
    apply Hx. by apply H.
Qed.

(** A finite set ordered by dominance has a member that nothing in the
    set dominates. *)
Lemma minimal_member U :
  U ⊆ P -> U <> [] ->
  exists u, u ∈ U /\ forall o, o ∈ U -> D o u = false.
Proof.
  induction U as [|x U IH]; [done|]. intros HU _.
  assert (HxP : x ∈ P) by (apply HU; left).
  assert (HU' : U ⊆ P) by (intros y Hy; apply HU; by right).
  destruct U as [|y U'].
  - exists x. split; [left|]. intros o ->%list_elem_of_singleton. apply D_irrefl.
  - destruct (IH HU') as (u & Hu & Hmin); [done|].
    destruct (D x u) eqn:Dxu.
    + exists x. split; [left|].
      intros o [->|Ho]%elem_of_cons; [apply D_irrefl|].
      destruct (D o x) eqn:Dox; [|done].
      rewrite <- (Hmin o Ho). symmetry.
      apply (D_trans o x u); try done; by apply HU'.
    + exists u. split; [by right|].
      intros o [->|Ho]%elem_of_cons; [done | by apply Hmin].
Qed.

Lemma fronts_complete C :
  NoDup C -> C ⊆ P ->
  (forall s, s ∈ P -> ndom_out C s = 0%nat -> s ∈ C) ->
  C ≡ₚ P.
Proof.
  intros ND HC Hall. apply NoDup_Permutation; [done | apply P_NoDup |].
  intros x. split; [apply HC|]. intros Hx.
  destruct (decide (x ∈ C)) as [|Hn]; [done|]. exfalso.
  destruct (minimal_member (filter (λ o, o ∉ C) P)) as (u & Hu & Hmin).
  - intros y Hy. by apply list_elem_of_filter in Hy as [_ ?].
  - intros E. eapply (filter_nil_not_elem_of _ _ x E); done.
  - apply list_elem_of_filter in Hu as [HuC HuP].
    apply HuC, Hall; [done|]. apply ndom_out_zero. intros o Ho Hd.
    destruct (decide (o ∈ C)) as [|HoC]; [done|].
    rewrite Hmin in Hd; [done|]. by apply list_elem_of_filter.
Qed.

Lemma concat_snoc (pre : list (list loc)) cur :
  concat (pre ++ [cur]) = concat pre ++ cur.
Proof. rewrite concat_app. simpl. by rewrite app_nil_r. Qed.

Lemma process_front_inv pre cur h :
  Inv pre cur h ->
  exists next h',
    process_front P (length pre) cur h = (next, h') /\
    Inv (pre ++ [cur]) next h'.
Proof.
  intros [Hst Hds ND Hsub Hcnt Hmem].
  apply NoDup_app in ND as (NDpre & Hdis & NDcur).
  assert (HcurP : cur ⊆ P).
  { intros x Hx. apply Hsub, elem_of_app. by right. }
  destruct (process_front_Rel (length pre) cur [] h) as (p & h' & E & R);
    try done.
  exists p, h'. split; [exact E|].
  destruct R as (Hst' & Hds' & Hcnt' & NDp & Hp).
  assert (Hdis' : forall x, x ∈ cur -> x ∉ concat pre).
  { intros x Hx Hx'. by apply (Hdis x). }
  assert (Hsplit : forall x, x ∈ P ->
    ndom_out (concat pre) x
      = (ndom_out (concat pre ++ cur) x + occ x (cur ≫= λ s, filter (λ o, D s o = true) P))%nat).
  { intros x Hx. rewrite occ_targets by done. by apply ndom_out_split. }
  assert (HpP : forall x, x ∈ p -> x ∈ P).
  { intros x Hx. apply Hp in Hx. assert (Ho : x ∈ cur ≫= λ s, filter (λ o, D s o = true) P).
    { apply occ_pos. lia. }
    apply list_elem_of_bind in Ho as (y & Hy & _).
    by apply list_elem_of_filter in Hy as [_ ?]. }
  assert (Hp' : forall x, x ∈ P ->
    x ∈ p <-> ndom_out (concat pre) x <> 0%nat /\ ndom_out (concat pre ++ cur) x = 0%nat).
  { intros x Hx. rewrite Hp, (Hcnt x Hx). specialize (Hsplit x Hx). lia. }
  split; rewrite ?concat_snoc; try done.
  - intros s Hs. unfold ds_ok. rewrite Hds'. by apply Hds.
  - apply NoDup_app. split; [by apply NoDup_app|]. split; [|done].
    intros x Hx Hxp. assert (HxP : x ∈ P) by (by apply Hsub).
    apply (Hp' x HxP) in Hxp as [Hne _]. by apply Hne, Hmem.
  - intros x [Hx|Hx]%elem_of_app; [by apply Hsub | by apply HpP].
  - intros s Hs. rewrite Hcnt', (Hcnt s Hs). specialize (Hsplit s Hs). lia.
  - intros s Hs. rewrite elem_of_app, (Hmem s Hs), (Hp' s Hs).
    specialize (Hsplit s Hs). lia.
Qed.

Lemma Inv_length pre cur h :
  Inv pre cur h -> (length (concat pre) + length cur <= length P)%nat.
Proof.
  intros [_ _ ND Hsub _ _]. rewrite <- length_app.
  apply submseteq_length, NoDup_submseteq; done.
Qed.

Lemma build_fronts_correct fuel pre cur h :
  Inv pre cur h ->
  (length P < fuel + length (concat pre))%nat ->
  exists fronts h',
    build_fronts fuel P (pre ++ [cur]) (length pre) h = Some (fronts, h') /\
    (pre ++ [cur]) `prefix_of` fronts /\
    concat fronts ≡ₚ P /\
    static h'.
Proof.
  revert pre cur h. induction fuel as [|fuel IH]; intros pre cur h HI Hfuel.
  { apply Inv_length in HI. lia. }
  simpl. rewrite list_lookup_middle by done.
  destruct (0 <? length cur)%nat eqn:Hcur.
  - apply Nat.ltb_lt in Hcur.
    destruct (process_front_inv pre cur h HI) as (next & h' & E & HI').
    rewrite E.
    destruct (0 <? length next)%nat eqn:Hnext.
    + destruct (IH (pre ++ [cur]) next h' HI') as (fronts & h'' & E' & Hpre & Hperm & Hst).
      { rewrite concat_snoc, length_app. lia. }
      rewrite length_app, Nat.add_1_r in E'.
      exists fronts, h''. split; [done|]. split; [|done].
      etransitivity; [|exact Hpre]. by apply prefix_app_r.
    + apply Nat.ltb_ge in Hnext.
      assert (next = []) as -> by (destruct next; [done | simpl in Hnext; lia]).
      exists (pre ++ [cur]), h'. split; [done|]. split; [done|].
      destruct HI' as [Hst' _ ND' Hsub' _ Hmem'].
      rewrite app_nil_r in *. split; [|done].
      apply fronts_complete; try done.
      intros s Hs Hz. by apply Hmem'.
  - apply Nat.ltb_ge in Hcur.
    assert (cur = []) as -> by (destruct cur; [done | simpl in Hcur; lia]).
    exists (pre ++ [[]]), h. split; [done|]. split; [done|].
    destruct HI as [Hst _ ND Hsub _ Hmem].
    rewrite concat_snoc. split; [|done].
    apply fronts_complete; try done.
    intros s Hs Hz. apply Hmem; [done|]. by rewrite app_nil_r in Hz.
Qed.

(** *** The whole sort *)

Lemma sort_correct :
  exists front0 rest h1 h',
    fold_left (init_solution objs P) P ([], h0) = (front0, h1) /\
    build_fronts (S (length P)) P [front0] 0 h1 = Some (front0 :: rest, h') /\
    front0 = filter (λ s, ndom s = 0%nat) P /\
    concat (front0 :: rest) ≡ₚ P /\
    static h'.
Proof.
  destruct (init_solution_fold P [] h0) as (h1 & E1 & Hst1 & _ & Hok1);
    [done | apply P_NoDup | apply static_refl |].
  rewrite app_nil_l in E1.
  set (front0 := filter (λ s, ndom s = 0%nat) P) in *.
  assert (HI : Inv [] front0 h1).
  { split; simpl.
    - done.
    - intros s Hs. by apply Hok1.
    - apply NoDup_filter, P_NoDup.
    - intros x Hx. by apply list_elem_of_filter in Hx as [_ ?].
    - intros s Hs. rewrite ndom_out_nil. by apply Hok1.
    - intros s Hs. rewrite ndom_out_nil. unfold front0.
      rewrite list_elem_of_filter. tauto. }
  destruct (build_fronts_correct (S (length P)) [] front0 h1 HI)
    as (fronts & h' & E & Hpre & Hperm & Hst); [simpl; lia|].
  simpl in E, Hpre. destruct Hpre as [rest ->].
  exists front0, rest, h1, h'. done.
Qed.

End NonDominatedSort.

(** ** The stable sort *)

Section SortFacts.
Context {A : Type} (after : A -> A -> bool).

Lemma sort_insert_perm x l : sort_insert after x l ≡ₚ x :: l.
Proof.
  induction l as [|y l IH]; simpl; [done|].
  destruct (after x y); [|done].
  rewrite IH. apply perm_swap.
Qed.

Lemma sort_perm l : sort after l ≡ₚ l.
Proof.
  induction l as [|x l IH]; simpl; [done|].
  unfold sort in IH. by rewrite sort_insert_perm, IH.
Qed.

Lemma sort_length l : length (sort after l) = length l.
Proof. apply Permutation_length, sort_perm. Qed.

(** On elements for which [after] is asymmetric and its complement is
    transitive, the result is sorted: no element has to come after a
    later one. *)
Variable ok : A -> Prop.
Hypothesis after_asym : forall x y, ok x -> ok y -> after x y = true -> after y x = false.
Hypothesis after_trans : forall x y z, ok x -> ok y -> ok z ->
  after x y = false -> after y z = false -> after x z = false.

Lemma sort_insert_sorted x l :
  ok x -> Forall ok l ->
  StronglySorted (fun a b => after a b = false) l ->
  StronglySorted (fun a b => after a b = false) (sort_insert after x l).
Proof.
  intros Hx Hl Hs. induction Hs as [|y l Hs IH Hy]; simpl.
  - repeat constructor.
  - apply Forall_cons in Hl as [Hoky Hl].
    destruct (after x y) eqn:E.
    + constructor; [by apply IH|].
      rewrite sort_insert_perm. constructor; [by apply after_asym | done].
    + constructor; [by constructor|]. constructor; [done|].
      rewrite Forall_forall in Hy, Hl |- *. intros z Hz.
      eapply after_trans; [| | | exact E | by apply Hy]; auto.
Qed.

Lemma sort_sorted l :
  Forall ok l -> StronglySorted (fun a b => after a b = false) (sort after l).
Proof.
  induction l as [|x l IH]; intros Hl; simpl; [constructor|].
  apply Forall_cons in Hl as [Hx Hl].
  apply sort_insert_sorted; [done| |by apply IH].
  unfold sort. fold (sort after l). by rewrite sort_perm.
Qed.
End SortFacts.

(** ** Crowding distance *)

Lemma update_cases f x (h : gmap loc solution) l :
  update f x h !!! l = h !!! l \/
  (l = x /\ update f x h !!! l = with_evaluation f (h !!! l)).
Proof.
  destruct (decide (x = l)) as [->|Hne].
  - destruct (h !! l) as [s|] eqn:E.
    + right. split; [done|]. apply update_lookup_eq. by rewrite E.
    + left. unfold update. rewrite lookup_total_alter_eq, E. simpl.
      by rewrite lookup_total_alt, E.
  - left. by apply update_lookup_ne.
Qed.

Section Crowding.
Variable objs : list objective.
Variable h0 : gmap loc solution.
Variable F : list loc.

Hypothesis F_alloc : forall l, l ∈ F -> is_Some (h0 !! l).
Hypothesis F_finite : forall l o, l ∈ F -> o ∈ objs ->
  is_finite (objective_value (h0 !!! l) (obj_id o)).

Lemma static_value h l o :
  static h0 h -> objective_value (h !!! l) o = objective_value (h0 !!! l) o.
Proof. intros [_ Hs]. unfold objective_value. by destruct (Hs l) as [_ ->]. Qed.

Lemma fold_set_static v L h :
  static h0 h ->
  static h0 (fold_left (fun h s => update (set_crowdingDistance v) s h) L h).
Proof.
  revert h. induction L as [|x L IH]; intros h Hst; simpl; [done|].
  apply IH. by apply static_update.
Qed.

Lemma fold_set_cd v L h :
  static h0 h -> (forall l, l ∈ L -> is_Some (h0 !! l)) ->
  forall l, l ∈ L ->
    cd (fold_left (fun h s => update (set_crowdingDistance v) s h) L h) l = v.
Proof.
  induction L as [|x L IH] using rev_ind; intros Hst Hal l Hl; [inversion Hl|].
  rewrite fold_left_app. simpl.
  set (h1 := fold_left _ L h).
  assert (Hst1 : static h0 h1) by (by apply fold_set_static).
  destruct (decide (l = x)) as [->|Hne].
  - unfold cd. rewrite update_lookup_eq; [done|].
    apply Hst1, Hal, elem_of_app. right. left.
  - unfold cd. rewrite update_lookup_ne by done.
    apply elem_of_app in Hl as [Hl|Hl%list_elem_of_singleton]; [|done].
    apply IH; try done. intros y Hy. apply Hal, elem_of_app. by left.
Qed.

Lemma proper_add x d : proper x -> is_finite d -> proper (add x d).
Proof.
  intros [->|[q ->]] [r ->]; simpl; [by left|]. right. by eexists.
Qed.

Lemma distance_finite a b r :
  is_finite a -> is_finite b -> is_finite r -> eqb r zero = false ->
  is_finite (div (abs (sub a b)) r).
Proof.
  intros [x ->] [y ->] [z ->]. simpl. intros ->. by eexists.
Qed.

Lemma member_at f j : f ≡ₚ F -> (j < length f)%nat -> f !!! j ∈ F.
Proof.
  intros Hf Hj. eapply elem_of_Permutation_proper; [symmetry; exact Hf|].
  by apply list_elem_of_lookup_total_2.
Qed.

Lemma add_distance_fold o f range h L :
  o ∈ objs -> f ≡ₚ F -> is_finite range -> eqb range zero = false ->
  (forall i, i ∈ L -> (1 <= i /\ i + 1 < length f)%nat) ->
  static h0 h -> (forall l, l ∈ F -> proper (cd h l)) ->
  let h' := fold_left (add_distance o f range) L h in
  static h0 h' /\ (forall l, l ∈ F -> proper (cd h' l)).
Proof.
  intros Ho Hf Hr Hr0. revert h. induction L as [|i L IH]; intros h HL Hst Hp; simpl.
  - done.
  - apply IH.
    + intros j Hj. apply HL. by right.
    + unfold add_distance. by apply static_update.
    + intros l Hl. unfold add_distance, cd.
      destruct (update_cases
        (fun e => set_crowdingDistance
           (add (crowdingDistance e)
              (div (abs (sub
                 (objective_value (h !!! (f !!! (i + 1)%nat)) (obj_id o))
                 (objective_value (h !!! (f !!! (i - 1)%nat)) (obj_id o))))
                 range)) e) (f !!! i) h l) as [-> | [_ ->]].
      * by apply Hp.
      * simpl. apply proper_add; [by apply Hp|].
        destruct (HL i) as [Hi1 Hi2]; [left|].
        rewrite (static_value h (f !!! (i + 1)%nat) _ Hst),
          (static_value h (f !!! (i - 1)%nat) _ Hst).
        apply distance_finite; try done.
        -- apply F_finite; [|done]. apply member_at; [done|lia].
        -- apply F_finite; [|done]. apply member_at; [done|lia].
Qed.

Lemma set_inf_proper x h :
  (forall l, l ∈ F -> proper (cd h l)) ->
  forall l, l ∈ F -> proper (cd (update (set_crowdingDistance PosInf) x h) l).
Proof.
  intros Hp l Hl. unfold cd.
  destruct (update_cases (set_crowdingDistance PosInf) x h l) as [-> | [_ ->]].
  - by apply Hp.
  - simpl. by left.
Qed.

Lemma crowding_objective_spec o f h :
  o ∈ objs -> f ≡ₚ F -> (2 < length F)%nat ->
  static h0 h -> (forall l, l ∈ F -> proper (cd h l)) ->
  exists f' h',
    crowding_objective (length F) (f, h) o = (f', h') /\
    f' ≡ₚ F /\ static h0 h' /\ (forall l, l ∈ F -> proper (cd h' l)).
Proof.
  intros Ho Hf Hlen Hst Hp. unfold crowding_objective.
  set (f1 := sort (by_objective h o) f).
  assert (Hf1 : f1 ≡ₚ F) by (unfold f1; by rewrite sort_perm).
  assert (Hlen1 : length f1 = length F) by (by rewrite Hf1).
  set (h1 := update (set_crowdingDistance PosInf) (f1 !!! 0%nat) h).
  set (h2 := update (set_crowdingDistance PosInf) (f1 !!! (length F - 1)%nat) h1).
  assert (Hst2 : static h0 h2).
  { apply static_update; [done|]. by apply static_update. }
  assert (Hp2 : forall l, l ∈ F -> proper (cd h2 l)).
  { by do 2 apply set_inf_proper. }
  set (range := sub _ _).
  destruct (eqb range zero) eqn:E.
  - exists f1, h2. done.
  - eexists f1, _. split; [reflexivity|]. split; [done|].
    apply add_distance_fold; try done.
    + unfold range.
      rewrite (static_value h2 (f1 !!! 0%nat) _ Hst2),
        (static_value h2 (f1 !!! (length F - 1)%nat) _ Hst2).
      destruct (F_finite (f1 !!! 0%nat) o) as [a ->]; [|done|].
      { apply member_at; [done|lia]. }
      destruct (F_finite (f1 !!! (length F - 1)%nat) o) as [b ->]; [|done|].
      { apply member_at; [done|lia]. }
      by eexists.
    + intros i Hi. apply elem_of_seq in Hi. lia.
Qed.

Lemma crowding_objectives_fold os f h :
  os ⊆ objs -> f ≡ₚ F -> (2 < length F)%nat ->
  static h0 h -> (forall l, l ∈ F -> proper (cd h l)) ->
  exists f' h',
    fold_left (crowding_objective (length F)) os (f, h) = (f', h') /\
    f' ≡ₚ F /\ static h0 h' /\ (forall l, l ∈ F -> proper (cd h' l)).
Proof.
  revert f h. induction os as [|o os IH]; intros f h Hos Hf Hlen Hst Hp.
  - exists f, h. done.
  - change (fold_left ?g (o :: os) ?a) with (fold_left g os (g a o)).
    destruct (crowding_objective_spec o f h) as (f1 & h1 & E & Hf1 & Hst1 & Hp1);
      try done.
    { apply Hos. left. }
    rewrite E. apply IH; try done. intros x Hx. apply Hos. by right.
Qed.

Lemma calculateCrowdingDistance_spec h :
  static h0 h ->
  exists F' h',
    calculateCrowdingDistance objs F h = (F', h') /\
    F' ≡ₚ F /\ static h0 h' /\ (forall l, l ∈ F -> proper (cd h' l)).
Proof.
  intros Hst. unfold calculateCrowdingDistance.
  set (hz := fold_left (fun h s => update (set_crowdingDistance zero) s h) F h).
  assert (Hstz : static h0 hz) by (by apply fold_set_static).
  destruct (length F <=? 2)%nat eqn:E.
  - eexists F, _. split; [reflexivity|]. split; [done|].
    split; [by apply fold_set_static|].
    intros l Hl. rewrite fold_set_cd; try done. by left.
  - apply Nat.leb_gt in E. apply crowding_objectives_fold; try done.
    intros l Hl. unfold hz. rewrite fold_set_cd; try done.
    right. by eexists.
Qed.
End Crowding.

(** ** Selection *)

Lemma by_crowding_ltb h a b :
  proper (cd h a) -> proper (cd h b) ->
  by_crowding h a b = ltb (cd h a) (cd h b).
Proof.
  unfold by_crowding, cd, gtb.
  intros [-> | [x ->]] [-> | [y ->]]; simpl; try reflexivity.
  unfold Qltb. f_equal.
  destruct (Qle_bool (y + - x) 0) eqn:E1, (Qle_bool y x) eqn:E2; try reflexivity.
  - apply Qle_bool_iff in E1. apply not_true_iff_false in E2.
    exfalso. apply E2, Qle_bool_iff. lra.
  - apply Qle_bool_iff in E2. apply not_true_iff_false in E1.
    exfalso. apply E1, Qle_bool_iff. lra.
Qed.

Lemma proper_not_NaN x : proper x -> x <> NaN.
Proof. by intros [-> | [q ->]]. Qed.



Lemma concat_perm (fs gs : list (list loc)) :
  Forall2 (≡ₚ) fs gs -> concat fs ≡ₚ concat gs.
Proof.
  induction 1 as [|f g fs gs Hfg _ IH]; simpl; [done|]. by rewrite Hfg, IH.
Qed.


Section Selection.
Variable objs : list objective.
Variable h0 : gmap loc solution.
Variable P : list loc.
Variable fronts0 : list (list loc).

Hypothesis P_alloc : forall l, l ∈ P -> is_Some (h0 !! l).
Hypothesis P_finite : forall l o, l ∈ P -> o ∈ objs ->
  is_finite (objective_value (h0 !!! l) (obj_id o)).
Hypothesis fronts0_sub : forall F l, F ∈ fronts0 -> l ∈ F -> l ∈ P.

Lemma front_calc st (front F0 : list loc) :
  this_objectives st = objs -> static h0 (heap st) ->
  F0 ∈ fronts0 -> front ≡ₚ F0 ->
  exists front' h',
    calculateCrowdingDistance (this_objectives st) front (heap st) = (front', h') /\
    front' ≡ₚ F0 /\ static h0 h' /\ (forall l, l ∈ front' -> proper (cd h' l)).
Proof.
  intros Hobjs Hst HF0 Hperm. rewrite Hobjs.
  destruct (calculateCrowdingDistance_spec objs h0 front) with (h := heap st)
    as (f' & h' & E & Hf' & Hst' & Hp'); try done.
  - intros l Hl. apply P_alloc, (fronts0_sub F0); [done|]. by rewrite <- Hperm.
  - intros l o Hl Ho. apply P_finite; [|done].
    apply (fronts0_sub F0); [done|]. by rewrite <- Hperm.
  - exists f', h'. split; [done|]. split; [by rewrite Hf'|]. split; [done|].
    intros l Hl. apply Hp'. by rewrite <- Hf'.
Qed.

Lemma selection_loop_spec fuel st N newPopulation k :
  this_objectives st = objs -> static h0 (heap st) ->
  Forall2 (≡ₚ) (paretoFronts st) fronts0 ->
  (k < length fronts0)%nat -> fuel = (length fronts0 - k)%nat ->
  newPopulation = concat (take k (paretoFronts st)) ->
  (length newPopulation <= N)%nat ->
  exists newPopulation' k' st',
    selection_loop fuel st N newPopulation k = Some (newPopulation', k', st') /\
    this_objectives st' = objs /\ static h0 (heap st') /\
    Forall2 (≡ₚ) (paretoFronts st') fronts0 /\
    (k' <= length fronts0)%nat /\
    newPopulation' = concat (take k' (paretoFronts st')) /\
    (length newPopulation' <= N)%nat /\
    (forall Fk, paretoFronts st' !! k' = Some Fk ->
       (N < length newPopulation' + length Fk)%nat).
Proof.
  revert st newPopulation k.
  induction fuel as [|fuel IH]; intros st np k Hobjs Hst Hfs Hk Hfuel Hnp HN; [lia|].
  simpl.
  assert (Hlen : length (paretoFronts st) = length fronts0)
    by (by eapply Forall2_length).
  destruct (lookup_lt_is_Some_2 (paretoFronts st) k) as [front Hfront]; [lia|].
  destruct (lookup_lt_is_Some_2 fronts0 k) as [F0 HF0]; [lia|].
  assert (Hperm : front ≡ₚ F0) by (eapply Forall2_lookup_lr; eauto).
  rewrite Hfront.
  destruct (length np + length front <=? N)%nat eqn:Efit.
  - apply Nat.leb_le in Efit.
    destruct (front_calc st front F0) as (front' & h' & E & Hf' & Hst' & _);
      try done.
    { eapply list_elem_of_lookup_2; eauto. }
    rewrite E.
    set (st' := set_front k front' h' st).
    assert (Hfs' : Forall2 (≡ₚ) (paretoFronts st') fronts0).
    { simpl. rewrite <- (list_insert_id fronts0 k F0 HF0).
      by apply Forall2_insert. }
    assert (Hk' : paretoFronts st' !! k = Some front').
    { simpl. apply list_lookup_insert_eq. lia. }
    assert (Hnp' : np ++ front' = concat (take (S k) (paretoFronts st'))).
    { rewrite (take_S_r _ _ _ Hk'), concat_app. simpl. rewrite app_nil_r.
      rewrite take_insert_ge by done. by rewrite Hnp. }
    assert (HN' : (length (np ++ front') <= N)%nat).
    { rewrite length_app, Hf', <- Hperm. lia. }
    assert (Hlen' : length (paretoFronts st') = length fronts0)
      by (by eapply Forall2_length).
    change (length (<[k:=front']> (paretoFronts st)))
      with (length (paretoFronts st')).
    destruct (length (paretoFronts st') <=? S k)%nat eqn:Eend.
    + apply Nat.leb_le in Eend.
      exists (np ++ front'), (S k), st'. split; [done|].
      split; [done|]. split; [done|]. split; [done|]. split; [lia|].
      split; [done|]. split; [done|].
      intros Fk HFk. apply lookup_lt_Some in HFk. lia.
    + apply Nat.leb_gt in Eend.
      destruct (IH st' (np ++ front') (S k)) as (np2 & k2 & st2 & E2 & R);
        try done; try lia.
      exists np2, k2, st2. done.
  - apply Nat.leb_gt in Efit.
    exists np, k, st. split; [done|].
    split; [done|]. split; [done|]. split; [done|]. split; [lia|].
    split; [done|]. split; [done|].
    intros Fk HFk. rewrite Hfront in HFk. inversion HFk; subst. lia.
Qed.
End Selection.

Lemma concat_lookup (fs : list (list loc)) s :
  s ∈ concat fs <-> exists k F, fs !! k = Some F /\ s ∈ F.
Proof.
  induction fs as [|G fs IH]; simpl.
  - split; [inversion 1 | by intros (k & F & ? & _)].
  - rewrite elem_of_app, IH. split.
    + intros [Hs | (k & F & Hk & Hs)].
      * by exists 0%nat, G.
      * by exists (S k), F.
    + intros ([|k] & F & Hk & Hs); simpl in Hk.
      * left. by inversion Hk; subst.
      * right. by exists k, F.
Qed.

Lemma unique_front (fs : list (list loc)) s i j F G :
  NoDup (concat fs) ->
  fs !! i = Some F -> fs !! j = Some G -> s ∈ F -> s ∈ G -> i = j.
Proof.
  revert i j. induction fs as [|H fs IH]; intros i j ND Hi Hj HF HG; [done|].
  simpl in ND. apply NoDup_app in ND as (_ & Hdis & ND).
  destruct i as [|i], j as [|j]; simpl in *; try done.
  - inversion Hi; subst. exfalso. apply (Hdis s HF).
    apply concat_lookup. by exists j, G.
  - inversion Hj; subst. exfalso. apply (Hdis s HG).
    apply concat_lookup. by exists i, F.
  - f_equal. by apply IH.
Qed.

Lemma ndom_zero objs h0 P s :
  ndom objs h0 P s = 0%nat <->
  forall o, o ∈ P -> dominates objs (h0 !!! o) (h0 !!! s) = false.
Proof.
  unfold ndom. rewrite length_zero_iff_nil. split.
  - intros E o Ho. apply not_true_iff_false. intros Hd.
    by apply (filter_nil_not_elem_of _ _ o E).
  - intros H. apply elem_of_nil_inv. intros x [Hd Hx]%list_elem_of_filter.
    unfold dominates_at in Hd. by rewrite H in Hd.
Qed.

Lemma sorted_fronts (st : optimizer) (P : list loc) :
  (forall l, l ∈ P -> is_Some (heap st !! l)) ->
  NoDup ((fun l => id (heap st !!! l)) <$> P) ->
  (forall l o, l ∈ P -> o ∈ this_objectives st ->
     objective_value (heap st !!! l) (obj_id o) <> NaN) ->
  exists front0 rest st',
    fastNonDominatedSort st P = Some (front0 :: rest, st') /\
    paretoFronts st' = front0 :: rest /\
    this_objectives st' = this_objectives st /\
    static (heap st) (heap st') /\
    front0 = filter (fun s => ndom (this_objectives st) (heap st) P s = 0%nat) P /\
    concat (front0 :: rest) ≡ₚ P.
Proof.
  intros Halloc Hids Hcomp.
  destruct (sort_correct (this_objectives st) (heap st) P)
    as (front0 & rest & h1 & h' & E1 & E2 & Hf0 & Hperm & Hst); try done.
  { intros l Hl o Ho. by apply Hcomp. }
  unfold fastNonDominatedSort. rewrite E1, E2.
  exists front0, rest. eexists. split; [reflexivity|]. simpl. done.
Qed.


Lemma finite_not_NaN x : is_finite x -> x <> NaN.
Proof. by intros [q ->]. Qed.


Lemma five_allocated :
  forall l, l ∈ five_locations -> is_Some (heap five_solutions !! l).
Proof. apply Forall_forall. apply (bool_decide_unpack _). vm_compute. reflexivity. Qed.

Lemma five_distinct :
  NoDup ((fun l => id (heap five_solutions !!! l)) <$> five_locations).
Proof. apply (bool_decide_unpack _). vm_compute. reflexivity. Qed.

Lemma five_finite :
  forall l o, l ∈ five_locations -> o ∈ this_objectives five_solutions ->
    is_finite (objective_value (heap five_solutions !!! l) (obj_id o)).
Proof.
  intros l o Hl Ho.
  repeat (apply elem_of_cons in Hl as [-> | Hl]); try (by apply elem_of_nil in Hl);
    repeat (apply elem_of_cons in Ho as [-> | Ho]); try (by apply elem_of_nil in Ho);
    vm_compute; eauto.
Qed.



(** C3, at a front of three solutions with one objective to minimise
    and values 1, 2, 3: the member in the middle gets the crowding
    distance [|3 - 1| / (1 - 3) = -1], where the normalised distance
    between its neighbours is [|3 - 1| / (3 - 1) = 1]. *)
Lemma crowding_distance_negative_on_minimize :
  let '(front, h) :=
    calculateCrowdingDistance (this_objectives complexity_only) [0; 1; 2]%nat
      (heap complexity_only) in
  front = [0; 1; 2]%nat /\
  cd h 0%nat = PosInf /\ cd h 2%nat = PosInf /\
  cd h 1%nat = Fin (-2 # 2) /\
  ltb (cd h 1%nat) zero = true /\
  div (abs (sub (Fin 3) (Fin 1))) (sub (Fin 3) (Fin 1)) = Fin (2 # 2).
Proof. vm_compute. repeat split; reflexivity. Qed.

(** ** evaluateSolution *)





(** ** crossover *)

Lemma blend_key_fold parent1 parent2 random ks props n :
  fold_left (blend_key parent1 parent2 random) ks (props, n)
  = (props ++ imap (fun i key =>
                      (key, blend (property parent1 key) (property parent2 key)
                              (Fin (random (n + i)%nat)))) ks,
     (n + length ks)%nat).
Proof.
  revert props n. induction ks as [|k ks IH]; intros props n; simpl.
  - rewrite app_nil_r. f_equal. lia.
  - rewrite IH. rewrite <- app_assoc. simpl. rewrite Nat.add_0_r.
    f_equal; [|lia]. f_equal. f_equal. apply imap_ext.
    intros i x _. simpl. by rewrite Nat.add_succ_r.
Qed.

Lemma blendProperties_spec parent1 parent2 random n :
  blendProperties parent1 parent2 random n
  = (blend_all parent1 parent2 random n,
     (n + length (allKeys parent1 parent2))%nat).
Proof. unfold blendProperties. by rewrite blend_key_fold. Qed.

Lemma neural_crossover_skip e now id1 id2 b1 b2 (parent1 parent2 : NeuralEvolutionEngine.network)
    (random : NeuralEvolutionEngine.rng) n :
  (NeuralEvolutionEngine.crossoverRate e < random n)%Q ->
  NeuralEvolutionEngine.crossover e now id1 id2 b1 b2 parent1 parent2 random n
  = (Some (parent1, parent2), S n).
Proof.
  intros Hlt. unfold NeuralEvolutionEngine.crossover, NeuralEvolutionEngine.bind, NeuralEvolutionEngine.draw. simpl.
  apply Qltb_lt in Hlt. by rewrite Hlt.
Qed.

(** C9, as the code has it: the selector's crossover is not
    probabilistic: whatever is drawn, each child's property map holds,
    for every key of either parent, the blend [v1 * w + v2 * (1 - w)] of
    the parents' values with a weight [w] drawn for that key alone (the
    second child with the parents swapped).  The rate of 0.7 belongs to
    the neural engine's crossover: on a draw above the rate it returns
    the two parents copied. *)
Theorem crossover_blends_or_copies :
  (forall name now st parent1 parent2 (random : rng) n,
     exists id1 id2 g,
       crossover name now st parent1 parent2 random n
       = (({| child_id := id1; child_parents := (id parent1, id parent2);
              child_generation := g;
              child_properties := blend_all parent1 parent2 random (S n) |},
           {| child_id := id2; child_parents := (id parent1, id parent2);
              child_generation := g;
              child_properties :=
                blend_all parent2 parent1 random
                  (S (S n + length (allKeys parent1 parent2))) |}),
          (S (S n + length (allKeys parent1 parent2))
           + length (allKeys parent2 parent1))%nat)) /\
  (forall e now id1 id2 b1 b2 (parent1 parent2 : NeuralEvolutionEngine.network) (random : NeuralEvolutionEngine.rng) n,
     (NeuralEvolutionEngine.crossoverRate e < random n)%Q ->
     NeuralEvolutionEngine.crossover e now id1 id2 b1 b2 parent1 parent2 random n
     = (Some (parent1, parent2), S n)) /\
  NeuralEvolutionEngine.crossoverRate NeuralEvolutionEngine.new_engine = 7 # 10.
Proof.
  split; [|split; [|reflexivity]].
  - intros name now st parent1 parent2 random n. unfold crossover.
    rewrite !blendProperties_spec. by eexists _, _, _.
  - intros. by apply neural_crossover_skip.
Qed.

Lemma crossover_copies_witness :
  NeuralEvolutionEngine.crossover NeuralEvolutionEngine.new_engine 0 "n1" "n2" None None
    (a_network "p1") (a_network "p2") (fun _ => 9 # 10) 0%nat
  = (Some (a_network "p1", a_network "p2"), 1%nat).
Proof.
  apply (proj1 (proj2 crossover_blends_or_copies)). reflexivity.
Defined.

(** C9 as stated fails for the selector's crossover: with parents whose
    property [x] is 10 and 0, no sequence of draws in [[0, 1)] makes the
    first child a copy of the first parent: the crossover is never
    skipped. *)
Lemma selector_crossover_never_skipped :
  ~ exists (random : rng) (n : nat),
      (forall i, 0 <= random i /\ random i < 1)%Q /\
      exists v,
        child_properties
          (fst (fst (crossover (fun _ _ => "child") 0
                       (optimizer_of [] []) (parent_x "A" 10) (parent_x "B" 0)
                       random n)))
        = [("x", v)] /\
        eqb v (Fin 10) = true.
Proof.
  intros (random & n & Hr & v & Hv & He).
  unfold crossover in Hv. rewrite !blendProperties_spec in Hv. simpl in Hv.
  unfold blend_all in Hv.
  assert (Hk : allKeys (parent_x "A" 10) (parent_x "B" 0) = ["x"])
    by (vm_compute; reflexivity).
  assert (HA : property (parent_x "A" 10) "x" = Fin 10) by reflexivity.
  assert (HB : property (parent_x "B" 0) "x" = zero) by reflexivity.
  rewrite Hk in Hv. simpl in Hv. rewrite HA, HB in Hv.
  inversion Hv; subst v. clear Hv.
  destruct (Hr (S (n + 0))) as [_ Hlt].
  unfold blend, zero in He. simpl in He. apply Qeq_bool_iff in He.
  lra.
Qed.

(** * The registries *)

Lemma run_all_succeed w cs lg :
  (forall lg' c, succeeds w lg' c = true) -> run w cs lg = (None, lg ++ cs).
Proof.
  intros Hw. revert lg. induction cs as [|c cs IH]; intros lg; simpl.
  - by rewrite app_nil_r.
  - rewrite Hw, IH. by rewrite <- app_assoc.
Qed.

Section Worktrees.
Import WorktreeManager.

Lemma Qltb_true x y : Qltb x y = true <-> (x < y)%Q.
Proof. apply Qltb_lt. Qed.

(** A merge below the threshold returns false and leaves the manager as it
  was; the mutation registry behaves alike. *)
Lemma mergeEvolution_below w now m worktreeId targetBranch threshold wt :
  worktrees m !! worktreeId = Some wt ->
  (fitness wt < threshold)%Q ->
  mergeEvolution w now m worktreeId targetBranch threshold = (Ok false, m).
Proof.
  intros Hwt Hlt. unfold mergeEvolution. rewrite Hwt.
  apply Qltb_true in Hlt. by rewrite Hlt.
Qed.

Lemma create_capacity w now m e b g :
  capacity_error (fst (createEvolutionWorktree w now m e b g)) <->
  (maxWorktrees m <= size (worktrees m))%nat.
Proof.
  unfold createEvolutionWorktree.
  destruct (maxWorktrees m <=? size (worktrees m))%nat eqn:E.
  - apply Nat.leb_le in E. split; [done|]. intros _.
    eexists. split; [reflexivity|done].
  - apply Nat.leb_gt in E. split; [|lia].
    destruct (run w _ (log m)) as [[failed|] lg]; simpl;
      intros (e' & He & Hk); inversion He; subst; done.
Qed.

Lemma create_succeeds w now m e b g :
  (forall lg c, succeeds w lg c = true) ->
  (size (worktrees m) < maxWorktrees m)%nat ->
  exists wt, fst (createEvolutionWorktree w now m e b g) = Ok wt.
Proof.
  intros Hw Hlt. unfold createEvolutionWorktree.
  apply Nat.leb_gt in Hlt. rewrite Hlt, run_all_succeed by done. by eexists.
Qed.

Lemma cleanup_ok w now m worktreeId m' :
  cleanupWorktree w now m worktreeId = (Ok tt, m') ->
  is_Some (worktrees m !! worktreeId) /\
  worktrees m' = delete worktreeId (worktrees m) /\
  maxWorktrees m' = maxWorktrees m.
Proof.
  unfold cleanupWorktree. destruct (worktrees m !! worktreeId) as [wt|] eqn:E;
    [|inversion 1].
  destruct (succeeds w (log m) _); inversion 1; subst. simpl. eauto.
Qed.
End Worktrees.

Section Mutations.
Import MutationBrancher.

Lemma mergeMutation_below w now b mutationId targetBranch threshold mu :
  mutationBranches b !! mutationId = Some mu ->
  (fitness mu < threshold)%Q ->
  mergeMutation w now b mutationId targetBranch threshold = (Ok false, b).
Proof.
  intros Hmu Hlt. unfold mergeMutation. rewrite Hmu.
  apply Qltb_lt in Hlt. by rewrite Hlt.
Qed.

Lemma abandon_ok w now b mutationId reason b' :
  abandonMutation w now b mutationId reason = (Ok tt, b') ->
  exists mu,
    mutationBranches b' !! mutationId = Some mu /\ mut_status mu = abandoned.
Proof.
  unfold abandonMutation.
  destruct (mutationBranches b !! mutationId) as [mu|]; [|inversion 1].
  destruct (run w _ (log b)) as [[failed|] lg]; inversion 1; subst.
  eexists. simpl. rewrite lookup_insert_eq. done.
Qed.

Lemma abandon_never_invalid_state w now b mutationId reason e :
  fst (abandonMutation w now b mutationId reason) = Throw e ->
  classify e <> InvalidState.
Proof.
  unfold abandonMutation.
  destruct (mutationBranches b !! mutationId) as [mu|].
  - destruct (run w _ (log b)) as [[failed|] lg]; simpl; inversion 1; done.
  - simpl. inversion 1. done.
Qed.

Lemma abandon_any_status w now b mutationId reason mu :
  mutationBranches b !! mutationId = Some mu ->
  succeeds w (log b) (checkout (baseBranch mu)) = true ->
  succeeds w (log b ++ [checkout (baseBranch mu)])
    (deleteLocalBranch (branchName mu) true) = true ->
  exists b' mu',
    abandonMutation w now b mutationId reason = (Ok tt, b') /\
    mutationBranches b' !! mutationId = Some mu' /\
    mut_status mu' = abandoned.
Proof.
  intros Hmu H1 H2. unfold abandonMutation. rewrite Hmu. simpl.
  rewrite H1, H2. do 2 eexists. split; [reflexivity|]. simpl.
  rewrite lookup_insert_eq. done.
Qed.

Lemma apply_not_active w now b mutationId ch msg mu :
  mutationBranches b !! mutationId = Some mu ->
  mut_status mu <> active ->
  applyMutationChanges w now b mutationId ch msg
    = (Throw (MutationNotActive mutationId), b).
Proof.
  intros Hmu Hst. unfold applyMutationChanges. rewrite Hmu.
  by rewrite decide_False.
Qed.
End Mutations.

(** C4: merging a tracked worktree, or a tracked mutation, whose stored
    fitness is strictly below the threshold returns [false] and leaves
    the whole registry as it was: the log of issued commands, the record
    (status, commits, fitness) and the active set are unchanged. *)
Theorem merge_below_threshold_is_noop :
  (forall w now m worktreeId targetBranch threshold wt,
     WorktreeManager.worktrees m !! worktreeId = Some wt ->
     (WorktreeManager.fitness wt < threshold)%Q ->
     WorktreeManager.mergeEvolution w now m worktreeId targetBranch threshold
       = (Ok false, m)) /\
  (forall w now b mutationId targetBranch threshold mu,
     MutationBrancher.mutationBranches b !! mutationId = Some mu ->
     (MutationBrancher.fitness mu < threshold)%Q ->
     MutationBrancher.mergeMutation w now b mutationId targetBranch threshold
       = (Ok false, b)).
Proof.
  split.
  - intros. by eapply mergeEvolution_below.
  - intros. by eapply mergeMutation_below.
Qed.

Lemma merge_below_threshold_witness :
  WorktreeManager.mergeEvolution calm 5 one_worktree "evolution_e0_0" "main" 70
    = (Ok false, one_worktree) /\
  MutationBrancher.mergeMutation calm 5 one_mutation "docs_0_ab" "main" 60
    = (Ok false, one_mutation).
Proof.
  split.
  - eapply (proj1 merge_below_threshold_is_noop); [reflexivity | reflexivity].
  - eapply (proj2 merge_below_threshold_is_noop); [reflexivity | reflexivity].
Defined.

(** C5, as the code has it: allocation fails for capacity exactly when
    the number of tracked worktrees (registry entries, whatever their
    status) has reached the bound; after a successful cleanup in a
    registry that did not exceed the bound the next allocation does not
    fail for capacity, and it succeeds when the external calls do. *)
Theorem allocation_fails_iff_registry_full :
  forall w now (m : WorktreeManager.manager) evolutionId baseBranch godName,
    (capacity_error
       (fst (WorktreeManager.createEvolutionWorktree w now m
               evolutionId baseBranch godName)) <->
     (WorktreeManager.maxWorktrees m <= size (WorktreeManager.worktrees m))%nat) /\
    (forall w0 now0 m0 worktreeId,
       (size (WorktreeManager.worktrees m0) <= WorktreeManager.maxWorktrees m0)%nat ->
       WorktreeManager.cleanupWorktree w0 now0 m0 worktreeId = (Ok tt, m) ->
       ~ capacity_error
           (fst (WorktreeManager.createEvolutionWorktree w now m
                   evolutionId baseBranch godName)) /\
       ((forall lg c, succeeds w lg c = true) ->
        exists wt,
          fst (WorktreeManager.createEvolutionWorktree w now m
                 evolutionId baseBranch godName) = Ok wt)).
Proof.
  intros w now m e b g. split; [apply create_capacity|].
  intros w0 now0 m0 worktreeId Hsize Hclean.
  apply cleanup_ok in Hclean as (Hin & Hws & Hmax).
  assert (Hlt : (size (WorktreeManager.worktrees m)
                 < WorktreeManager.maxWorktrees m)%nat).
  { rewrite Hws, Hmax, map_size_delete_Some by done.
    destruct Hin as [wt Hwt].
    assert (size (WorktreeManager.worktrees m0) <> 0%nat).
    { intros Hz. apply map_size_empty_inv in Hz. rewrite Hz in Hwt.
      by rewrite lookup_empty in Hwt. }
    lia. }
  split.
  - rewrite create_capacity. lia.
  - intros Hw. by apply create_succeeds.
Qed.

Lemma allocation_after_cleanup_witness :
  exists wt,
    fst (WorktreeManager.createEvolutionWorktree calm 3
           (snd (WorktreeManager.cleanupWorktree calm 2 ten_worktrees "evolution_e0_0"))
           "e10" "main" "Brahma") = Ok wt.
Proof.
  eapply (proj2 (allocation_fails_iff_registry_full calm 3
                   (snd (WorktreeManager.cleanupWorktree calm 2 ten_worktrees
                           "evolution_e0_0"))
                   "e10" "main" "Brahma")
            calm 2 ten_worktrees "evolution_e0_0").
  - vm_compute. lia.
  - reflexivity.
  - reflexivity.
Defined.

(** C5 as stated fails: a merged worktree stays in the registry, so with
    ten tracked worktrees of which only nine are active the allocation
    still fails for capacity. *)
Lemma capacity_counts_merged_worktrees :
  (WorktreeManager.active_count nine_active
     < WorktreeManager.maxWorktrees nine_active)%nat /\
  capacity_error
    (fst (WorktreeManager.createEvolutionWorktree calm 2 nine_active
            "e10" "main" "Brahma")).
Proof.
  split.
  - vm_compute. lia.
  - eexists. split; [vm_compute; reflexivity | reflexivity].
Qed.

(** C6, as the code has it: after a successful cleanup the worktree is
    no longer tracked, and a second cleanup of the same id throws the
    not-found error without issuing a command or changing the registry. *)
Theorem second_cleanup_not_found :
  forall w now m worktreeId m',
    WorktreeManager.cleanupWorktree w now m worktreeId = (Ok tt, m') ->
    forall w' now',
      WorktreeManager.cleanupWorktree w' now' m' worktreeId
        = (Throw (WorktreeNotFound worktreeId), m').
Proof.
  intros w now m worktreeId m' Hclean w' now'.
  apply cleanup_ok in Hclean as (_ & Hws & _).
  unfold WorktreeManager.cleanupWorktree. by rewrite Hws, lookup_delete_eq.
Qed.

Lemma second_cleanup_not_found_witness :
  WorktreeManager.cleanupWorktree calm 2
    (snd (WorktreeManager.cleanupWorktree calm 1 one_worktree "evolution_e0_0"))
    "evolution_e0_0"
  = (Throw (WorktreeNotFound "evolution_e0_0"),
     snd (WorktreeManager.cleanupWorktree calm 1 one_worktree "evolution_e0_0")).
Proof.
  eapply (second_cleanup_not_found calm 1 one_worktree). reflexivity.
Defined.

(** C6 as stated fails: the second of two cleanups in a row throws. *)
Lemma second_cleanup_throws :
  exists m',
    WorktreeManager.cleanupWorktree calm 1 one_worktree "evolution_e0_0" = (Ok tt, m') /\
    fst (WorktreeManager.cleanupWorktree calm 2 m' "evolution_e0_0")
      = Throw (WorktreeNotFound "evolution_e0_0") /\
    classify (WorktreeNotFound "evolution_e0_0") = NotFound.
Proof. eexists. split; [reflexivity|]. split; reflexivity. Qed.

(** C7, as the code has it: once abandon has succeeded on an id, applying
    changes to it throws the not-active error (of the invalid-state kind)
    and changes nothing; abandon itself never throws an error of that
    kind: on a tracked id of any status it issues the checkout and the
    branch deletion, and when both succeed it returns and the status is
    [abandoned]. *)
Theorem abandon_then_apply_fails :
  (forall w now b mutationId reason b',
     MutationBrancher.abandonMutation w now b mutationId reason = (Ok tt, b') ->
     forall w' now' newChanges commitMessage,
       MutationBrancher.applyMutationChanges w' now' b' mutationId
         newChanges commitMessage
       = (Throw (MutationNotActive mutationId), b') /\
       classify (MutationNotActive mutationId) = InvalidState) /\
  (forall w now b mutationId reason,
     (forall e,
        fst (MutationBrancher.abandonMutation w now b mutationId reason) = Throw e ->
        classify e <> InvalidState) /\
     (forall mu,
        MutationBrancher.mutationBranches b !! mutationId = Some mu ->
        succeeds w (MutationBrancher.log b)
          (checkout (MutationBrancher.baseBranch mu)) = true ->
        succeeds w (MutationBrancher.log b ++ [checkout (MutationBrancher.baseBranch mu)])
          (deleteLocalBranch (MutationBrancher.branchName mu) true) = true ->
        exists b' mu',
          MutationBrancher.abandonMutation w now b mutationId reason = (Ok tt, b') /\
          MutationBrancher.mutationBranches b' !! mutationId = Some mu' /\
          MutationBrancher.mut_status mu' = MutationBrancher.abandoned)).
Proof.
  split.
  - intros w now b mutationId reason b' Hab w' now' ch msg.
    apply abandon_ok in Hab as (mu & Hmu & Hst). split; [|done].
    eapply apply_not_active; [exact Hmu|]. by rewrite Hst.
  - intros w now b mutationId reason. split.
    + intros e. apply abandon_never_invalid_state.
    + intros mu. apply abandon_any_status.
Qed.

Lemma abandon_then_apply_witness :
  MutationBrancher.applyMutationChanges calm 2
    (snd (MutationBrancher.abandonMutation calm 1 one_mutation "docs_0_ab" "Low fitness"))
    "docs_0_ab" ["change"] "message"
  = (Throw (MutationNotActive "docs_0_ab"),
     snd (MutationBrancher.abandonMutation calm 1 one_mutation "docs_0_ab" "Low fitness")).
Proof.
  eapply (proj1 (proj1 abandon_then_apply_fails calm 1 one_mutation
                   "docs_0_ab" "Low fitness" _ _ calm 2 ["change"] "message")).
  Unshelve. reflexivity.
Defined.

(** C7 as stated fails: abandon on a merged mutation is not rejected. *)
Lemma abandon_accepts_merged :
  (MutationBrancher.mut_status <$>
     MutationBrancher.mutationBranches merged_mutation !! "docs_0_ab")
    = Some MutationBrancher.merged /\
  fst (MutationBrancher.abandonMutation calm 2 merged_mutation
         "docs_0_ab" "Low fitness") = Ok tt.
Proof. split; reflexivity. Qed.

Lemma applyMutation_ok w now stats m worktreeId mutation commitMessage wt' m' :
  WorktreeManager.applyMutation w now stats m worktreeId mutation commitMessage
    = (Ok wt', m') ->
  exists wt entry,
    WorktreeManager.worktrees m !! worktreeId = Some wt /\
    WorktreeManager.worktrees m' !! worktreeId = Some wt' /\
    WorktreeManager.commits wt' = WorktreeManager.commits wt ++ [entry] /\
    WorktreeManager.mutations wt' = S (WorktreeManager.mutations wt) /\
    WorktreeManager.god wt' = WorktreeManager.god wt /\
    WorktreeManager.created wt' = WorktreeManager.created wt /\
    WorktreeManager.fitness wt'
      = WorktreeManager.calculateWorktreeFitness now stats
          (WorktreeManager.after_commit entry (WorktreeManager.fitness wt) wt).
Proof.
  unfold WorktreeManager.applyMutation.
  destruct (WorktreeManager.worktrees m !! worktreeId) as [wt|]; [|inversion 1].
  destruct (run w _ (WorktreeManager.log m)) as [[failed|] lg]; inversion 1; subst.
  do 2 eexists. split; [reflexivity|]. simpl. rewrite lookup_insert_eq.
  repeat split; reflexivity.
Qed.

(** C8, as the code has it: after a successful applyChanges the fitness
    is [clamp(0, 100, (10 * commits + 5 * changes + policyBonus) *
    timeDecay(age) + 2 * fileCount)]: the policy bonus is added before
    the decay is applied, the decay is [max(0.5, 1 - hours / 24)], and
    twice the number of files found in the worktree is added after it. *)
Theorem applyMutation_fitness :
  forall w now stats m worktreeId mutation commitMessage wt' m',
    WorktreeManager.applyMutation w now stats m worktreeId mutation commitMessage
      = (Ok wt', m') ->
    WorktreeManager.worktrees m' !! worktreeId = Some wt' /\
    (WorktreeManager.fitness wt' ==
     clamp 0 100
       ((count (length (WorktreeManager.commits wt')) * 10
         + count (WorktreeManager.mutations wt') * 5
         + policyBonus (WorktreeManager.god wt'))
        * timeDecay (hours (now - WorktreeManager.created wt'))
        + count (default 0%nat stats) * 2))%Q.
Proof.
  intros w now stats m worktreeId mutation commitMessage wt' m' H.
  apply applyMutation_ok in H as (wt & entry & _ & Hwt' & Hc & Hm & Hg & Hcr & Hf).
  split; [done|]. rewrite Hf, Hc, Hm, Hg, Hcr.
  unfold WorktreeManager.calculateWorktreeFitness, clamp, timeDecay, hours,
    count, policyBonus. simpl.
  apply Q.max_compat; [reflexivity|]. apply Q.min_compat; [reflexivity|].
  rewrite Qplus_0_l. reflexivity.
Qed.

Lemma applyMutation_fitness_witness :
  exists wt' m',
    WorktreeManager.applyMutation calm 43200000 (Some 0%nat) one_worktree
      "evolution_e0_0" a_mutation "msg" = (Ok wt', m') /\
    WorktreeManager.worktrees m' !! "evolution_e0_0" = Some wt' /\
    (WorktreeManager.fitness wt' == 35 # 2)%Q.
Proof.
  do 2 eexists. split; [reflexivity|].
  destruct (applyMutation_fitness calm 43200000 (Some 0%nat) one_worktree
              "evolution_e0_0" a_mutation "msg" _ _ eq_refl) as [H1 H2].
  split; [exact H1|]. rewrite H2. reflexivity.
Defined.

Lemma clamp_inside x v :
  (0 < v)%Q -> (v < 100)%Q -> (v == clamp 0 100 x)%Q -> (x == v)%Q.
Proof.
  unfold clamp. intros H0 H100.
  destruct (Q.min_spec 100 x) as [[? Emin] | [? Emin]];
    destruct (Q.max_spec 0 (Qmin 100 x)) as [[? Emax] | [? Emax]];
    rewrite Emax; rewrite ?Emin in *; intros E; lra.
Qed.

(** C8 as stated fails: no choice of [base], [timeDecay] and
    [policyBonus] makes the fitness [clamp(0, 100, base(commits, changes)
    * timeDecay(age) + policyBonus(tag))], even on the runs in which no
    file is counted: with one commit and one change, the tags Brahma and
    Shiva give 35 and 40 at age 0, and 17.5 and 20 at age 12 h, so their
    bonuses would differ by 5 and by 2.5. *)
Lemma fitness_is_not_base_times_decay_plus_bonus :
  ~ exists (base : nat -> nat -> Q) (decay : Z -> Q) (bonus : string -> Q),
      forall w now m worktreeId mutation commitMessage wt' m',
        WorktreeManager.applyMutation w now None m worktreeId mutation commitMessage
          = (Ok wt', m') ->
        (WorktreeManager.fitness wt' ==
         clamp 0 100
           (base (length (WorktreeManager.commits wt')) (WorktreeManager.mutations wt')
            * decay (now - WorktreeManager.created wt')%Z
            + bonus (WorktreeManager.god wt')))%Q.
Proof.
  intros (base & decay & bonus & H).
  pose proof (H calm 0 one_worktree
                "evolution_e0_0" a_mutation "msg" _ _ eq_refl) as B0.
  pose proof (H calm 0 shiva_worktree
                "evolution_e0_0" a_mutation "msg" _ _ eq_refl) as S0.
  pose proof (H calm 43200000 one_worktree
                "evolution_e0_0" a_mutation "msg" _ _ eq_refl) as B12.
  pose proof (H calm 43200000 shiva_worktree
                "evolution_e0_0" a_mutation "msg" _ _ eq_refl) as S12.
  simpl in B0, S0, B12, S12.
  change (0 - 0) with 0 in B0, S0.
  change (43200000 - 0) with 43200000 in B12, S12.
  match type of B0 with (?f == _)%Q =>
    assert (E : (f == 35)%Q) by (vm_compute; reflexivity); rewrite E in B0; clear E end.
  match type of S0 with (?f == _)%Q =>
    assert (E : (f == 40)%Q) by (vm_compute; reflexivity); rewrite E in S0; clear E end.
  match type of B12 with (?f == _)%Q =>
    assert (E : (f == 35 # 2)%Q) by (vm_compute; reflexivity); rewrite E in B12; clear E end.
  match type of S12 with (?f == _)%Q =>
    assert (E : (f == 20)%Q) by (vm_compute; reflexivity); rewrite E in S12; clear E end.
  apply clamp_inside in B0, S0, B12, S12; try lra.
Qed.

(** * Further properties of the selector *)

(** ** Dominance *)

Lemma scored_comparable i p c : comparable two_objectives (scored i p c).
Proof.
  intros o Ho. unfold two_objectives in Ho.
  repeat (apply elem_of_cons in Ho as [->|Ho]); [done | done | inversion Ho].
Qed.

(** X1: [dominates] is a strict partial order on solutions whose objective
    values are numbers: no solution dominates itself, two solutions never
    dominate each other, and dominance is transitive. *)
Theorem dominates_strict_order (objs : list objective) (s1 s2 s3 : solution) :
  comparable objs s1 -> comparable objs s2 -> comparable objs s3 ->
  dominates objs s1 s1 = false /\
  (dominates objs s1 s2 = true -> dominates objs s2 s1 = false) /\
  (dominates objs s1 s2 = true -> dominates objs s2 s3 = true ->
   dominates objs s1 s3 = true).
Proof.
  intros C1 C2 C3. split; [apply dominates_irrefl|].
  split; [apply dominates_asym|]. by apply dominates_trans.
Qed.

Lemma dominates_strict_order_witness :
  dominates two_objectives (scored "p" 3 1) (scored "q" 2 2) = true /\
  dominates two_objectives (scored "q" 2 2) (scored "r" 1 3) = true /\
  dominates two_objectives (scored "p" 3 1) (scored "r" 1 3) = true /\
  dominates two_objectives (scored "q" 2 2) (scored "p" 3 1) = false.
Proof.
  destruct (dominates_strict_order two_objectives
              (scored "p" 3 1) (scored "q" 2 2) (scored "r" 1 3))
    as (_ & Hasym & Htrans); try apply scored_comparable.
  assert (H12 : dominates two_objectives (scored "p" 3 1) (scored "q" 2 2) = true)
    by (vm_compute; reflexivity).
  assert (H23 : dominates two_objectives (scored "q" 2 2) (scored "r" 1 3) = true)
    by (vm_compute; reflexivity).
  split; [exact H12|]. split; [exact H23|].
  split; [exact (Htrans H12 H23) | exact (Hasym H12)].
Defined.

(** X2: a solution that has no number for any objective (the value is
    missing or NaN) is outside the order: it dominates nothing and nothing
    dominates it. *)
Theorem dominates_ignores_unvalued (objs : list objective) (s t : solution) :
  (forall o, o ∈ objs -> objective_value s (obj_id o) = NaN) ->
  dominates objs s t = false /\ dominates objs t s = false.
Proof.
  intros Hnan.
  assert (Hw : forall o, o ∈ objs -> worse o s t = false /\ worse o t s = false).
  { intros o Ho. unfold worse, gtb. rewrite (Hnan o Ho).
    destruct (maximize o), (objective_value t (obj_id o)); done. }
  split; apply not_true_iff_false; rewrite dominates_spec;
    intros [_ (o & Ho & Hb)]; destruct (Hw o Ho) as [H1 H2]; congruence.
Qed.

Lemma dominates_ignores_unvalued_witness :
  dominates two_objectives (evaluated "u" []) (scored "p" 3 1) = false /\
  dominates two_objectives (scored "p" 3 1) (evaluated "u" []) = false.
Proof.
  apply (dominates_ignores_unvalued two_objectives (evaluated "u" []) (scored "p" 3 1)).
  intros o Ho. unfold two_objectives in Ho.
  repeat (apply elem_of_cons in Ho as [->|Ho]); [done | done | inversion Ho].
Defined.

(** ** The layers built by the sort *)

(** What one step of the second phase does to the ranks: the locations it
    pushes get the rank of the next front, the others keep theirs. *)
Lemma release_rank population k nf h d nf' h' :
  (forall l, l ∈ population -> is_Some (h !! l)) ->
  release population k (nf, h) d = (nf', h') ->
  (forall l, is_Some (h' !! l) <-> is_Some (h !! l)) /\
  exists p, nf' = nf ++ p /\
    (forall l, l ∈ p -> rk h' l = S k) /\
    (forall l, l ∉ p -> rk h' l = rk h l).
Proof.
  intros Hal. unfold release.
  destruct (find_by_id h population d) as [x|] eqn:Ef.
  - assert (Hx : x ∈ population).
    { unfold find_by_id in Ef. apply find_some in Ef as [Hin _].
      by apply list_elem_of_In. }
    set (h1 := update _ x h).
    assert (Hal1 : is_Some (h1 !! x)) by (apply update_is_Some, Hal, Hx).
    destruct (dominationCount (evaluation (h1 !!! x)) =? 0) eqn:E0;
      intros [= <- <-].
    + split; [intros l; unfold h1; by rewrite !update_is_Some|].
      exists [x]. split; [done|]. split.
      * intros l ->%list_elem_of_singleton. unfold rk.
        rewrite update_lookup_eq by done. simpl. lia.
      * intros l Hl. rewrite list_elem_of_singleton in Hl. unfold rk, h1.
        rewrite !update_lookup_ne by done. done.
    + split; [intros l; unfold h1; by rewrite update_is_Some|].
      exists []. rewrite app_nil_r. split; [done|]. split; [inversion 1|].
      intros l _. unfold rk, h1.
      destruct (update_cases
        (fun e => set_dominationCount (dominationCount e - 1) e) x h l)
        as [-> | [_ ->]]; done.
  - intros [= <- <-]. split; [done|]. exists []. rewrite app_nil_r.
    split; [done|]. split; [inversion 1 | done].
Qed.

Lemma release_fold_rank population k ids nf h nf' h' :
  (forall l, l ∈ population -> is_Some (h !! l)) ->
  fold_left (release population k) ids (nf, h) = (nf', h') ->
  (forall l, is_Some (h' !! l) <-> is_Some (h !! l)) /\
  exists p, nf' = nf ++ p /\
    (forall l, l ∈ p -> rk h' l = S k) /\
    (forall l, l ∉ p -> rk h' l = rk h l).
Proof.
  revert nf h. induction ids as [|d ids IH]; intros nf h Hal.
  - simpl. intros [= <- <-]. split; [done|]. exists []. rewrite app_nil_r.
    split; [done|]. split; [inversion 1 | done].
  - change (fold_left ?f (d :: ids) ?a) with (fold_left f ids (f a d)).
    destruct (release population k (nf, h) d) as [nf1 h1] eqn:E1.
    destruct (release_rank _ _ _ _ _ _ _ Hal E1) as (Ha1 & p1 & -> & Hin1 & Hout1).
    intros E2. apply IH in E2 as (Ha2 & p2 & -> & Hin2 & Hout2).
    2:{ intros l Hl. apply Ha1, Hal, Hl. }
    split; [intros l; by rewrite Ha2, Ha1|].
    exists (p1 ++ p2). rewrite app_assoc. split; [done|]. split.
    + intros l Hl. destruct (decide (l ∈ p2)) as [H2|H2]; [by apply Hin2|].
      rewrite Hout2 by done. apply Hin1.
      apply elem_of_app in Hl as [?|?]; done.
    + intros l Hl. rewrite elem_of_app in Hl.
      rewrite Hout2, Hout1; tauto.
Qed.

Lemma process_front_rank population k front h next h' :
  (forall l, l ∈ population -> is_Some (h !! l)) ->
  process_front population k front h = (next, h') ->
  (forall l, l ∈ next -> rk h' l = S k) /\
  (forall l, l ∉ next -> rk h' l = rk h l).
Proof.
  unfold process_front. intros Hal E.
  enough (G : forall nf h nf' h',
    (forall l, l ∈ population -> is_Some (h !! l)) ->
    fold_left
      (fun acc s =>
         fold_left (release population k)
           (dominatedSolutions (evaluation (snd acc !!! s))) acc)
      front (nf, h) = (nf', h') ->
    exists p, nf' = nf ++ p /\
      (forall l, l ∈ p -> rk h' l = S k) /\
      (forall l, l ∉ p -> rk h' l = rk h l)).
  { destruct (G _ _ _ _ Hal E) as (p & -> & Hin & Hout). done. }
  clear. induction front as [|s front IH]; intros nf h nf' h' Hal.
  - simpl. intros [= <- <-]. exists []. rewrite app_nil_r.
    split; [done|]. split; [inversion 1 | done].
  - change (fold_left ?f (s :: front) ?a) with (fold_left f front (f a s)).
    cbv beta. change (snd (nf, h)) with h.
    destruct (fold_left (release population k)
                (dominatedSolutions (evaluation (h !!! s))) (nf, h))
      as [nf1 h1] eqn:E1.
    destruct (release_fold_rank _ _ _ _ _ _ _ Hal E1)
      as (Ha1 & p1 & -> & Hin1 & Hout1).
    intros E2. apply IH in E2 as (p2 & -> & Hin2 & Hout2).
    2:{ intros l Hl. apply Ha1, Hal, Hl. }
    exists (p1 ++ p2). rewrite app_assoc. split; [done|]. split.
    + intros l Hl. destruct (decide (l ∈ p2)) as [H2|H2]; [by apply Hin2|].
      rewrite Hout2 by done. apply Hin1.
      apply elem_of_app in Hl as [?|?]; done.
    + intros l Hl. rewrite elem_of_app in Hl.
      rewrite Hout2, Hout1; tauto.
Qed.

(** The first phase only sets a rank when it puts a location in the
    first front, and the rank is 0. *)
Lemma compare_with_rank objs s h other :
  (forall l, rk (compare_with objs s h other) l = rk h l) /\
  (forall l, is_Some (compare_with objs s h other !! l) <-> is_Some (h !! l)).
Proof.
  unfold compare_with.
  destruct (String.eqb _ _); [done|].
  destruct (dominates objs (h !!! s) (h !!! other)).
  { split; intros l; [|by rewrite update_is_Some]. unfold rk.
    destruct (update_cases
      (fun e => set_dominatedSolutions
                  (set_add (id (h !!! other)) (dominatedSolutions e)) e) s h l)
      as [-> | [_ ->]]; done. }
  destruct (dominates objs (h !!! other) (h !!! s)); [|done].
  split; intros l; [|by rewrite update_is_Some]. unfold rk.
  destruct (update_cases
    (fun e => set_dominationCount (dominationCount e + 1) e) s h l)
    as [-> | [_ ->]]; done.
Qed.

Lemma compare_with_fold_rank objs s L h :
  (forall l, rk (fold_left (compare_with objs s) L h) l = rk h l) /\
  (forall l, is_Some (fold_left (compare_with objs s) L h !! l) <-> is_Some (h !! l)).
Proof.
  revert h. induction L as [|o L IH]; intros h; [done|].
  change (fold_left ?f (o :: L) ?a) with (fold_left f L (f a o)).
  destruct (IH (compare_with objs s h o)) as [H1 H2].
  destruct (compare_with_rank objs s h o) as [H3 H4].
  split; intros l; [by rewrite H1, H3 | by rewrite H2, H4].
Qed.

Lemma init_solution_rank objs P front h s front' h' :
  is_Some (h !! s) ->
  (forall l, l ∈ front -> rk h l = 0%nat) ->
  init_solution objs P (front, h) s = (front', h') ->
  (forall l, l ∈ front' -> rk h' l = 0%nat) /\
  (forall l, is_Some (h' !! l) <-> is_Some (h !! l)).
Proof.
  intros Hs HJ. unfold init_solution.
  set (h1 := update (set_dominationCount 0) s h).
  set (h2 := update (set_dominatedSolutions []) s h1).
  set (h3 := fold_left (compare_with objs s) P h2).
  assert (Hrk : forall l, rk h3 l = rk h l).
  { intros l. unfold h3. destruct (compare_with_fold_rank objs s P h2) as [-> _].
    unfold rk, h2, h1.
    destruct (update_cases (set_dominatedSolutions []) s
                (update (set_dominationCount 0) s h) l) as [-> | [_ ->]];
      destruct (update_cases (set_dominationCount 0) s h l) as [-> | [_ ->]];
      done. }
  assert (Hal : forall l, is_Some (h3 !! l) <-> is_Some (h !! l)).
  { intros l. unfold h3. destruct (compare_with_fold_rank objs s P h2) as [_ ->].
    unfold h2, h1. by rewrite !update_is_Some. }
  destruct (dominationCount (evaluation (h3 !!! s)) =? 0); intros [= <- <-].
  - split; [|intros l; by rewrite update_is_Some].
    intros l Hl. unfold rk.
    destruct (decide (l = s)) as [->|Hne].
    + rewrite update_lookup_eq; [done | by apply Hal].
    + rewrite update_lookup_ne by done.
      apply elem_of_app in Hl as [Hl | Hl%list_elem_of_singleton]; [|done].
      fold (rk h3 l). rewrite Hrk. by apply HJ.
  - split; [|done]. intros l Hl. rewrite Hrk. by apply HJ.
Qed.

Lemma init_fold_rank objs P L front h front' h' :
  (forall l, l ∈ L -> is_Some (h !! l)) ->
  (forall l, l ∈ front -> rk h l = 0%nat) ->
  fold_left (init_solution objs P) L (front, h) = (front', h') ->
  forall l, l ∈ front' -> rk h' l = 0%nat.
Proof.
  revert front h. induction L as [|s L IH]; intros front h Hal HJ.
  - simpl. by intros [= <- <-].
  - change (fold_left ?f (s :: L) ?a) with (fold_left f L (f a s)).
    destruct (init_solution objs P (front, h) s) as [front1 h1] eqn:E1.
    apply init_solution_rank in E1 as [HJ1 Hal1]; [|apply Hal; left|done].
    apply IH; [|done]. intros l Hl. apply Hal1, Hal. by right.
Qed.

Section Layers.
Variable objs : list objective.
Variable h0 : gmap loc solution.
Variable P : list loc.

Local Abbreviation D := (dominates_at objs h0).
Local Abbreviation Inv := (Inv objs h0 P).
Local Abbreviation layered := (layered objs h0 P).

Hypothesis P_alloc : forall l, l ∈ P -> is_Some (h0 !! l).
Hypothesis P_ids : NoDup (ident h0 <$> P).
Hypothesis P_comparable : forall l, l ∈ P -> comparable objs (h0 !!! l).

(** The front made from [cur] extends the layers. *)
Lemma layered_snoc pre cur next h h' :
  Inv pre cur h -> Inv (pre ++ [cur]) next h' ->
  layered (pre ++ [cur]) -> layered ((pre ++ [cur]) ++ [next]).
Proof.
  intros HI HI' HL k F s Hk Hs.
  destruct (decide (k < length (pre ++ [cur]))%nat) as [Hlt|Hge].
  - rewrite lookup_app_l in Hk by done.
    destruct (HL k F s Hk Hs) as [H1 H2]. split.
    + intros o Ho Hd. rewrite take_app_le by lia. by apply H1.
    + intros k' ->. destruct (H2 k' eq_refl) as (G & o & HG & Ho & Hd).
      exists G, o. split; [|done]. rewrite lookup_app_l; [done|].
      by apply lookup_lt_Some in HG.
  - assert (k = length (pre ++ [cur])) as ->.
    { apply lookup_lt_Some in Hk. rewrite length_app in Hk. simpl in Hk. lia. }
    rewrite list_lookup_middle in Hk by done. injection Hk as <-.
    destruct HI as [_ _ _ Hsub _ Hmem].
    destruct HI' as [_ _ ND' Hsub' _ Hmem'].
    assert (HsP : s ∈ P).
    { apply Hsub', elem_of_app. by right. }
    assert (Hall : forall o, o ∈ P -> D o s = true -> o ∈ concat (pre ++ [cur])).
    { apply ndom_out_zero, Hmem'; [done|]. apply elem_of_app. by right. }
    split.
    + intros o Ho Hd. rewrite take_app_length. by apply Hall.
    + intros k' Hk'. rewrite length_app in Hk'. simpl in Hk'.
      assert (k' = length pre) as -> by lia.
      assert (Hnot : s ∉ concat pre ++ cur).
      { rewrite <- concat_snoc. apply NoDup_app in ND' as (_ & Hdis & _).
        intros Hin. by apply (Hdis s Hin). }
      assert (Hne : ndom_out objs h0 P (concat pre) s <> 0%nat).
      { intros Hz. by apply Hnot, Hmem. }
      unfold ndom_out in Hne.
      destruct (filter (λ o, D o s = true /\ o ∉ concat pre) P) as [|o rest] eqn:Ef;
        [done|].
      assert (Ho : o ∈ filter (λ o, D o s = true /\ o ∉ concat pre) P)
        by (rewrite Ef; left).
      apply list_elem_of_filter in Ho as [[Hd Hout] HoP].
      exists cur, o. split; [by rewrite lookup_app_l, list_lookup_middle
                               by (rewrite ?length_app; simpl; lia)|].
      split; [|done].
      specialize (Hall o HoP Hd). rewrite concat_snoc in Hall.
      apply elem_of_app in Hall as [?|?]; done.
Qed.

Lemma ranked_snoc pre cur next h h' :
  Inv (pre ++ [cur]) next h' ->
  (forall l, l ∈ next -> rk h' l = S (length pre)) ->
  (forall l, l ∉ next -> rk h' l = rk h l) ->
  ranked h (pre ++ [cur]) -> ranked h' ((pre ++ [cur]) ++ [next]).
Proof.
  intros [_ _ ND' _ _ _] Hin Hout HR k F s Hk Hs.
  destruct (decide (k < length (pre ++ [cur]))%nat) as [Hlt|Hge].
  - rewrite lookup_app_l in Hk by done.
    rewrite Hout; [by eapply HR|].
    apply NoDup_app in ND' as (_ & Hdis & _). apply Hdis.
    apply concat_lookup. by exists k, F.
  - assert (k = length (pre ++ [cur])) as ->.
    { apply lookup_lt_Some in Hk. rewrite length_app in Hk. simpl in Hk. lia. }
    rewrite list_lookup_middle in Hk by done. injection Hk as <-.
    rewrite Hin by done. rewrite length_app. simpl. lia.
Qed.

Lemma build_fronts_layers fuel pre cur h fronts h' :
  Inv pre cur h -> layered (pre ++ [cur]) -> ranked h (pre ++ [cur]) ->
  Forall (fun F => F <> []) pre ->
  build_fronts fuel P (pre ++ [cur]) (length pre) h = Some (fronts, h') ->
  layered fronts /\ ranked h' fronts /\
  exists rest, fronts = pre ++ cur :: rest /\ Forall (fun F => F <> []) rest.
Proof.
  revert pre cur h. induction fuel as [|fuel IH]; intros pre cur h HI HL HR Hne;
    [done|].
  simpl. rewrite list_lookup_middle by done.
  destruct (0 <? length cur)%nat eqn:Hcur.
  - apply Nat.ltb_lt in Hcur.
    destruct (process_front_inv objs h0 P P_alloc P_ids pre cur h HI)
      as (next & h1 & E & HI').
    rewrite E.
    destruct (process_front_rank P (length pre) cur h next h1) as [Hin Hout];
      [|done|].
    { intros l Hl. destruct HI as [Hst _ _ _ _ _]. by eapply static_alloc. }
    destruct (0 <? length next)%nat eqn:Hnext.
    + apply Nat.ltb_lt in Hnext. intros E'.
      replace (S (length pre)) with (length (pre ++ [cur])) in E'
        by (rewrite length_app; simpl; lia).
      apply IH in E' as (HL' & HR' & rest & -> & Hrest); try done.
      * split; [done|]. split; [done|].
        exists (next :: rest). rewrite <- app_assoc. split; [done|].
        constructor; [|done]. intros ->. simpl in Hnext. lia.
      * by eapply layered_snoc.
      * by eapply ranked_snoc.
      * apply Forall_app. split; [done|]. constructor; [|done].
        intros ->. simpl in Hcur. lia.
    + intros [= <- <-]. split; [done|]. split.
      * intros k F s Hk Hs. rewrite Hout; [by eapply HR|].
        apply Nat.ltb_ge in Hnext. destruct next; [inversion 1|simpl in Hnext; lia].
      * exists []. done.
  - intros [= <- <-]. split; [done|]. split; [done|]. by exists [].
Qed.
End Layers.

Lemma sorted_layers (st : optimizer) (P : list loc) :
  (forall l, l ∈ P -> is_Some (heap st !! l)) ->
  NoDup ((fun l => id (heap st !!! l)) <$> P) ->
  (forall l o, l ∈ P -> o ∈ this_objectives st ->
     objective_value (heap st !!! l) (obj_id o) <> NaN) ->
  exists front0 rest st',
    fastNonDominatedSort st P = Some (front0 :: rest, st') /\
    layered (this_objectives st) (heap st) P (front0 :: rest) /\
    ranked (heap st') (front0 :: rest) /\
    NoDup (concat (front0 :: rest)) /\
    (P <> [] -> front0 <> []) /\
    Forall (fun F => F <> []) rest.
Proof.
  intros Halloc Hids Hcomp.
  set (objs := this_objectives st). set (h0 := heap st).
  assert (Hcomp' : forall l, l ∈ P -> comparable objs (h0 !!! l)).
  { intros l Hl o Ho. by apply Hcomp. }
  destruct (init_solution_fold objs h0 P Halloc Hids P [] h0)
    as (h1 & E1 & Hst1 & _ & Hok1);
    [done | by eapply P_NoDup | apply static_refl |].
  rewrite app_nil_l in E1.
  set (front0 := filter (λ s, ndom objs h0 P s = 0%nat) P) in *.
  assert (HI : Inv objs h0 P [] front0 h1).
  { split; simpl.
    - done.
    - intros s Hs. by apply Hok1.
    - apply NoDup_filter. by eapply P_NoDup.
    - intros x Hx. by apply list_elem_of_filter in Hx as [_ ?].
    - intros s Hs. rewrite ndom_out_nil. by apply Hok1.
    - intros s Hs. rewrite ndom_out_nil. unfold front0.
      rewrite list_elem_of_filter. tauto. }
  destruct (build_fronts_correct objs h0 P Halloc Hids Hcomp' (S (length P))
              [] front0 h1 HI)
    as (fronts & h' & E & Hpre & Hperm & Hst); [simpl; lia|].
  assert (HL0 : layered objs h0 P ([] ++ [front0])).
  { intros k F s Hk Hs. destruct k as [|k]; [|done].
    simpl in Hk. injection Hk as <-. split; [|done].
    intros o Ho Hd. apply list_elem_of_filter in Hs as [Hz _].
    pose proof (proj1 (ndom_zero objs h0 P s) Hz o Ho) as Hz'.
    unfold dominates_at in Hd. rewrite Hz' in Hd. done. }
  assert (HR0 : ranked h1 ([] ++ [front0])).
  { intros k F s Hk Hs. destruct k as [|k]; [|done].
    simpl in Hk. injection Hk as <-.
    eapply (init_fold_rank objs P P [] h0); [done | inversion 1 | exact E1 | done]. }
  destruct (build_fronts_layers objs h0 P Halloc Hids (S (length P))
              [] front0 h1 fronts h' HI HL0 HR0)
    as (HL & HR & rest & -> & Hrest); [constructor | exact E |].
  change ([] ++ front0 :: rest) with (front0 :: rest) in *.
  change ([] ++ [front0]) with [front0] in E.
  change (length (@nil (list loc))) with 0%nat in E.
  exists front0, rest. eexists.
  unfold fastNonDominatedSort. fold objs h0. rewrite E1, E.
  split; [reflexivity|]. simpl.
  split; [done|]. split; [done|].
  split; [rewrite Hperm; by eapply P_NoDup|].
  split; [|done].
  intros HP.
  destruct (minimal_member objs h0 P Hcomp' P) as (u & Hu & Hmin); [done|done|].
  intros Hempty.
  assert (Hin : u ∈ front0).
  { apply list_elem_of_filter. split; [|done]. apply ndom_zero.
    intros o Ho. by apply Hmin. }
  rewrite Hempty in Hin. inversion Hin.
Qed.

(** X3: the fronts returned by [fastNonDominatedSort] are the layers of
    the dominance order.  Every member of the population that dominates
    a member of front [k] sits in an earlier front, so that members of
    one front do not dominate one another; every member of a front
    after the first is dominated by a member of the front just before;
    and no front is empty, unless the population is. *)
Theorem fastNonDominatedSort_layers :
  forall (st : optimizer) (P : list loc),
    (forall l, l ∈ P -> is_Some (heap st !! l)) ->
    NoDup ((fun l => id (heap st !!! l)) <$> P) ->
    (forall l o, l ∈ P -> o ∈ this_objectives st ->
       objective_value (heap st !!! l) (obj_id o) <> NaN) ->
    exists fronts st',
      fastNonDominatedSort st P = Some (fronts, st') /\
      (forall k F s o, fronts !! k = Some F -> s ∈ F -> o ∈ P ->
         dominates (this_objectives st) (heap st !!! o) (heap st !!! s) = true ->
         o ∈ concat (take k fronts) /\ o ∉ F) /\
      (forall k F s, fronts !! (S k) = Some F -> s ∈ F ->
         exists G o, fronts !! k = Some G /\ o ∈ G /\
           dominates (this_objectives st) (heap st !!! o) (heap st !!! s) = true) /\
      (P <> [] -> Forall (fun F => F <> []) fronts).
Proof.
  intros st P Halloc Hids Hcomp.
  destruct (sorted_layers st P Halloc Hids Hcomp)
    as (front0 & rest & st' & E & HL & _ & ND & Hne0 & Hrest).
  exists (front0 :: rest), st'. split; [done|]. split; [|split].
  - intros k F s o Hk Hs Ho Hd.
    destruct (HL k F s Hk Hs) as [Hearlier _].
    specialize (Hearlier o Ho Hd). split; [done|]. intros HoF.
    apply concat_lookup in Hearlier as (j & G & Hj & HoG).
    assert (Hjk : (j < k)%nat).
    { apply lookup_take_Some in Hj. lia. }
    rewrite lookup_take_lt in Hj by done.
    assert (j = k) by (eapply unique_front; eauto). lia.
  - intros k F s Hk Hs. destruct (HL (S k) F s Hk Hs) as [_ Hprev].
    by apply Hprev.
  - intros HP. constructor; [by apply Hne0 | done].
Qed.

Lemma fastNonDominatedSort_layers_witness :
  exists fronts st',
    fastNonDominatedSort five_solutions five_locations = Some (fronts, st') /\
    (forall k F s, fronts !! (S k) = Some F -> s ∈ F ->
       exists G o, fronts !! k = Some G /\ o ∈ G /\
         dominates (this_objectives five_solutions)
           (heap five_solutions !!! o) (heap five_solutions !!! s) = true).
Proof.
  destruct (fastNonDominatedSort_layers five_solutions five_locations)
    as (fronts & st' & E & _ & H & _).
  - apply five_allocated.
  - apply five_distinct.
  - intros l o Hl Ho. by apply finite_not_NaN, five_finite.
  - exists fronts, st'. split; [exact E | exact H].
Defined.

(** X4: after [fastNonDominatedSort], the [rank] stored in every member
    of the population is the index of the front that holds it. *)
Theorem fastNonDominatedSort_ranks :
  forall (st : optimizer) (P : list loc),
    (forall l, l ∈ P -> is_Some (heap st !! l)) ->
    NoDup ((fun l => id (heap st !!! l)) <$> P) ->
    (forall l o, l ∈ P -> o ∈ this_objectives st ->
       objective_value (heap st !!! l) (obj_id o) <> NaN) ->
    exists fronts st',
      fastNonDominatedSort st P = Some (fronts, st') /\
      forall s, s ∈ P ->
        exists F, fronts !! rank (evaluation (heap st' !!! s)) = Some F /\ s ∈ F.
Proof.
  intros st P Halloc Hids Hcomp.
  destruct (sorted_layers st P Halloc Hids Hcomp)
    as (front0 & rest & st' & E & _ & HR & _).
  destruct (sorted_fronts st P Halloc Hids Hcomp)
    as (front0' & rest' & st'' & E' & _ & _ & _ & _ & Hperm).
  rewrite E in E'. injection E' as <- <- <-.
  exists (front0 :: rest), st'. split; [done|].
  intros s Hs. rewrite <- Hperm in Hs.
  apply concat_lookup in Hs as (k & F & Hk & HsF).
  exists F. split; [|done].
  pose proof (HR k F s Hk HsF) as HF. unfold rk in HF. by rewrite HF.
Qed.

Lemma fastNonDominatedSort_ranks_witness :
  exists fronts st',
    fastNonDominatedSort five_solutions five_locations = Some (fronts, st') /\
    forall s, s ∈ five_locations ->
      exists F, fronts !! rank (evaluation (heap st' !!! s)) = Some F /\ s ∈ F.
Proof.
  apply (fastNonDominatedSort_ranks five_solutions five_locations).
  - apply five_allocated.
  - apply five_distinct.
  - intros l o Hl Ho. by apply finite_not_NaN, five_finite.
Defined.

(** ** Crowding distance: small fronts and signs *)

(** X5: on a front of at most two members [calculateCrowdingDistance]
    gives every member the distance [Infinity] and leaves the front in
    the order it had. *)
Theorem calculateCrowdingDistance_small_front
    (objs : list objective) (F : list loc) (h : gmap loc solution) :
  (forall l, l ∈ F -> is_Some (h !! l)) ->
  (length F <= 2)%nat ->
  exists h',
    calculateCrowdingDistance objs F h = (F, h') /\
    forall l, l ∈ F -> cd h' l = PosInf.
Proof.
  intros Hal Hlen. unfold calculateCrowdingDistance.
  apply Nat.leb_le in Hlen. rewrite Hlen.
  eexists. split; [reflexivity|].
  intros l Hl. apply (fold_set_cd h); [|done|done].
  apply fold_set_static, static_refl.
Qed.

Lemma calculateCrowdingDistance_small_front_witness :
  exists h',
    calculateCrowdingDistance (this_objectives five_solutions) [0; 1]%nat
      (heap five_solutions) = ([0; 1]%nat, h') /\
    forall l, l ∈ [0; 1]%nat -> cd h' l = PosInf.
Proof.
  apply (calculateCrowdingDistance_small_front
           (this_objectives five_solutions) [0; 1]%nat (heap five_solutions)).
  - intros l Hl. apply five_allocated.
    repeat (apply elem_of_cons in Hl as [->|Hl]);
      [by apply (bool_decide_unpack _) | by apply (bool_decide_unpack _) | inversion Hl].
  - simpl. lia.
Defined.



Section CrowdingSign.
Variable up : bool.
Variable objs : list objective.
Variable h0 : gmap loc solution.
Variable F : list loc.

Hypothesis F_alloc : forall l, l ∈ F -> is_Some (h0 !! l).
Hypothesis F_finite : forall l o, l ∈ F -> o ∈ objs ->
  is_finite (objective_value (h0 !!! l) (obj_id o)).
Hypothesis one_direction : forall o, o ∈ objs -> maximize o = up.









End CrowdingSign.



(** ** Selection keeps to the population *)

(** X7: on a population that has just been sorted, [selection] returns
    members of the population, none of them twice; it leaves the ids and
    the objective values of all objects as they were, and the fronts it
    keeps in [paretoFronts] are the sorted ones up to the order within
    each front. *)
Theorem selection_selects_members_once :
  forall (st : optimizer) (P : list loc) (N : nat),
    (forall l, l ∈ P -> is_Some (heap st !! l)) ->
    NoDup ((fun l => id (heap st !!! l)) <$> P) ->
    (forall l o, l ∈ P -> o ∈ this_objectives st ->
       is_finite (objective_value (heap st !!! l) (obj_id o))) ->
    exists fronts st1 selected st2,
      fastNonDominatedSort st P = Some (fronts, st1) /\
      selection st1 P N = Some (selected, st2) /\
      NoDup selected /\
      (forall s, s ∈ selected -> s ∈ P) /\
      Forall2 (≡ₚ) (paretoFronts st2) fronts /\
      (forall l, id (heap st2 !!! l) = id (heap st !!! l) /\
         objectives (evaluation (heap st2 !!! l))
           = objectives (evaluation (heap st !!! l))).
Proof.
  intros st P N Halloc Hids Hfin.
  destruct (sorted_fronts st P Halloc Hids)
    as (front0 & rest & st1 & E & Hpf & Hobjs & Hst & _ & Hperm).
  { intros l o Hl Ho. by apply finite_not_NaN, Hfin. }
  set (fronts := front0 :: rest) in *.
  assert (HND : NoDup (concat fronts)).
  { rewrite Hperm. by eapply P_NoDup. }
  assert (Hsub : forall F l, F ∈ fronts -> l ∈ F -> l ∈ P).
  { intros F l HF Hl. rewrite <- Hperm.
    apply list_elem_of_lookup in HF as [k Hk]. apply concat_lookup. by exists k, F. }
  assert (Hrefl : Forall2 (≡ₚ) (paretoFronts st1) fronts).
  { rewrite Hpf. clear. induction fronts; by constructor. }
  destruct (selection_loop_spec (this_objectives st) (heap st) P fronts
              Halloc Hfin Hsub (length fronts) st1 N [] 0)
    as (np & k & st' & Eloop & Hobjs' & Hst' & Hfs' & Hk & Hnp & HN & Hnofit);
    try done.
  { unfold fronts. simpl. lia. } { simpl. lia. }
  assert (Hlen' : length (paretoFronts st') = length fronts)
    by (by eapply Forall2_length).
  assert (Hnp_perm : np ≡ₚ concat (take k fronts)).
  { rewrite Hnp. apply concat_perm. by apply Forall2_take. }
  exists fronts, st1.
  unfold selection. rewrite Hpf. fold fronts. rewrite Eloop.
  assert (Hstatic : forall h, static (heap st) h ->
    forall l, id (h !!! l) = id (heap st !!! l) /\
      objectives (evaluation (h !!! l)) = objectives (evaluation (heap st !!! l))).
  { intros h [_ Hs] l. apply Hs. }
  destruct ((length np <? N)%nat && (k <? length (paretoFronts st'))%nat) eqn:Emore.
  - apply andb_true_iff in Emore as [_ Hklt%Nat.ltb_lt].
    destruct (lookup_lt_is_Some_2 (paretoFronts st') k) as [Fk HFk]; [lia|].
    destruct (lookup_lt_is_Some_2 fronts k) as [F0 HF0]; [lia|].
    assert (HpermFk : Fk ≡ₚ F0).
    { eapply (Forall2_lookup_lr (≡ₚ) (paretoFronts st') fronts k); eassumption. }
    rewrite HFk.
    destruct (front_calc (this_objectives st) (heap st) P fronts
                Halloc Hfin Hsub st' Fk F0)
      as (F' & h' & Ecalc & HF' & Hsth' & Hproper); try done.
    { eapply list_elem_of_lookup_2; eauto. }
    rewrite Ecalc.
    set (last := sort (by_crowding h') F').
    assert (Hlast : last ≡ₚ F0) by (unfold last; by rewrite sort_perm).
    assert (Hall : np ++ last ≡ₚ concat (take (S k) fronts)).
    { rewrite (take_S_r _ _ _ HF0), concat_app. simpl. rewrite app_nil_r.
      by rewrite Hnp_perm, Hlast. }
    assert (HND' : NoDup (np ++ last)).
    { rewrite Hall. apply (sublist_NoDup _ (concat fronts)); [exact HND|].
      rewrite <- (take_drop (S k) fronts) at 2. rewrite concat_app.
      by apply sublist_inserts_r. }
    eexists _, _. split; [exact E|]. split; [reflexivity|].
    split; [|split; [|split]].
    + apply (sublist_NoDup _ (np ++ last)); [exact HND'|].
      apply sublist_app; [done|]. apply sublist_take.
    + intros s [Hs|Hs]%elem_of_app.
      * rewrite Hnp_perm in Hs. apply concat_lookup in Hs as (j & G & Hj & HsG).
        apply lookup_take_Some in Hj as [Hj _].
        apply (Hsub G); [|done]. eapply list_elem_of_lookup_2; eauto.
      * apply (Hsub F0); [eapply list_elem_of_lookup_2; eauto|].
        rewrite <- Hlast. eapply elem_of_sublist; [exact Hs | apply sublist_take].
    + simpl. rewrite <- (list_insert_id fronts k F0 HF0).
      apply Forall2_insert; [done|]. done.
    + simpl. by apply Hstatic.
  - exists np, st'. split; [done|]. split; [done|].
    split; [|split; [|split]].
    + rewrite Hnp_perm. apply (sublist_NoDup _ (concat fronts)); [exact HND|].
      rewrite <- (take_drop k fronts) at 2. rewrite concat_app.
      by apply sublist_inserts_r.
    + intros s Hs. rewrite Hnp_perm in Hs.
      apply concat_lookup in Hs as (j & G & Hj & HsG).
      apply lookup_take_Some in Hj as [Hj _].
      apply (Hsub G); [|done]. eapply list_elem_of_lookup_2; eauto.
    + done.
    + by apply Hstatic.
Qed.

Lemma selection_selects_members_once_witness :
  exists fronts st1 selected st2,
    fastNonDominatedSort five_solutions five_locations = Some (fronts, st1) /\
    selection st1 five_locations 3 = Some (selected, st2) /\
    NoDup selected /\
    (forall s, s ∈ selected -> s ∈ five_locations).
Proof.
  destruct (selection_selects_members_once five_solutions five_locations 3)
    as (fronts & st1 & selected & st2 & E1 & E2 & ND & Hsub & _).
  - apply five_allocated.
  - apply five_distinct.
  - apply five_finite.
  - exists fronts, st1, selected, st2.
    split; [exact E1|]. split; [exact E2|]. split; [exact ND | exact Hsub].
Defined.

(** ** Blending the properties of two parents *)






(** ** The registered objectives *)

Lemma map_set_ids c objs :
  obj_id <$> map_set c objs
  = if decide (obj_id c ∈ obj_id <$> objs) then obj_id <$> objs
    else (obj_id <$> objs) ++ [obj_id c].
Proof.
  induction objs as [|o objs IH]; cbn [map_set].
  - rewrite fmap_nil. case_decide as H; [inversion H | done].
  - destruct (String.eqb (obj_id o) (obj_id c)) eqn:E.
    + apply String.eqb_eq in E. rewrite !fmap_cons, E.
      destruct (decide (obj_id c ∈ obj_id c :: (obj_id <$> objs))) as [_|H];
        [reflexivity|]. exfalso. apply H. left.
    + apply String.eqb_neq in E. rewrite !fmap_cons, IH.
      destruct (decide (obj_id c ∈ obj_id <$> objs)) as [H|H];
        destruct (decide (obj_id c ∈ obj_id o :: (obj_id <$> objs))) as [H'|H'];
        try reflexivity.
      * exfalso. apply H'. by right.
      * apply elem_of_cons in H' as [?|?]; [congruence | done].
Qed.


Lemma with_objectives_same st : with_objectives (this_objectives st) st = st.
Proof. by destruct st. Qed.





(** X10: [removeObjective] answers [true] exactly when the id was
    registered; afterwards the id is gone and the other objectives are
    untouched, a second removal answers [false] and changes nothing, and
    removing an objective that was just added under a new id gives the
    registered objectives back as they were. *)
Theorem removeObjective_forgets (st : optimizer) (id : string) :
  let ids := obj_id <$> this_objectives st in
  let '(removed, st') := removeObjective st id in
  (removed = true <-> id ∈ ids) /\
  obj_id <$> this_objectives st' = filter (fun i => i <> id) ids /\
  (forall o, o ∈ this_objectives st' <-> o ∈ this_objectives st /\ obj_id o <> id) /\
  removeObjective st' id = (false, st') /\
  (forall defaultEvaluationFunction objective st1,
     id ∉ ids ->
     addObjective defaultEvaluationFunction st id objective = Some st1 ->
     removeObjective st1 id = (true, st)).
Proof.
  intros ids. unfold removeObjective.
  assert (Hfilter : forall objs,
    obj_id <$> map_delete id objs = filter (fun i => i <> id) (obj_id <$> objs)).
  { intros objs. unfold map_delete. induction objs as [|o objs IH]; [done|].
    rewrite fmap_cons, !filter_cons.
    destruct (decide (obj_id o <> id)); [rewrite fmap_cons|]; by rewrite IH. }
  assert (Hgone : forall objs, id ∉ obj_id <$> map_delete id objs).
  { intros objs. rewrite Hfilter. intros [H _]%list_elem_of_filter. done. }
  assert (Hkeep : forall objs, id ∉ obj_id <$> objs -> map_delete id objs = objs).
  { intros objs Hout. unfold map_delete. induction objs as [|o objs IH]; [done|].
    rewrite fmap_cons, not_elem_of_cons in Hout. destruct Hout as [Hne Hout].
    rewrite filter_cons. destruct (decide (obj_id o <> id)) as [_|H];
      [by rewrite IH | by destruct H]. }
  assert (Hround : forall defaultEvaluationFunction objective st1,
     id ∉ ids ->
     addObjective defaultEvaluationFunction st id objective = Some st1 ->
     (if decide (id ∈ obj_id <$> this_objectives st1)
      then (true, with_objectives (map_delete id (this_objectives st1)) st1)
      else (false, st1)) = (true, st)).
  { intros d objective st1 Hout. unfold addObjective.
    destruct (arg_name objective) as [name|]; [|done].
    destruct (arg_maximize objective) as [m|]; [|done].
    destruct (String.eqb name ""); [done|]. intros [= <-].
    cbn [this_objectives with_objectives].
    set (c := {| obj_id := id; maximize := m;
                 evaluationFunction := _; history := [] |}).
    pose proof (map_set_ids c (this_objectives st)) as Hids.
    change (obj_id c) with id in Hids. fold ids in Hids.
    destruct (decide (id ∈ ids)) as [?|_]; [done|].
    rewrite Hids. case_decide as H.
    2:{ exfalso. apply H, elem_of_app. right. left. }
    f_equal. unfold with_objectives. cbn [solutions paretoFronts generations heap].
    assert (Hshape : map_set c (this_objectives st) = this_objectives st ++ [c]).
    { clear -Hout. unfold ids in Hout.
      induction (this_objectives st) as [|o objs IH]; [done|]. simpl.
      rewrite fmap_cons, not_elem_of_cons in Hout. destruct Hout as [Hne Hout].
      destruct (String.eqb (obj_id o) id) eqn:E;
        [apply String.eqb_eq in E; congruence|].
      by rewrite IH. }
    rewrite Hshape. unfold map_delete. rewrite filter_app.
    fold (map_delete id (this_objectives st)). rewrite (Hkeep _ Hout).
    rewrite filter_cons, filter_nil.
    destruct (decide (obj_id c <> id)) as [Hc|_]; [by destruct Hc|].
    rewrite app_nil_r. by destruct st. }
  destruct (decide (id ∈ obj_id <$> this_objectives st)) as [Hin|Hout].
  - cbn [this_objectives with_objectives].
    split; [done|]. split; [apply Hfilter|]. split; [|split].
    + intros o. unfold map_delete. rewrite list_elem_of_filter. tauto.
    + case_decide as H; [by apply Hgone in H | done].
    + intros d objective st1 Hnot. done.
  - split; [split; [done | by intros ?]|]. split; [|split; [|split]].
    + unfold ids. by rewrite <- Hfilter, (Hkeep _ Hout).
    + intros o. split; [|tauto]. intros Ho. split; [done|]. intros <-.
      apply Hout. apply list_elem_of_fmap. by exists o.
    + by case_decide.
    + apply Hround.
Qed.

(** ** Tournament, mutation and offspring *)

Lemma pick_member (population : list loc) (r : Q) :
  population <> [] -> (0 <= r)%Q -> (r < 1)%Q ->
  exists c, pick population r = Some c /\ c ∈ population.
Proof.
  intros Hne H0 H1. unfold pick.
  set (len := Z.of_nat (length population)).
  assert (Hlen : 0 < len).
  { unfold len. destruct population; [done | simpl; lia]. }
  assert (Hlo : 0 <= Qfloor (r * inject_Z len)).
  { change 0 with (Qfloor 0). apply Qfloor_resp_le.
    apply Qmult_le_0_compat; [done|]. change 0%Q with (inject_Z 0).
    rewrite <- Zle_Qle. lia. }
  assert (Hhi : Qfloor (r * inject_Z len) < len).
  { rewrite Zlt_Qlt. eapply Qle_lt_trans; [apply Qfloor_le|].
    assert (Hpos : (0 < inject_Z len)%Q).
    { change 0%Q with (inject_Z 0). rewrite <- Zlt_Qlt. lia. }
    nra. }
  destruct (lookup_lt_is_Some_2 population (Z.to_nat (Qfloor (r * inject_Z len))))
    as [c Hc]; [unfold len in *; lia|].
  exists c. split; [done|]. eapply list_elem_of_lookup_2; eauto.
Qed.

Lemma draw_tournament_spec population k random n :
  draw_tournament population k random n
  = ((fun i => pick population (random (n + i)%nat)) <$> seq 0 k, (n + k)%nat).
Proof.
  revert n. induction k as [|k IH]; intros n; simpl.
  - by rewrite Nat.add_0_r.
  - rewrite IH. rewrite Nat.add_0_r. f_equal; [|lia]. f_equal.
    rewrite <- fmap_S_seq, <- list_fmap_compose. apply list_fmap_ext.
    intros i x _. simpl. f_equal. f_equal. lia.
Qed.

(** The candidates of a tournament on a population with members. *)
Lemma tournament_candidates population k random n :
  population <> [] ->
  (forall i, (0 <= random i)%Q /\ (random i < 1)%Q) ->
  exists cands,
    fst (draw_tournament population k random n) = Some <$> cands /\
    length cands = k /\
    (forall c, c ∈ cands <->
       exists i, (i < k)%nat /\ pick population (random (n + i)%nat) = Some c) /\
    (forall c, c ∈ cands -> c ∈ population).
Proof.
  intros Hne Hr. rewrite draw_tournament_spec. simpl.
  induction k as [|k IH].
  - exists []. split; [done|]. split; [done|]. split.
    + intros c. split; [inversion 1 | intros (i & Hi & _); lia].
    + inversion 1.
  - destruct IH as (cands & E & Hlen & Hmem & Hsub).
    destruct (Hr (n + k)%nat) as [H0 H1].
    destruct (pick_member population (random (n + k)%nat) Hne H0 H1) as (c & Hc & Hin).
    exists (cands ++ [c]). rewrite seq_S, !fmap_app, E. simpl. rewrite Hc.
    split; [done|]. split; [rewrite length_app; simpl; lia|]. split.
    + intros x. rewrite elem_of_app, Hmem, list_elem_of_singleton. split.
      * intros [(i & Hi & Hp) | ->]; [exists i; split; [lia|done] | exists k; split; [lia|done]].
      * intros (i & Hi & Hp). destruct (decide (i = k)) as [->|Hne'].
        -- right. congruence.
        -- left. exists i. split; [lia|done].
    + intros x [Hx | ->%list_elem_of_singleton]%elem_of_app; [by apply Hsub | done].
Qed.

Lemma omap_Some_fmap {A} (l : list A) : omap (fun c => c) (Some <$> l) = l.
Proof. induction l as [|x l IH]; [done|]. rewrite fmap_cons. simpl. by f_equal. Qed.

Lemma tournamentSelection_member h population k random n :
  population <> [] -> (0 < k)%nat ->
  (forall i, (0 <= random i)%Q /\ (random i < 1)%Q) ->
  exists winner cands,
    tournamentSelection h population k random n = (Some winner, (n + k)%nat) /\
    sort (by_rank_then_crowding h) cands !! 0%nat = Some winner /\
    length cands = k /\
    (forall c, c ∈ cands <->
       exists i, (i < k)%nat /\ pick population (random (n + i)%nat) = Some c) /\
    (forall c, c ∈ cands -> c ∈ population).
Proof.
  intros Hne Hk Hr.
  destruct (tournament_candidates population k random n Hne Hr)
    as (cands & E & Hlen & Hmem & Hsub).
  unfold tournamentSelection.
  destruct (draw_tournament population k random n) as [tournament n'] eqn:Ed.
  pose proof (draw_tournament_spec population k random n) as Hspec.
  rewrite Ed in Hspec. injection Hspec as _ ->.
  simpl in E. subst tournament. rewrite omap_Some_fmap.
  destruct (sort (by_rank_then_crowding h) cands) as [|w rest] eqn:Es.
  { pose proof (sort_length (by_rank_then_crowding h) cands) as Hl.
    rewrite Es in Hl. simpl in Hl. lia. }
  exists w, cands. rewrite Es. done.
Qed.

Lemma not_after_iff h a b :
  proper (cd h a) -> proper (cd h b) ->
  by_rank_then_crowding h a b = false <->
  (rk h a < rk h b)%nat \/
  (rk h a = rk h b /\ ltb (cd h a) (cd h b) = false).
Proof.
  intros Ha Hb. unfold by_rank_then_crowding. fold (rk h a) (rk h b).
  destruct (rk h a =? rk h b)%nat eqn:E; cbn [negb].
  - apply Nat.eqb_eq in E.
    change (gtb (sub (crowdingDistance (evaluation (h !!! b)))
                     (crowdingDistance (evaluation (h !!! a)))) zero)
      with (by_crowding h a b).
    rewrite by_crowding_ltb by done. split; [by right | intros [?|[_ ?]]; [lia|done]].
  - apply Nat.eqb_neq in E. rewrite Nat.ltb_ge. split; [left; lia | intros [?|[? _]]; lia].
Qed.

(** X11: on a population with members, [tournamentSelection] returns a
    member of the population that was drawn for the tournament, and no
    drawn candidate is better: none has a lower rank, and none of the
    same rank has a larger crowding distance. *)
Theorem tournamentSelection_returns_best
    (h : gmap loc solution) (population : list loc) (tournamentSize : nat)
    (random : rng) (n : nat) :
  population <> [] -> (0 < tournamentSize)%nat ->
  (forall i, (0 <= random i)%Q /\ (random i < 1)%Q) ->
  (forall l, l ∈ population -> proper (cd h l)) ->
  exists winner,
    tournamentSelection h population tournamentSize random n
      = (Some winner, (n + tournamentSize)%nat) /\
    winner ∈ population /\
    (exists i, (i < tournamentSize)%nat /\
       pick population (random (n + i)%nat) = Some winner) /\
    forall i c, (i < tournamentSize)%nat ->
      pick population (random (n + i)%nat) = Some c ->
      (rk h winner <= rk h c)%nat /\
      (rk h winner = rk h c -> ltb (cd h winner) (cd h c) = false).
Proof.
  intros Hne Hk Hr Hp.
  destruct (tournamentSelection_member h population tournamentSize random n Hne Hk Hr)
    as (w & cands & E & Hw & Hlen & Hmem & Hsub).
  assert (Hwin : w ∈ cands).
  { rewrite <- (sort_perm (by_rank_then_crowding h) cands).
    eapply list_elem_of_lookup_2; eauto. }
  exists w. split; [done|]. split; [by apply Hsub|]. split; [by apply Hmem|].
  intros i c Hi Hc.
  assert (Hcin : c ∈ cands) by (apply Hmem; eauto).
  assert (Hsorted : StronglySorted (fun a b => by_rank_then_crowding h a b = false)
                      (sort (by_rank_then_crowding h) cands)).
  { apply (sort_sorted _ (fun l => proper (cd h l))).
    - intros x y Hx Hy Hxy.
      apply not_after_iff; [done|done|].
      destruct (by_rank_then_crowding h y x) eqn:Eyx; [|by apply not_after_iff].
      exfalso. unfold by_rank_then_crowding in Hxy, Eyx.
      fold (rk h x) (rk h y) in Hxy, Eyx. rewrite (Nat.eqb_sym (rk h y)) in Eyx.
      destruct (rk h x =? rk h y)%nat eqn:Er; cbn [negb] in Hxy, Eyx.
      + change (by_crowding h x y = true) in Hxy.
        change (by_crowding h y x = true) in Eyx.
        rewrite by_crowding_ltb in Hxy, Eyx by done.
        apply ltb_asym in Hxy. congruence.
      + apply Nat.ltb_lt in Hxy, Eyx. lia.
    - intros x y z Hx Hy Hz. rewrite !not_after_iff by done.
      intros [H1|[H1 H1']] [H2|[H2 H2']]; try (left; lia).
      right. split; [lia|].
      eapply ltb_neg_trans; [| | | exact H1' | exact H2']; by apply proper_not_NaN.
    - apply Forall_forall. intros l Hl. by apply Hp, Hsub. }
  destruct (sort (by_rank_then_crowding h) cands) as [|w' rest] eqn:Es; [done|].
  simpl in Hw. injection Hw as ->.
  apply StronglySorted_inv in Hsorted as [_ Hall].
  assert (Hc' : c ∈ w :: rest).
  { rewrite <- Es. by rewrite sort_perm. }
  apply elem_of_cons in Hc' as [->|Hc'].
  - split; [lia|]. intros _. apply ltb_irrefl.
  - rewrite Forall_forall in Hall. specialize (Hall c Hc').
    apply not_after_iff in Hall; [|by apply Hp, Hsub | by apply Hp, Hsub].
    destruct Hall as [?|[? ?]]; split; try lia; done.
Qed.

Lemma quarter_draws : forall i, (0 <= quarter i)%Q /\ (quarter i < 1)%Q.
Proof. intros i. split; [unfold Qle; simpl; lia | reflexivity]. Qed.

Lemma five_parents_proper l : l ∈ five_locations -> proper (cd (heap five_parents) l).
Proof.
  intros Hl. unfold five_locations in Hl.
  repeat (apply elem_of_cons in Hl as [->|Hl]); try (by inversion Hl);
    right; by exists 0%Q.
Qed.

Lemma tournamentSelection_returns_best_witness :
  exists winner,
    tournamentSelection (heap five_parents) five_locations 3 quarter 0
      = (Some winner, 3%nat) /\
    winner ∈ five_locations.
Proof.
  destruct (tournamentSelection_returns_best (heap five_parents) five_locations 3
              quarter 0) as (w & E & Hin & _).
  - done.
  - lia.
  - apply quarter_draws.
  - apply five_parents_proper.
  - exists w. split; [exact E | exact Hin].
Defined.

(** *** mutate *)





(** *** generateOffspring *)





(** ** Hypervolume *)

Lemma normalized_unit (o : objective) (v : Q) :
  (0 <= v)%Q -> (v <= 100)%Q ->
  exists q,
    JSMath.max zero (normalizedValue o (Fin v)) = Fin q /\ (0 <= q)%Q /\ (q <= 1)%Q.
Proof.
  intros H0 H1. unfold normalizedValue, JSMath.max, zero.
  destruct (maximize o); cbn [sub add neg div].
  - change (Qeq_bool 100 0) with false. cbn [ltb].
    destruct (Qltb 0 (v / 100)) eqn:E.
    + exists (v / 100)%Q. split; [done|]. apply Qltb_lt in E.
      split; [lra|]. apply Qle_shift_div_r; lra.
    + exists 0%Q. split; [done|]. split; lra.
  - change (Qeq_bool 100 0) with false. cbn [ltb].
    destruct (Qltb 0 ((100 + - v) / 100)) eqn:E.
    + exists ((100 + - v) / 100)%Q. split; [done|]. apply Qltb_lt in E.
      split; [lra|]. apply Qle_shift_div_r; lra.
    + exists 0%Q. split; [done|]. split; lra.
Qed.

Lemma solutionVolume_unit (objs : list objective) (s : solution) :
  (forall o, o ∈ objs ->
     exists v, objective_value s (obj_id o) = Fin v /\ (0 <= v)%Q /\ (v <= 100)%Q) ->
  exists q, solutionVolume objs s = Fin q /\ (0 <= q)%Q /\ (q <= 1)%Q.
Proof.
  intros Hv. unfold solutionVolume.
  enough (G : forall a, (0 <= a)%Q -> (a <= 1)%Q ->
    exists q,
      fold_left
        (fun solutionVolume o =>
           mul solutionVolume
             (JSMath.max zero (normalizedValue o (objective_value s (obj_id o)))))
        objs (Fin a) = Fin q /\ (0 <= q)%Q /\ (q <= 1)%Q).
  { apply G; lra. }
  induction objs as [|o objs IH]; intros a Ha0 Ha1.
  - exists a. done.
  - cbn [fold_left].
    destruct (Hv o) as (v & -> & Hv0 & Hv1); [left|].
    destruct (normalized_unit o v Hv0 Hv1) as (f & -> & Hf0 & Hf1).
    cbn [mul]. apply IH.
    + intros o' Ho'. apply Hv. by right.
    + nra.
    + nra.
Qed.

(** X14: when the objective values of the front lie between 0 and 100,
    the hypervolume that [calculateHypervolume] returns lies between 0
    and 1; it is 0 for an empty front. *)
Theorem calculateHypervolume_unit_interval
    (objs : list objective) (h : gmap loc solution) (paretoFront : list loc) :
  (forall l o, l ∈ paretoFront -> o ∈ objs ->
     exists v, objective_value (h !!! l) (obj_id o) = Fin v /\
       (0 <= v)%Q /\ (v <= 100)%Q) ->
  calculateHypervolume objs h [] = Fin 0 /\
  exists q, calculateHypervolume objs h paretoFront = Fin q /\
    (0 <= q)%Q /\ (q <= 1)%Q.
Proof.
  intros Hv. split; [done|]. unfold calculateHypervolume.
  destruct paretoFront as [|l0 front0] eqn:Efront; [exists 0%Q; split; [done|split; lra]|].
  rewrite <- Efront in *. clear Efront l0 front0.
  destruct (length paretoFront =? 0)%nat eqn:Elen; [exists 0%Q; split; [done|split; lra]|].
  apply Nat.eqb_neq in Elen.
  assert (G : forall front a,
    (forall l, l ∈ front -> l ∈ paretoFront) -> (0 <= a)%Q ->
    exists t,
      fold_left (fun volume l => add volume (solutionVolume objs (h !!! l)))
        front (Fin a) = Fin t /\
      (0 <= t)%Q /\ (t <= a + inject_Z (Z.of_nat (length front)))%Q).
  { induction front as [|l front IH]; intros a Hsub Ha.
    - exists a. split; [done|]. split; [done|]. cbn [length]. change (inject_Z (Z.of_nat 0)) with 0%Q. lra.
    - cbn [fold_left].
      destruct (solutionVolume_unit objs (h !!! l)) as (q & -> & Hq0 & Hq1).
      { intros o Ho. apply Hv; [|done]. apply Hsub. left. }
      cbn [add].
      destruct (IH (a + q)%Q) as (t & E & Ht0 & Ht1).
      { intros l' Hl'. apply Hsub. by right. }
      { lra. }
      exists t. split; [done|]. split; [done|].
      cbn [length]. rewrite Nat2Z.inj_succ, <- Z.add_1_r, inject_Z_plus.
      change (inject_Z 1) with 1%Q. lra. }
  destruct (G paretoFront 0%Q) as (t & E & Ht0 & Ht1); [done|lra|].
  unfold zero. rewrite E. unfold of_Z. cbn [div].
  set (k := inject_Z (Z.of_nat (length paretoFront))) in *.
  assert (Hk : (0 < k)%Q).
  { unfold k. change 0%Q with (inject_Z 0). rewrite <- Zlt_Qlt. lia. }
  destruct (Qeq_bool k 0) eqn:Ek.
  { apply Qeq_bool_iff in Ek. lra. }
  exists (t / k)%Q. split; [done|]. split.
  - apply Qle_shift_div_l; lra.
  - apply Qle_shift_div_r; lra.
Qed.

Lemma calculateHypervolume_unit_interval_witness :
  exists q,
    calculateHypervolume (this_objectives five_solutions) (heap five_solutions)
      five_locations = Fin q /\ (0 <= q)%Q /\ (q <= 1)%Q.
Proof.
  apply (calculateHypervolume_unit_interval (this_objectives five_solutions)
           (heap five_solutions) five_locations).
  intros l o Hl Ho. unfold five_locations in Hl. simpl in Ho.
  repeat (apply elem_of_cons in Hl as [->|Hl]); try (by inversion Hl);
    repeat (apply elem_of_cons in Ho as [->|Ho]); try (by inversion Ho);
    eexists; (split; [vm_compute; reflexivity|]);
    split; unfold Qle; simpl; lia.
Defined.

(** ** The generations of [optimize] *)

Lemma generation_step_generations name now blessed populationSize gen st population
    random n population' st' n' :
  generation_step name now blessed populationSize gen st population random n
    = Some (population', st', n') ->
  generations st' = S gen.
Proof.
  unfold generation_step.
  destruct (fastNonDominatedSort st population) as [[? st1]|]; [|done].
  destruct (generateOffspring _ _ _ _ _ _ _ _) as [[brood|] n1]; [|done].
  destruct (allocate_children st1 brood) as [locs st2].
  destruct (fastNonDominatedSort _ _) as [[? st3]|]; [|done].
  destruct (selection _ _ _) as [[selected st4]|]; [|done].
  by intros [= <- <- <-].
Qed.

Lemma generations_loop_throws remaining name now blessed populationSize gen st
    population random n :
  (gen < 5)%nat -> (5 <= gen + remaining)%nat ->
  generations_loop remaining name now blessed populationSize gen st population
    random n = None.
Proof.
  revert gen st population n.
  induction remaining as [|k IH]; intros gen st population n Hgen Hrem; [lia|].
  cbn [generations_loop].
  destruct (generation_step _ _ _ _ _ _ _ _ _) as [[[population' st'] n']|] eqn:E;
    [|done].
  apply generation_step_generations in E.
  destruct (reportGenerationProgress st' population'); [|done].
  unfold hasConverged. rewrite E.
  destruct (S gen <? 5)%nat eqn:E5; [|done].
  apply Nat.ltb_lt in E5. apply IH; lia.
Qed.

(** X15: [optimize] never returns a result when it is asked for five
    generations or more: if nothing throws before, the convergence check
    of the fifth generation reads [evolutionHistory], which the
    constructor does not set, and throws. *)
Theorem optimize_throws_from_five_generations
    (name : Z -> Q -> string) (now : Z) (blessed : string -> bool)
    (populationSize : nat) (st : optimizer) (initialPopulation : list loc)
    (generations : nat) (random : rng) (n : nat) :
  (5 <= generations)%nat ->
  optimize name now blessed populationSize st initialPopulation generations
    random n = None.
Proof.
  intros H5. unfold optimize.
  rewrite generations_loop_throws; [done | lia | lia].
Qed.

Lemma optimize_throws_from_five_generations_witness :
  optimize (fun _ _ => "child") 0 (fun _ => true) 4 five_parents five_locations 10
    quarter 0 = None.
Proof.
  apply (optimize_throws_from_five_generations (fun _ _ => "child") 0
           (fun _ => true) 4 five_parents five_locations 10 quarter 0).
  lia.
Defined.

(** * Further properties of the worktree registry *)

Section WorktreeRegistry.
Import WorktreeManager.

Lemma calculateWorktreeFitness_bounds now stats wt :
  (0 <= calculateWorktreeFitness now stats wt)%Q /\
  (calculateWorktreeFitness now stats wt <= 100)%Q.
Proof.
  unfold calculateWorktreeFitness. split.
  - apply Q.le_max_l.
  - apply Q.max_lub; [lra | apply Q.le_min_l].
Qed.

Lemma manager_ok_with_log lg m : manager_ok m -> manager_ok (with_log lg m).
Proof. done. Qed.

Lemma manager_ok_insert m k wt :
  manager_ok m -> worktree_ok k wt ->
  (is_Some (worktrees m !! k) \/ (size (worktrees m) < 10)%nat) ->
  manager_ok (with_worktrees (<[k := wt]> (worktrees m)) m).
Proof.
  intros (Hmax & Hsize & Hall) Hwt Hroom. split; [done|]. split.
  - simpl. destruct (worktrees m !! k) as [old|] eqn:E.
    + rewrite map_size_insert_Some by (by rewrite E). done.
    + rewrite map_size_insert_None by done. destruct Hroom as [[? ?]|?]; [done|lia].
  - simpl. by apply map_Forall_insert_2.
Qed.

Lemma reachable_manager_ok m : manager_reachable m -> manager_ok m.
Proof.
  induction 1 as [repoPath
    | w now m evolutionId baseBranch godName _ IH
    | w now stats m worktreeId mutation commitMessage _ IH
    | w now m worktreeId targetBranch fitnessThreshold _ IH
    | w now m worktreeId _ IH].
  - split; [done|]. split; [simpl; rewrite map_size_empty; lia|].
    apply map_Forall_empty.
  - unfold createEvolutionWorktree.
    destruct (maxWorktrees m <=? size (worktrees m))%nat eqn:Efull; [done|].
    apply Nat.leb_gt in Efull.
    destruct (run w _ (log m)) as [[failed|] lg]; [done|]. simpl.
    apply (manager_ok_insert (with_log lg m)); [done| |].
    + split; [done|]. split; [done|]. split; [simpl; lra|].
      split; [simpl; lra | done].
    + right. destruct IH as (Hmax & _). simpl. lia.
  - unfold applyMutation.
    destruct (worktrees m !! worktreeId) as [wt|] eqn:E; [|done].
    destruct (run w _ (log m)) as [[failed|] lg]; [done|]. simpl.
    destruct IH as (Hmax & Hsize & Hall).
    destruct (Hall worktreeId wt E) as (Hid & Hst & _ & _ & Hmut).
    apply (manager_ok_insert (with_log lg m)); [done| |].
    + split; [done|]. split; [done|].
      split; [apply calculateWorktreeFitness_bounds|].
      split; [apply calculateWorktreeFitness_bounds|].
      simpl. rewrite length_app, Hmut. simpl. lia.
    + left. simpl. by rewrite E.
  - unfold mergeEvolution.
    destruct (worktrees m !! worktreeId) as [wt|] eqn:E; [|done].
    destruct (Qltb (fitness wt) fitnessThreshold); [done|].
    destruct IH as (Hmax & Hsize & Hall).
    destruct (Hall worktreeId wt E) as (Hid & Hst & Hf0 & Hf1 & Hmut).
    destruct (run w _ (log m)) as [[failed|] lg]; simpl;
      apply (manager_ok_insert (with_log lg m)); try done;
      try (left; simpl; by rewrite E).
  - unfold cleanupWorktree.
    destruct (worktrees m !! worktreeId) as [wt|] eqn:E; [|done].
    destruct (succeeds w (log m) _); [|done]. simpl.
    destruct IH as (Hmax & Hsize & Hall). split; [done|]. split.
    + simpl. rewrite map_size_delete_Some by (by rewrite E). lia.
    + simpl. by apply map_Forall_delete.
Qed.

Lemma allocate_reachable l m :
  manager_reachable m -> manager_reachable (fold_left allocate l m).
Proof.
  revert m. induction l as [|e l IH]; intros m Hm; [done|].
  simpl. apply IH. unfold allocate. by apply reach_createEvolutionWorktree.
Qed.

Lemma nine_active_reachable : manager_reachable nine_active.
Proof.
  unfold nine_active. apply reach_mergeEvolution. unfold ten_worktrees.
  apply allocate_reachable. apply reach_new_manager.
Qed.
End WorktreeRegistry.

(** X16: whatever the environment answers, a manager built by the
    constructor and the operations never tracks more than 10 worktrees,
    and every worktree it tracks is stored under its own id, is not
    marked cleaned, has a fitness between 0 and 100, and has applied as
    many mutations as it has commits. *)
Theorem reachable_manager_invariant (m : WorktreeManager.manager) :
  manager_reachable m ->
  WorktreeManager.maxWorktrees m = 10%nat /\
  (size (WorktreeManager.worktrees m) <= WorktreeManager.maxWorktrees m)%nat /\
  forall k wt, WorktreeManager.worktrees m !! k = Some wt ->
    WorktreeManager.id wt = k /\
    WorktreeManager.wt_status wt <> WorktreeManager.cleaned /\
    (0 <= WorktreeManager.fitness wt)%Q /\ (WorktreeManager.fitness wt <= 100)%Q /\
    WorktreeManager.mutations wt = length (WorktreeManager.commits wt).
Proof.
  intros Hm. destruct (reachable_manager_ok m Hm) as (Hmax & Hsize & Hall).
  split; [done|]. split; [lia|]. intros k wt Hk. exact (Hall k wt Hk).
Qed.

Lemma reachable_manager_invariant_witness :
  (size (WorktreeManager.worktrees nine_active) <= 10)%nat /\
  forall k wt, WorktreeManager.worktrees nine_active !! k = Some wt ->
    WorktreeManager.id wt = k.
Proof.
  destruct (reachable_manager_invariant nine_active nine_active_reachable)
    as (Hmax & Hsize & Hall).
  split; [by rewrite Hmax in Hsize|].
  intros k wt Hk. by destruct (Hall k wt Hk).
Defined.

Lemma filter_bool_filter {A} (f : A -> bool) (l : list A) :
  List.filter f l = filter (fun x => f x = true) l.
Proof.
  induction l as [|x l IH]; [done|]. simpl. rewrite filter_cons, IH.
  destruct (f x); by destruct (decide _).
Qed.

Lemma size_filter_values {A} (P : A -> Prop) {dec : forall x, Decision (P x)}
    (P' : string * A -> Prop) {dec' : forall kv, Decision (P' kv)}
    (m : gmap string A) :
  (forall kv, P' kv <-> P (snd kv)) ->
  size (filter P' m) = length (filter P (map_to_list m).*2).
Proof.
  intros HP. induction m as [|k x m Hk _ IH] using map_first_key_ind.
  - by rewrite map_filter_empty, map_to_list_empty.
  - rewrite map_to_list_insert by done. rewrite fmap_cons, filter_cons. simpl.
    destruct (decide (P x)) as [Hx|Hx].
    + rewrite map_filter_insert_True by (by apply HP).
      rewrite map_size_insert_None; [simpl; by rewrite IH|].
      apply map_lookup_filter_None. by left.
    + rewrite map_filter_insert_False by (by rewrite HP).
      by rewrite delete_id.
Qed.

Section WorktreeWalks.
Import WorktreeManager.

Lemma listed_tracked m values wt :
  lists_worktrees m values ->
  wt ∈ values <-> exists k, worktrees m !! k = Some wt.
Proof.
  intros Hl. unfold lists_worktrees in Hl. rewrite Hl, list_elem_of_fmap. split.
  - intros ([k wt'] & -> & Hin). exists k. by apply elem_of_map_to_list.
  - intros (k & Hk). exists (k, wt). split; [done|]. by apply elem_of_map_to_list.
Qed.

Lemma listed_length m values :
  lists_worktrees m values -> length values = size (worktrees m).
Proof.
  intros Hl. unfold lists_worktrees in Hl.
  by rewrite Hl, length_fmap, length_map_to_list.
Qed.

Lemma listed_ok m values :
  manager_reachable m -> lists_worktrees m values ->
  Forall (fun wt => exists k, worktrees m !! k = Some wt /\ worktree_ok k wt) values.
Proof.
  intros Hm Hl. apply Forall_forall. intros wt Hwt.
  apply (listed_tracked m values wt Hl) in Hwt as [k Hk].
  exists k. split; [done|]. by apply (reachable_manager_ok m Hm).
Qed.

Lemma count_by_status values :
  Forall (fun wt => wt_status wt <> cleaned) values ->
  length values
  = (with_status_count active values + with_status_count merged values
     + with_status_count merge_failed values)%nat.
Proof.
  unfold with_status_count. induction 1 as [|wt values Hwt _ IH]; [done|].
  simpl. destruct (wt_status wt); try done; simpl; lia.
Qed.

Lemma fold_mutations_commits values :
  Forall (fun wt => mutations wt = length (commits wt)) values ->
  forall a,
    fold_left (fun sum wt => sum + mutations wt)%nat values a
    = fold_left (fun sum wt => sum + length (commits wt))%nat values a.
Proof.
  induction 1 as [|wt values Hwt _ IH]; intros a; [done|].
  simpl. by rewrite Hwt, IH.
Qed.

Lemma fold_fitness_bounds values :
  Forall (fun wt => (0 <= fitness wt)%Q /\ (fitness wt <= 100)%Q) values ->
  forall a,
    (a <= fold_left (fun sum wt => sum + fitness wt) values a)%Q /\
    (fold_left (fun sum wt => sum + fitness wt) values a
     <= a + 100 * inject_Z (Z.of_nat (length values)))%Q.
Proof.
  induction 1 as [|wt values [H0 H1] _ IH]; intros a.
  - cbn [fold_left length]. change (inject_Z (Z.of_nat 0)) with 0%Q. split; lra.
  - cbn [fold_left length]. destruct (IH (a + fitness wt)%Q) as [Hlo Hhi].
    rewrite Nat2Z.inj_succ, <- Z.add_1_r, inject_Z_plus.
    change (inject_Z 1) with 1%Q. split; lra.
Qed.
End WorktreeWalks.

(** X17: for a manager built by the constructor and the operations,
    [getWorktreesStatus] accounts for every tracked worktree: the total
    is the size of the registry and the sum of the active, merged and
    failed counts, the mutation total equals the commit total, and the
    average fitness lies between 0 and 100 (it is 0 for an empty
    registry). *)
Theorem getWorktreesStatus_accounts
    (m : WorktreeManager.manager) (values : list WorktreeManager.worktree) :
  manager_reachable m -> lists_worktrees m values ->
  let s := WorktreeManager.getWorktreesStatus values in
  WorktreeManager.status_total s = size (WorktreeManager.worktrees m) /\
  WorktreeManager.status_total s
    = (WorktreeManager.status_active s + WorktreeManager.status_merged s
       + WorktreeManager.status_failed s)%nat /\
  WorktreeManager.status_active s = WorktreeManager.active_count m /\
  WorktreeManager.status_totalMutations s = WorktreeManager.status_totalCommits s /\
  (0 <= WorktreeManager.status_averageFitness s)%Q /\
  (WorktreeManager.status_averageFitness s <= 100)%Q /\
  (values = [] -> WorktreeManager.status_averageFitness s == 0)%Q.
Proof.
  intros Hm Hl s.
  pose proof (listed_ok m values Hm Hl) as Hok.
  split; [by apply listed_length|]. split; [|split; [|split]].
  - apply count_by_status. eapply Forall_impl; [exact Hok|].
    by intros wt (k & _ & _ & ? & _).
  - unfold s. cbn [WorktreeManager.status_active WorktreeManager.getWorktreesStatus].
    unfold WorktreeManager.with_status_count, WorktreeManager.active_count.
    rewrite filter_bool_filter.
    rewrite (size_filter_values
               (fun wt => WorktreeManager.wt_status wt = WorktreeManager.active)
               (dec := fun wt => WorktreeManager.status_eq_dec
                                   (WorktreeManager.wt_status wt)
                                   WorktreeManager.active))
      by done.
    unfold lists_worktrees in Hl. rewrite <- Hl.
    f_equal. apply list_filter_iff. intros wt. by rewrite bool_decide_eq_true.
  - apply fold_mutations_commits. eapply Forall_impl; [exact Hok|].
    by intros wt (k & _ & _ & _ & _ & _ & ?).
  - unfold s. cbn [WorktreeManager.status_averageFitness
                   WorktreeManager.getWorktreesStatus].
    destruct (0 <? length values)%nat eqn:Elen.
    + apply Nat.ltb_lt in Elen.
      destruct (fold_fitness_bounds values) with (a := 0%Q) as [Hlo Hhi].
      { eapply Forall_impl; [exact Hok|]. by intros wt (k & _ & _ & _ & ? & ? & _). }
      set (k := inject_Z (Z.of_nat (length values))) in *.
      assert (Hk : (0 < k)%Q).
      { unfold k. change 0%Q with (inject_Z 0). rewrite <- Zlt_Qlt. lia. }
      split; [apply Qle_shift_div_l; lra|].
      split; [apply Qle_shift_div_r; lra|].
      intros ->. simpl in Elen. lia.
    + split; [lra|]. split; [lra|]. done.
Qed.

Lemma getWorktreesStatus_accounts_witness :
  let s := WorktreeManager.getWorktreesStatus
             (map_to_list (WorktreeManager.worktrees nine_active)).*2 in
  WorktreeManager.status_total s = 10%nat /\
  WorktreeManager.status_active s = 9%nat /\
  WorktreeManager.status_merged s = 1%nat.
Proof.
  destruct (getWorktreesStatus_accounts nine_active
              (map_to_list (WorktreeManager.worktrees nine_active)).*2
              nine_active_reachable) as (Htotal & _ & Hactive & _).
  - unfold lists_worktrees. reflexivity.
  - split; [rewrite Htotal; vm_compute; reflexivity|].
    split; [rewrite Hactive|]; vm_compute; reflexivity.
Defined.

Section WorktreePruning.
Import WorktreeManager.

Lemma cleanup_registry w now m k :
  worktrees (snd (cleanupWorktree w now m k)) = worktrees m \/
  worktrees (snd (cleanupWorktree w now m k)) = delete k (worktrees m).
Proof.
  unfold cleanupWorktree. destruct (worktrees m !! k); [|by left].
  destruct (succeeds w (log m) _); [by right | by left].
Qed.

Lemma cleanup_registry_calm w now m k :
  (forall lg c, succeeds w lg c = true) ->
  worktrees (snd (cleanupWorktree w now m k)) = delete k (worktrees m).
Proof.
  intros Hw. unfold cleanupWorktree. destruct (worktrees m !! k) eqn:E.
  - by rewrite Hw.
  - simpl. by rewrite delete_id.
Qed.

Lemma cleanup_registry_failing w now m k :
  (forall lg c, succeeds w lg c = false) ->
  worktrees (snd (cleanupWorktree w now m k)) = worktrees m.
Proof.
  intros Hw. unfold cleanupWorktree. destruct (worktrees m !! k); [|done].
  by rewrite Hw.
Qed.

Lemma prune_fold w now L m :
  let m' := fold_left (prune_step w now) L m in
  (forall k wt, worktrees m' !! k = Some wt -> worktrees m !! k = Some wt) /\
  (forall k, k ∉ id <$> L -> worktrees m' !! k = worktrees m !! k) /\
  ((forall lg c, succeeds w lg c = true) ->
     forall k, k ∈ id <$> L -> worktrees m' !! k = None) /\
  ((forall lg c, succeeds w lg c = false) -> worktrees m' = worktrees m).
Proof.
  revert m. induction L as [|wt L IH]; intros m; simpl.
  - split; [done|]. split; [done|]. split; [|done]. intros _ k Hk. inversion Hk.
  - change (prune_step w now m wt) with (snd (cleanupWorktree w now m (id wt))).
    destruct (IH (snd (cleanupWorktree w now m (id wt))))
      as (Hsub & Hkeep & Hcalm & Hfail).
    split; [|split; [|split]].
    + intros k x Hk. apply Hsub in Hk.
      destruct (cleanup_registry w now m (id wt)) as [E|E]; rewrite E in Hk;
        [done|]. by apply lookup_delete_Some in Hk as [_ ?].
    + intros k Hk. apply not_elem_of_cons in Hk as [Hne Hk].
      rewrite Hkeep by done.
      destruct (cleanup_registry w now m (id wt)) as [E|E]; rewrite E; [done|].
      by rewrite lookup_delete_ne.
    + intros Hw k Hk. specialize (Hcalm Hw).
      destruct (decide (k ∈ id <$> L)) as [Hin|Hout]; [by apply Hcalm|].
      rewrite Hkeep by done. rewrite cleanup_registry_calm by done.
      apply elem_of_cons in Hk as [->|?]; [|done]. apply lookup_delete_eq.
    + intros Hw. rewrite Hfail by done. by apply cleanup_registry_failing.
Qed.
End WorktreePruning.

(** X18: [pruneLowFitnessWorktrees] returns the number of tracked
    worktrees that are active with a fitness below the threshold,
    whether their cleanup succeeds or not.  It only removes worktrees,
    and never one that is not active or has a fitness at or above the
    threshold; when every call to git succeeds no low-fitness active
    worktree is left, and when every call fails the registry is as it
    was. *)
Theorem pruneLowFitnessWorktrees_removes_low_only
    (w : world) (now : Z) (m : WorktreeManager.manager)
    (values : list WorktreeManager.worktree) (fitnessThreshold : Q) :
  manager_reachable m -> lists_worktrees m values ->
  let result :=
    WorktreeManager.pruneLowFitnessWorktrees w now values m fitnessThreshold in
  let low := fun wt => WorktreeManager.low_fitness fitnessThreshold wt = true in
  fst result
    = size (filter (fun kv => low (snd kv)) (WorktreeManager.worktrees m)) /\
  (forall k wt, WorktreeManager.worktrees (snd result) !! k = Some wt ->
     WorktreeManager.worktrees m !! k = Some wt) /\
  (forall k wt, WorktreeManager.worktrees m !! k = Some wt -> ~ low wt ->
     WorktreeManager.worktrees (snd result) !! k = Some wt) /\
  ((forall lg c, succeeds w lg c = true) ->
     forall k wt, WorktreeManager.worktrees (snd result) !! k = Some wt -> ~ low wt) /\
  ((forall lg c, succeeds w lg c = false) ->
     WorktreeManager.worktrees (snd result) = WorktreeManager.worktrees m).
Proof.
  intros Hm Hl result low.
  pose proof (reachable_manager_ok m Hm) as (_ & _ & Hall).
  unfold result, WorktreeManager.pruneLowFitnessWorktrees. cbn [fst snd].
  set (L := List.filter (WorktreeManager.low_fitness fitnessThreshold) values).
  destruct (prune_fold w now L m) as (Hsub & Hkeep & Hcalm & Hfail).
  assert (HL : forall wt, wt ∈ L <->
            (exists k, WorktreeManager.worktrees m !! k = Some wt) /\ low wt).
  { intros wt. unfold L. rewrite list_elem_of_In, filter_In, <- list_elem_of_In.
    by rewrite (listed_tracked m values wt Hl). }
  split; [|split; [|split; [|split]]].
  - unfold L. rewrite filter_bool_filter.
    rewrite (size_filter_values low) by done.
    unfold lists_worktrees in Hl. by rewrite <- Hl.
  - exact Hsub.
  - intros k wt Hk Hnot. rewrite Hkeep; [done|].
    intros (wt' & -> & Hin)%list_elem_of_fmap.
    apply HL in Hin as [[k' Hk'] Hlow].
    destruct (Hall k' wt' Hk') as (Hid & _). rewrite Hid in Hk.
    assert (wt = wt') by congruence. by subst.
  - intros Hw k wt Hk Hlow.
    pose proof (Hsub k wt Hk) as Hk0.
    destruct (Hall k wt Hk0) as (Hid & _).
    rewrite (Hcalm Hw k) in Hk; [done|].
    apply list_elem_of_fmap. exists wt. split; [done|]. apply HL. eauto.
  - exact Hfail.
Qed.

Lemma pruneLowFitnessWorktrees_removes_low_only_witness :
  let result :=
    WorktreeManager.pruneLowFitnessWorktrees calm 2
      (map_to_list (WorktreeManager.worktrees nine_active)).*2 nine_active 30 in
  fst result = 9%nat /\
  forall k wt, WorktreeManager.worktrees (snd result) !! k = Some wt ->
    WorktreeManager.low_fitness 30 wt <> true.
Proof.
  destruct (pruneLowFitnessWorktrees_removes_low_only calm 2 nine_active
              (map_to_list (WorktreeManager.worktrees nine_active)).*2 30
              nine_active_reachable) as (Hcount & _ & _ & Hcalm & _).
  - unfold lists_worktrees. reflexivity.
  - split; [rewrite Hcount; vm_compute; reflexivity|].
    intros k wt Hk. by apply (Hcalm ltac:(done) k wt).
Defined.

(** X19: a worktree that [createEvolutionWorktree] returns is found by
    [getWorktree] under its id, active, with fitness 0 and no commits;
    when the id was not yet tracked the registry has grown by one, and a
    successful [cleanupWorktree] of that id gives back the registry as it
    was before the creation. *)
Theorem create_then_cleanup_restores
    (w w' : world) (now now' : Z) (m m1 m2 : WorktreeManager.manager)
    (evolutionId baseBranch godName : string) (wt : WorktreeManager.worktree) :
  WorktreeManager.createEvolutionWorktree w now m evolutionId baseBranch godName
    = (Ok wt, m1) ->
  WorktreeManager.worktrees m !! WorktreeManager.id wt = None ->
  WorktreeManager.cleanupWorktree w' now' m1 (WorktreeManager.id wt) = (Ok tt, m2) ->
  WorktreeManager.getWorktree m1 (WorktreeManager.id wt) = Some wt /\
  WorktreeManager.wt_status wt = WorktreeManager.active /\
  WorktreeManager.fitness wt = 0%Q /\
  WorktreeManager.commits wt = [] /\
  size (WorktreeManager.worktrees m1) = S (size (WorktreeManager.worktrees m)) /\
  WorktreeManager.worktrees m2 = WorktreeManager.worktrees m.
Proof.
  unfold WorktreeManager.createEvolutionWorktree.
  destruct (_ <=? _)%nat; [done|].
  destruct (run w _ _) as [[failed|] lg]; [done|].
  intros [= <- <-]. cbn [WorktreeManager.id]. intros Hnew Hclean.
  apply cleanup_ok in Hclean as (_ & -> & _).
  cbn [WorktreeManager.worktrees WorktreeManager.with_worktrees
       WorktreeManager.with_log] in *.
  unfold WorktreeManager.getWorktree.
  cbn [WorktreeManager.worktrees WorktreeManager.with_worktrees].
  split; [apply lookup_insert_eq|]. do 3 (split; [done|]).
  split; [by rewrite map_size_insert_None|].
  by rewrite delete_insert_id.
Qed.

Lemma create_then_cleanup_restores_witness :
  exists wt m1 m2,
    WorktreeManager.createEvolutionWorktree calm 0 (WorktreeManager.new_manager ".")
      "e0" "main" "Brahma" = (Ok wt, m1) /\
    WorktreeManager.cleanupWorktree calm 1 m1 (WorktreeManager.id wt) = (Ok tt, m2) /\
    WorktreeManager.worktrees m2
      = WorktreeManager.worktrees (WorktreeManager.new_manager ".").
Proof.
  destruct (WorktreeManager.createEvolutionWorktree calm 0
              (WorktreeManager.new_manager ".") "e0" "main" "Brahma")
    as [[wt|err] m1] eqn:E1; [|vm_compute in E1; discriminate E1].
  assert (Hnew : WorktreeManager.worktrees (WorktreeManager.new_manager ".")
                   !! WorktreeManager.id wt = None) by apply lookup_empty.
  destruct (WorktreeManager.cleanupWorktree calm 1 m1 (WorktreeManager.id wt))
    as [[[]|err] m2] eqn:E2.
  - exists wt, m1, m2. split; [reflexivity|]. split; [exact E2|].
    by destruct (create_then_cleanup_restores calm calm 0 1 _ m1 m2
                   "e0" "main" "Brahma" wt E1 Hnew E2) as (_ & _ & _ & _ & _ & ?).
  - exfalso. vm_compute in E1. injection E1 as <- <-.
    vm_compute in E2. discriminate E2.
Defined.

(** X20: what a failed operation leaves behind.  When
    [createEvolutionWorktree], [applyMutation] or [cleanupWorktree]
    throws, the registry tracks the same worktrees in the same state as
    before.  When [mergeEvolution] throws, the worktree is unknown and
    nothing changed, or a call to git failed and the worktree alone is
    now marked merge_failed, with the failure recorded. *)
Theorem registry_after_failure
    (w : world) (now : Z) (m m' : WorktreeManager.manager) (err : error) :
  (forall evolutionId baseBranch godName,
     WorktreeManager.createEvolutionWorktree w now m evolutionId baseBranch godName
       = (Throw err, m') ->
     WorktreeManager.worktrees m' = WorktreeManager.worktrees m) /\
  (forall stats worktreeId mutation commitMessage,
     WorktreeManager.applyMutation w now stats m worktreeId mutation commitMessage
       = (Throw err, m') ->
     WorktreeManager.worktrees m' = WorktreeManager.worktrees m) /\
  (forall worktreeId,
     WorktreeManager.cleanupWorktree w now m worktreeId = (Throw err, m') ->
     WorktreeManager.worktrees m' = WorktreeManager.worktrees m) /\
  (forall worktreeId targetBranch fitnessThreshold,
     WorktreeManager.mergeEvolution w now m worktreeId targetBranch fitnessThreshold
       = (Throw err, m') ->
     (err = WorktreeNotFound worktreeId /\
      WorktreeManager.worktrees m !! worktreeId = None /\ m' = m) \/
     exists wt failed,
       err = CallFailed failed /\
       WorktreeManager.worktrees m !! worktreeId = Some wt /\
       WorktreeManager.worktrees m'
         = <[worktreeId :=
               WorktreeManager.with_status WorktreeManager.merge_failed
                 (WorktreeManager.mergedAt wt) (WorktreeManager.mergedTo wt)
                 (Some failed) wt]> (WorktreeManager.worktrees m)).
Proof.
  split; [|split; [|split]].
  - intros evolutionId baseBranch godName.
    unfold WorktreeManager.createEvolutionWorktree.
    destruct (_ <=? _)%nat; [by intros [= _ <-]|].
    destruct (run w _ _) as [[failed|] lg]; [|done]. by intros [= _ <-].
  - intros stats worktreeId mutation commitMessage.
    unfold WorktreeManager.applyMutation.
    destruct (_ !! worktreeId); [|by intros [= _ <-]].
    destruct (run w _ _) as [[failed|] lg]; [|done]. by intros [= _ <-].
  - intros worktreeId. unfold WorktreeManager.cleanupWorktree.
    destruct (_ !! worktreeId); [|by intros [= _ <-]].
    destruct (succeeds w _ _); [done|]. by intros [= _ <-].
  - intros worktreeId targetBranch fitnessThreshold.
    unfold WorktreeManager.mergeEvolution.
    destruct (_ !! worktreeId) as [wt|] eqn:E; [|intros [= <- <-]; by left].
    destruct (Qltb _ _); [done|].
    destruct (run w _ _) as [[failed|] lg]; [|done].
    intros [= <- <-]. right. by exists wt, failed.
Qed.

(** * Further properties of the mutation registry *)

Section MutationRegistry.
Import MutationBrancher.


Lemma brancher_ok_with_log lg b : brancher_ok b -> brancher_ok (with_log lg b).
Proof. done. Qed.


End MutationRegistry.

Section MutationWalks.
Import MutationBrancher.









End MutationWalks.




(** X22: what a failed [applyMutationChanges] leaves behind.  It throws
    for an unknown id or for a mutation that is not active, and then
    changes nothing; or a call to git failed, and then the mutation is
    marked error with the failure recorded and keeps its place in
    [activeMutations], and every later [applyMutationChanges] on it is
    refused as not active, whatever the environment. *)
Theorem applyMutationChanges_failure_is_sticky
    (w : world) (now : Z) (b b' : MutationBrancher.brancher)
    (mutationId : string) (new_changes : list string) (commitMessage : string)
    (err : error) :
  MutationBrancher.applyMutationChanges w now b mutationId new_changes commitMessage
    = (Throw err, b') ->
  (err = MutationNotFound mutationId /\
   MutationBrancher.mutationBranches b !! mutationId = None /\ b' = b) \/
  (err = MutationNotActive mutationId /\ b' = b /\
   exists mu, MutationBrancher.mutationBranches b !! mutationId = Some mu /\
     MutationBrancher.mut_status mu <> MutationBrancher.active) \/
  (exists failed mu,
     err = CallFailed failed /\
     MutationBrancher.mutationBranches b !! mutationId = Some mu /\
     MutationBrancher.mut_status mu = MutationBrancher.active /\
     MutationBrancher.mutationBranches b'
       = <[mutationId :=
             MutationBrancher.set_status MutationBrancher.error (Some failed) mu]>
           (MutationBrancher.mutationBranches b) /\
     MutationBrancher.activeMutations b' = MutationBrancher.activeMutations b /\
     MutationBrancher.branchHistory b' = MutationBrancher.branchHistory b /\
     forall w2 now2 changes2 message2,
       MutationBrancher.applyMutationChanges w2 now2 b' mutationId changes2 message2
         = (Throw (MutationNotActive mutationId), b')).
Proof.
  unfold MutationBrancher.applyMutationChanges at 1.
  destruct (MutationBrancher.mutationBranches b !! mutationId) as [mu|] eqn:E.
  - destruct (decide (MutationBrancher.mut_status mu = MutationBrancher.active))
      as [Hst|Hst].
    + destruct (run w _ (MutationBrancher.log b)) as [[failed|] lg]; [|inversion 1].
      intros [= <- <-]. right. right. exists failed, mu.
      split; [done|]. split; [done|]. split; [done|]. split; [done|].
      split; [done|]. split; [done|].
      intros w2 now2 changes2 message2.
      unfold MutationBrancher.applyMutationChanges. simpl.
      rewrite lookup_insert_eq. simpl. done.
    + intros [= <- <-]. right. left. split; [done|]. split; [done|]. by exists mu.
  - intros [= <- <-]. by left.
Qed.

Lemma applyMutationChanges_failure_is_sticky_witness :
  let b' :=
    snd (MutationBrancher.applyMutationChanges no_commit 1 one_mutation
           "docs_0_ab" ["a.js"] "msg") in
  (CallFailed (gitCommit "." "msg") = MutationNotFound "docs_0_ab" /\
   MutationBrancher.mutationBranches one_mutation !! "docs_0_ab" = None /\
   b' = one_mutation) \/
  (CallFailed (gitCommit "." "msg") = MutationNotActive "docs_0_ab" /\
   b' = one_mutation /\
   exists mu, MutationBrancher.mutationBranches one_mutation !! "docs_0_ab" = Some mu /\
     MutationBrancher.mut_status mu <> MutationBrancher.active) \/
  (exists failed mu,
     CallFailed (gitCommit "." "msg") = CallFailed failed /\
     MutationBrancher.mutationBranches one_mutation !! "docs_0_ab" = Some mu /\
     MutationBrancher.mut_status mu = MutationBrancher.active /\
     MutationBrancher.mutationBranches b'
       = <["docs_0_ab" :=
             MutationBrancher.set_status MutationBrancher.error (Some failed) mu]>
           (MutationBrancher.mutationBranches one_mutation) /\
     MutationBrancher.activeMutations b'
       = MutationBrancher.activeMutations one_mutation /\
     MutationBrancher.branchHistory b' = MutationBrancher.branchHistory one_mutation /\
     forall w2 now2 changes2 message2,
       MutationBrancher.applyMutationChanges w2 now2 b' "docs_0_ab" changes2 message2
         = (Throw (MutationNotActive "docs_0_ab"), b')).
Proof.
  apply (applyMutationChanges_failure_is_sticky no_commit 1 one_mutation
           (snd (MutationBrancher.applyMutationChanges no_commit 1 one_mutation
                   "docs_0_ab" ["a.js"] "msg"))
           "docs_0_ab" ["a.js"] "msg" (CallFailed (gitCommit "." "msg"))).
  vm_compute. reflexivity.
Defined.

Section MutationStatistics.
Import MutationBrancher.


Lemma god_fold (g : string) (ms : list mutation) :
  forall d : gmap string nat,
    let d' :=
      fold_left
        (fun distribution m =>
           <[god m := (default 0 (distribution !! god m) + 1)%nat]> distribution)
        ms d in
    default 0%nat (d' !! g)
      = (default 0%nat (d !! g) + length (filter (fun m => god m = g) ms))%nat /\
    (d' !! g = None <-> d !! g = None /\ filter (fun m => god m = g) ms = []).
Proof.
  induction ms as [|m ms IH]; intros d d'.
  - unfold d'. simpl. split; [lia|]. split; [done|]. by intros [? _].
  - unfold d'. change (fold_left ?f (m :: ms) ?a) with (fold_left f ms (f a m)).
    destruct (IH (<[god m := (default 0 (d !! god m) + 1)%nat]> d)) as [Hc Hn].
    rewrite Hc, Hn, filter_cons. clear Hc Hn.
    destruct (decide (god m = g)) as [<-|Hne].
    + rewrite lookup_insert_eq. simpl. split; [lia|].
      split; [by intros [? _] | by intros [_ ?]].
    + by rewrite lookup_insert_ne.
Qed.
End MutationStatistics.






(** X25: [getGodDistribution] counts every mutation once, under its
    god: the entry of a god is the number of listed mutations with that
    god, and a god without a mutation has no entry. *)
Theorem getGodDistribution_counts
    (mutations : list MutationBrancher.mutation) (g : string) :
  let n := length (filter (fun m => MutationBrancher.god m = g) mutations) in
  MutationBrancher.getGodDistribution mutations !! g
    = if (n =? 0)%nat then None else Some n.
Proof.
  intros n. unfold MutationBrancher.getGodDistribution.
  destruct (god_fold g mutations ∅) as [Hc Hn]. fold n in Hc.
  rewrite lookup_empty in Hc, Hn. simpl in Hc.
  destruct (n =? 0)%nat eqn:En.
  - apply Nat.eqb_eq in En. apply Hn. split; [done|].
    apply length_zero_iff_nil. exact En.
  - apply Nat.eqb_neq in En.
    destruct (fold_left _ mutations ∅ !! g) as [c|] eqn:E.
    + simpl in Hc. by rewrite Hc.
    + exfalso. apply En. destruct (proj1 Hn eq_refl) as [_ E']. unfold n. by rewrite E'.
Qed.

(** * Properties of the neural engine *)

(** ** Crossover *)

Section NeuralCrossover.
Import NeuralEvolutionEngine.


End NeuralCrossover.



(** ** Random architectures, diversity and the best network *)

Section NeuralSearchSpace.
Import NeuralEvolutionEngine.

Lemma randomChoice_member {A} (array : list A) (undefined : A) (random : rng) n :
  array <> [] -> (0 <= random n)%Q -> (random n < 1)%Q ->
  fst (randomChoice array undefined random n) ∈ array /\
  snd (randomChoice array undefined random n) = S n.
Proof.
  intros Hne H0 H1. unfold randomChoice, bind, draw, ret. cbn [fst snd].
  split; [|done].
  set (len := Z.of_nat (length array)).
  assert (Hlen : 0 < len).
  { unfold len. destruct array; [done | simpl; lia]. }
  assert (Hlo : 0 <= Qfloor (random n * inject_Z len)).
  { change 0 with (Qfloor 0). apply Qfloor_resp_le.
    apply Qmult_le_0_compat; [done|]. change 0%Q with (inject_Z 0).
    rewrite <- Zle_Qle. lia. }
  assert (Hhi : Qfloor (random n * inject_Z len) < len).
  { rewrite Zlt_Qlt. eapply Qle_lt_trans; [apply Qfloor_le|].
    assert (Hpos : (0 < inject_Z len)%Q).
    { change 0%Q with (inject_Z 0). rewrite <- Zlt_Qlt. lia. }
    nra. }
  apply list_elem_of_In, nth_In. unfold len in *. lia.
Qed.

Lemma random_layer_spec (random : rng) n :
  (forall i, (0 <= random i)%Q /\ (random i < 1)%Q) ->
  in_space (fst (random_layer random n)) /\
  snd (random_layer random n) = (n + 3)%nat.
Proof.
  intros Hr. unfold random_layer, bind, ret.
  destruct (randomChoice_member space_neuronsPerLayer NaN random n)
    as [Hn En]; [done | apply Hr | apply Hr |].
  destruct (randomChoice space_neuronsPerLayer NaN random n) as [v n1].
  cbn [fst snd] in Hn, En. subst n1.
  destruct (randomChoice_member space_activationFunctions "" random (S n))
    as [Ha Ea]; [done | apply Hr | apply Hr |].
  destruct (randomChoice space_activationFunctions "" random (S n)) as [a n2].
  cbn [fst snd] in Ha, Ea. subst n2.
  destruct (randomChoice_member space_dropoutRates NaN random (S (S n)))
    as [Hd Ed]; [done | apply Hr | apply Hr |].
  destruct (randomChoice space_dropoutRates NaN random (S (S n))) as [d n3].
  cbn [fst snd] in Hd, Ed. subst n3.
  cbn [fst snd]. split; [done | lia].
Qed.

Lemma random_layers_spec (random : rng) numLayers :
  (forall i, (0 <= random i)%Q /\ (random i < 1)%Q) ->
  forall n,
    length (fst (random_layers numLayers random n)) = numLayers /\
    snd (random_layers numLayers random n) = (n + 3 * numLayers)%nat /\
    Forall in_space (fst (random_layers numLayers random n)).
Proof.
  intros Hr. induction numLayers as [|k IH]; intros n.
  - cbn [random_layers]. unfold ret. cbn [fst snd length].
    split; [done|]. split; [lia | constructor].
  - cbn [random_layers]. unfold bind, ret.
    destruct (random_layer_spec random n Hr) as [Hl El].
    destruct (random_layer random n) as [l n1]. cbn [fst snd] in Hl, El. subst n1.
    destruct (IH (n + 3)%nat) as (Hlen & En & Hall).
    destruct (random_layers k random (n + 3)%nat) as [ls n2].
    cbn [fst snd] in Hlen, En, Hall. subst n2.
    cbn [fst snd length].
    split; [by rewrite Hlen|]. split; [lia|]. by constructor.
Qed.

Lemma neurons_fold_bounds (layers : list layer) :
  Forall in_space layers ->
  forall a : Q,
    exists q,
      fold_left (fun total l => add total (neurons l)) layers (Fin a) = Fin q /\
      (a + 8 * inject_Z (Z.of_nat (length layers)) <= q)%Q /\
      (q <= a + 128 * inject_Z (Z.of_nat (length layers)))%Q.
Proof.
  induction 1 as [|l layers (Hn & _ & _) _ IH]; intros a.
  - exists a. cbn [fold_left length]. change (inject_Z (Z.of_nat 0)) with 0%Q.
    split; [done|]. split; lra.
  - cbn [fold_left length].
    rewrite Nat2Z.inj_succ, <- Z.add_1_r, inject_Z_plus.
    change (inject_Z 1) with 1%Q.
    assert (Hv : exists v, neurons l = Fin v /\ (8 <= v)%Q /\ (v <= 128)%Q).
    { unfold space_neuronsPerLayer in Hn.
      repeat (apply elem_of_cons in Hn as [->|Hn];
              [eexists; split; [reflexivity|]; split; unfold Qle; simpl; lia|]).
      by apply elem_of_nil in Hn. }
    destruct Hv as (v & -> & Hv0 & Hv1). cbn [add].
    destruct (IH (a + v)%Q) as (q & E & Hlo & Hhi).
    exists q. split; [done|]. split; lra.
Qed.
End NeuralSearchSpace.

(** X27: when every draw of [Math.random] lies in [0, 1),
    [generateRandomArchitecture] makes between 1 and 5 hidden layers,
    each with neurons, activation and dropout from the search space, and
    a learning rate from the search space; it draws two numbers and
    three more for every layer; and the complexity that it records is
    the finite number between 0.08 and 1.28 times the number of
    layers. *)
Theorem generateRandomArchitecture_in_search_space
    (e : NeuralEvolutionEngine.engine) (now : Z) (networkId : string)
    (random : NeuralEvolutionEngine.rng) (n : nat) :
  (forall i, (0 <= random i)%Q /\ (random i < 1)%Q) ->
  let result :=
    NeuralEvolutionEngine.generateRandomArchitecture e now networkId random n in
  let layers := NeuralEvolutionEngine.hiddenLayers (fst result) in
  (1 <= length layers)%nat /\ (length layers <= 5)%nat /\
  snd result = (n + 2 + 3 * length layers)%nat /\
  Forall (fun l =>
      NeuralEvolutionEngine.neurons l ∈ NeuralEvolutionEngine.space_neuronsPerLayer /\
      NeuralEvolutionEngine.activation l
        ∈ NeuralEvolutionEngine.space_activationFunctions /\
      NeuralEvolutionEngine.dropout l ∈ NeuralEvolutionEngine.space_dropoutRates)
    layers /\
  NeuralEvolutionEngine.learningRate (fst result)
    ∈ NeuralEvolutionEngine.space_learningRates /\
  exists q,
    NeuralEvolutionEngine.complexity (NeuralEvolutionEngine.net_metrics (fst result))
      = Fin q /\
    ((8 # 100) * inject_Z (Z.of_nat (length layers)) <= q)%Q /\
    (q <= (128 # 100) * inject_Z (Z.of_nat (length layers)))%Q.
Proof.
  intros Hr result layers. unfold layers, result.
  unfold NeuralEvolutionEngine.generateRandomArchitecture.
  unfold NeuralEvolutionEngine.bind, NeuralEvolutionEngine.ret.
  destruct (randomChoice_member NeuralEvolutionEngine.space_hiddenLayers 0%nat
              random n) as [Hk Ek]; [done | apply Hr | apply Hr |].
  destruct (NeuralEvolutionEngine.randomChoice
              NeuralEvolutionEngine.space_hiddenLayers 0%nat random n)
    as [numLayers n1].
  cbn [fst snd] in Hk, Ek. subst n1.
  destruct (random_layers_spec random numLayers Hr (S n)) as (Hlen & En & Hall).
  destruct (NeuralEvolutionEngine.random_layers numLayers random (S n))
    as [ls n2].
  cbn [fst snd] in Hlen, En, Hall. subst n2.
  destruct (randomChoice_member NeuralEvolutionEngine.space_learningRates NaN
              random (S n + 3 * numLayers)%nat) as [Hlr Elr];
    [done | apply Hr | apply Hr |].
  destruct (NeuralEvolutionEngine.randomChoice
              NeuralEvolutionEngine.space_learningRates NaN random
              (S n + 3 * numLayers)%nat) as [lr n3].
  cbn [fst snd] in Hlr, Elr. subst n3.
  cbn [fst snd NeuralEvolutionEngine.hiddenLayers NeuralEvolutionEngine.learningRate
       NeuralEvolutionEngine.net_metrics NeuralEvolutionEngine.complexity].
  assert (Hrange : (1 <= numLayers <= 5)%nat).
  { unfold NeuralEvolutionEngine.space_hiddenLayers in Hk.
    repeat (apply elem_of_cons in Hk as [->|Hk]; [lia|]).
    by apply elem_of_nil in Hk. }
  rewrite Hlen.
  split; [lia|]. split; [lia|]. split; [lia|]. split; [exact Hall|].
  split; [exact Hlr|].
  unfold NeuralEvolutionEngine.calculateComplexity.
  destruct (neurons_fold_bounds ls Hall 0) as (q & E & Hlo & Hhi).
  rewrite E. rewrite Hlen in Hlo, Hhi.
  exists (q / 100)%Q. split; [done|].
  set (k := inject_Z (Z.of_nat numLayers)) in *.
  split.
  - apply Qle_shift_div_l; lra.
  - apply Qle_shift_div_r; lra.
Qed.

Lemma generateRandomArchitecture_in_search_space_witness :
  let result :=
    NeuralEvolutionEngine.generateRandomArchitecture
      NeuralEvolutionEngine.new_engine 0 "n1" quarter 0%nat in
  let layers := NeuralEvolutionEngine.hiddenLayers (fst result) in
  (1 <= length layers)%nat /\ (length layers <= 5)%nat /\
  snd result = (0 + 2 + 3 * length layers)%nat /\
  Forall (fun l =>
      NeuralEvolutionEngine.neurons l ∈ NeuralEvolutionEngine.space_neuronsPerLayer /\
      NeuralEvolutionEngine.activation l
        ∈ NeuralEvolutionEngine.space_activationFunctions /\
      NeuralEvolutionEngine.dropout l ∈ NeuralEvolutionEngine.space_dropoutRates)
    layers /\
  NeuralEvolutionEngine.learningRate (fst result)
    ∈ NeuralEvolutionEngine.space_learningRates /\
  exists q,
    NeuralEvolutionEngine.complexity (NeuralEvolutionEngine.net_metrics (fst result))
      = Fin q /\
    ((8 # 100) * inject_Z (Z.of_nat (length layers)) <= q)%Q /\
    (q <= (128 # 100) * inject_Z (Z.of_nat (length layers)))%Q.
Proof.
  apply (generateRandomArchitecture_in_search_space
           NeuralEvolutionEngine.new_engine 0 "n1" quarter 0%nat).
  intros i. unfold quarter, Qle, Qlt. simpl. lia.
Defined.

Section NeuralPopulation.
Import NeuralEvolutionEngine.

Lemma size_list_to_set_le (l : list string) :
  (size (list_to_set l : gset string) <= length l)%nat.
Proof.
  induction l as [|x l IH]; [by rewrite list_to_set_nil, size_empty|].
  rewrite list_to_set_cons. cbn [length].
  destruct (decide (x ∈ (list_to_set l : gset string))) as [Hin|Hout].
  - assert (E : {[x]} ∪ (list_to_set l : gset string) = list_to_set l).
    { apply subseteq_union_1_L. by apply singleton_subseteq_l. }
    rewrite E. lia.
  - rewrite size_union by (by apply disjoint_singleton_l).
    rewrite size_singleton. lia.
Qed.

Lemma size_list_to_set_pos (l : list string) :
  l <> [] -> (1 <= size (list_to_set l : gset string))%nat.
Proof.
  intros Hne. destruct l as [|x l]; [done|].
  assert (size (list_to_set (x :: l) : gset string) <> 0%nat); [|lia].
  apply size_non_empty_iff. rewrite list_to_set_cons.
  intros Hempty. apply (not_elem_of_empty (C := gset string) x).
  rewrite <- Hempty. apply elem_of_union. left. by apply elem_of_singleton.
Qed.

Lemma ratio_below_tenth (u len : nat) :
  (0 < len)%nat ->
  div (of_Z (Z.of_nat u)) (of_Z (Z.of_nat len))
    = Fin (inject_Z (Z.of_nat u) / inject_Z (Z.of_nat len)) /\
  (Qltb (inject_Z (Z.of_nat u) / inject_Z (Z.of_nat len)) (1 # 10) = true
   <-> (10 * u < len)%nat).
Proof.
  intros Hlen.
  assert (Hpos : (0 < inject_Z (Z.of_nat len))%Q).
  { change 0%Q with (inject_Z 0). rewrite <- Zlt_Qlt. lia. }
  split.
  - unfold div, of_Z.
    destruct (Qeq_bool (inject_Z (Z.of_nat len)) 0) eqn:E; [|done].
    apply Qeq_bool_eq in E. lra.
  - rewrite Qltb_lt.
    set (a := inject_Z (Z.of_nat u)). set (b := inject_Z (Z.of_nat len)) in *.
    assert (Hx : (b * (a / b) == a)%Q) by (apply Qmult_div_r; lra).
    assert (Hiff : (10 * u < len)%nat <-> (10 * a < b)%Q).
    { unfold a, b. change 10%Q with (inject_Z 10).
      rewrite <- inject_Z_mult, <- Zlt_Qlt. lia. }
    rewrite Hiff. set (x := (a / b)%Q) in *. split; intros H; nra.
Qed.
End NeuralPopulation.

(** X28: the diversity that [calculatePopulationDiversity] returns is
    the number of distinct serialised architectures over the size of
    the population: NaN for an empty population, and else a number
    above 0 and at most 1.  [hasConverged] answers [true] exactly when
    ten times the number of distinct architectures is below the size of
    the population, so never for a population of at most 10
    networks. *)
Theorem hasConverged_needs_more_than_ten
    (stringify : nat * list num * list string -> string)
    (population : list NeuralEvolutionEngine.network) :
  let unique :=
    size (list_to_set
            ((fun n => stringify (NeuralEvolutionEngine.architecture n))
               <$> population) : gset string) in
  (NeuralEvolutionEngine.hasConverged stringify population = true
   <-> (10 * unique < length population)%nat) /\
  ((length population <= 10)%nat ->
   NeuralEvolutionEngine.hasConverged stringify population = false) /\
  NeuralEvolutionEngine.calculatePopulationDiversity stringify [] = NaN /\
  (population <> [] ->
   exists q,
     NeuralEvolutionEngine.calculatePopulationDiversity stringify population = Fin q /\
     (0 < q)%Q /\ (q <= 1)%Q).
Proof.
  intros unique.
  pose proof (size_list_to_set_le
                ((fun n => stringify (NeuralEvolutionEngine.architecture n))
                   <$> population)) as Hle.
  rewrite length_fmap in Hle. fold unique in Hle.
  assert (Hiff : NeuralEvolutionEngine.hasConverged stringify population = true
                 <-> (10 * unique < length population)%nat).
  { unfold NeuralEvolutionEngine.hasConverged,
      NeuralEvolutionEngine.calculatePopulationDiversity. fold unique.
    destruct population as [|p population].
    - cbn [length]. split; [|lia].
      assert (unique = 0%nat) as -> by (cbn [length] in Hle; lia). done.
    - destruct (ratio_below_tenth unique (length (p :: population)))
        as [E Hlt]; [cbn [length]; lia|].
      rewrite E. cbn [ltb]. exact Hlt. }
  split; [exact Hiff|]. split; [|split].
  - intros Hsmall. apply not_true_is_false. intros Hc. apply Hiff in Hc.
    destruct population as [|p population]; [cbn [length] in Hc; lia|].
    pose proof (size_list_to_set_pos
                  ((fun n => stringify (NeuralEvolutionEngine.architecture n))
                     <$> (p :: population))) as Hpos.
    fold unique in Hpos. specialize (Hpos ltac:(done)). lia.
  - done.
  - intros Hne.
    unfold NeuralEvolutionEngine.calculatePopulationDiversity. fold unique.
    assert (Hlen : (0 < length population)%nat).
    { destruct population; [done | cbn [length]; lia]. }
    destruct (ratio_below_tenth unique (length population) Hlen) as [E _].
    rewrite E. eexists. split; [reflexivity|].
    pose proof (size_list_to_set_pos
                  ((fun n => stringify (NeuralEvolutionEngine.architecture n))
                     <$> population)) as Hpos.
    fold unique in Hpos.
    assert (Hu : (1 <= unique)%nat).
    { apply Hpos. by destruct population. }
    assert (Hb : (0 < inject_Z (Z.of_nat (length population)))%Q).
    { change 0%Q with (inject_Z 0). rewrite <- Zlt_Qlt. lia. }
    assert (Ha : (0 < inject_Z (Z.of_nat unique))%Q).
    { change 0%Q with (inject_Z 0). rewrite <- Zlt_Qlt. lia. }
    assert (Hab : (inject_Z (Z.of_nat unique)
                   <= inject_Z (Z.of_nat (length population)))%Q).
    { rewrite <- Zle_Qle. lia. }
    split.
    + apply Qlt_shift_div_l; lra.
    + apply Qle_shift_div_r; lra.
Qed.

Section NeuralBest.
Import NeuralEvolutionEngine.

Lemma ltb_numbers a b : ltb a b = true -> a <> NaN /\ b <> NaN.
Proof. by destruct a, b. Qed.

Lemma ltb_nan_r a : ltb a NaN = false.
Proof. by destruct a. Qed.

Lemma ltb_trans a b c : ltb a b = true -> ltb b c = true -> ltb a c = true.
Proof.
  intros Hab Hbc. destruct (ltb_numbers b c Hbc) as [Hb Hc].
  apply (ltb_le_trans a b c); [done | done | done |]. by apply ltb_asym.
Qed.

(** What the loop of [getBestNetwork] has after the networks [seen]. *)
Lemma better_fold (values : list network) :
  forall (acc : option network * num) (seen : list network),
    snd acc <> NaN ->
    (fst acc = None /\ snd acc = Fin (-1) \/
     exists b, fst acc = Some b /\ b ∈ seen /\ snd acc = fitness b /\
       ltb (Fin (-1)) (snd acc) = true) ->
    (forall n, n ∈ seen -> ltb (snd acc) (fitness n) = false) ->
    let r := fold_left better values acc in
    (fst r = None /\ snd r = Fin (-1) \/
     exists b, fst r = Some b /\ b ∈ seen ++ values /\ snd r = fitness b /\
       ltb (Fin (-1)) (snd r) = true) /\
    (forall n, n ∈ seen ++ values -> ltb (snd r) (fitness n) = false).
Proof.
  induction values as [|x values IH]; intros acc seen Hnan Hbest Hseen r.
  - unfold r. cbn [fold_left]. rewrite app_nil_r. done.
  - unfold r. change (fold_left better (x :: values) acc)
      with (fold_left better values (better acc x)).
    replace (seen ++ x :: values) with ((seen ++ [x]) ++ values)
      by (by rewrite <- app_assoc).
    apply IH; unfold better, gtb;
      destruct (ltb (snd acc) (fitness x)) eqn:Ex; cbn [fst snd].
    + by destruct (ltb_numbers _ _ Ex).
    + done.
    + right. exists x. split; [done|]. split.
      { apply elem_of_app. right. by apply list_elem_of_singleton. }
      split; [done|].
      destruct Hbest as [[_ E]|(b & _ & _ & _ & Hb)].
      * by rewrite <- E.
      * by apply (ltb_trans _ (snd acc)).
    + destruct Hbest as [?|(b & Eb & Hb & Ef & Hpos)]; [by left|].
      right. exists b. split; [done|]. split; [|done].
      apply elem_of_app. by left.
    + intros n Hn. apply elem_of_app in Hn as [Hn|Hn].
      * pose proof (Hseen n Hn) as Hle.
        destruct (fitness n) eqn:En; [apply ltb_nan_r | | |];
          apply ltb_asym; by apply (le_ltb_trans _ (snd acc)).
      * apply list_elem_of_singleton in Hn as ->. apply ltb_irrefl.
    + intros n Hn. apply elem_of_app in Hn as [Hn|Hn]; [by apply Hseen|].
      by apply list_elem_of_singleton in Hn as ->.
Qed.
End NeuralBest.

(** X29: [getBestNetwork] returns [null] exactly when no listed network
    has a fitness above -1 (a NaN fitness is never above); otherwise it
    returns a listed network with a fitness above -1 that no listed
    network exceeds. *)
Theorem getBestNetwork_is_fittest (values : list NeuralEvolutionEngine.network) :
  match NeuralEvolutionEngine.getBestNetwork values with
  | None =>
      forall n, n ∈ values -> gtb (NeuralEvolutionEngine.fitness n) (Fin (-1)) = false
  | Some best =>
      best ∈ values /\
      gtb (NeuralEvolutionEngine.fitness best) (Fin (-1)) = true /\
      forall n, n ∈ values ->
        gtb (NeuralEvolutionEngine.fitness n) (NeuralEvolutionEngine.fitness best)
          = false
  end.
Proof.
  unfold NeuralEvolutionEngine.getBestNetwork, gtb.
  destruct (better_fold values (None, Fin (-1)) []) as [Hbest Hall].
  - done.
  - by left.
  - intros n Hn. by apply elem_of_nil in Hn.
  - cbn [app] in Hbest, Hall.
    destruct Hbest as [[-> E]|(b & -> & Hb & E & Hpos)].
    + intros n Hn. rewrite <- E. by apply Hall.
    + split; [done|]. rewrite <- E. split; [done|]. exact Hall.
Qed.

(** * The birth of a lineage *)

(** X30: [birthNewLineage] registers a lineage only after
    [createGeneration] has found it registered.  So whenever the id
    that it generates is not yet tracked, as for every id on a new
    birther, it throws and leaves the birther as it was: for the bound
    when 5 lineages are tracked, else with what [invokeDualGods] threw,
    else with the lineage reported as not found; and [createGeneration]
    throws likewise for a lineage that is not tracked. *)
Theorem birthNewLineage_throws_for_new_id
    (wb wm : world) (now : Z) (random : string) (dual : bool)
    (x : EvolutionBirther.environment) (b : EvolutionBirther.birther)
    (parentLineage : string) (godPair : option EvolutionBirther.god_pair)
    (species : string) :
  let lineageId := species +:+ "_lineage_" +:+ pretty now +:+ "_" +:+ random in
  EvolutionBirther.lineages b !! lineageId = None ->
  EvolutionBirther.birthNewLineage wb wm now random dual x b parentLineage godPair
    species
  = (EvolutionBirther.Throws
       (if (EvolutionBirther.maxActiveLineages b
            <=? size (EvolutionBirther.lineages b))%nat
        then EvolutionBirther.MaximumActiveLineagesReached
               (EvolutionBirther.maxActiveLineages b)
        else if dual then EvolutionBirther.LineageNotFound lineageId
        else EvolutionBirther.DualGodsFailed),
     b) /\
  forall generationNumber generationType,
    EvolutionBirther.createGeneration wb wm x b lineageId generationNumber
      generationType
    = (EvolutionBirther.Throws (EvolutionBirther.LineageNotFound lineageId), b).
Proof.
  intros lineageId Hnew. split.
  - unfold EvolutionBirther.birthNewLineage.
    destruct (EvolutionBirther.maxActiveLineages b
              <=? size (EvolutionBirther.lineages b))%nat; [done|].
    destruct dual; [|done].
    unfold EvolutionBirther.createGeneration. fold lineageId. by rewrite Hnew.
  - intros generationNumber generationType.
    unfold EvolutionBirther.createGeneration. by rewrite Hnew.
Qed.

Lemma birthNewLineage_throws_for_new_id_witness :
  EvolutionBirther.birthNewLineage calm calm 0 "c0ffee" true still
    (EvolutionBirther.new_birther ".") "main" None "hybrid"
  = (EvolutionBirther.Throws
       (if (EvolutionBirther.maxActiveLineages (EvolutionBirther.new_birther ".")
            <=? size (EvolutionBirther.lineages (EvolutionBirther.new_birther ".")))%nat
        then EvolutionBirther.MaximumActiveLineagesReached
               (EvolutionBirther.maxActiveLineages (EvolutionBirther.new_birther "."))
        else if true
             then EvolutionBirther.LineageNotFound
                    ("hybrid" +:+ "_lineage_" +:+ pretty 0 +:+ "_" +:+ "c0ffee")
        else EvolutionBirther.DualGodsFailed),
     EvolutionBirther.new_birther ".") /\
  forall generationNumber generationType,
    EvolutionBirther.createGeneration calm calm still
      (EvolutionBirther.new_birther ".")
      ("hybrid" +:+ "_lineage_" +:+ pretty 0 +:+ "_" +:+ "c0ffee")
      generationNumber generationType
    = (EvolutionBirther.Throws
         (EvolutionBirther.LineageNotFound
            ("hybrid" +:+ "_lineage_" +:+ pretty 0 +:+ "_" +:+ "c0ffee")),
       EvolutionBirther.new_birther ".").
Proof.
  apply (birthNewLineage_throws_for_new_id calm calm 0 "c0ffee" true still
           (EvolutionBirther.new_birther ".") "main" None "hybrid").
  apply lookup_empty.
Defined.
